(** * Optical Setup Designer: the editor (src/frontend/src/App.jsx) and the
    ray-tracing engine described by the specification.

    The editor is embedded from its JavaScript source.  In [App], JS
    numbers are idealised as real numbers extended with NaN and the two
    infinities (no rounding, no overflow, one zero), which is what the
    structure of the handlers needs; [Double] gives the port geometry over
    IEEE doubles, where rounding and overflow show.  JS objects are
    records, arrays are lists, and the React state is one record passed
    through each handler. *)

From Stdlib Require Import List String ZArith QArith Qabs Reals Bool Psatz.
From Stdlib Require Floats.
Import ListNotations.

Module App.

Local Open Scope string_scope.
Local Open Scope list_scope.
Local Open Scope R_scope.

(** ** JavaScript numbers *)

Inductive number : Type :=
| Finite (r : R)
| NaN
| PosInfinity
| NegInfinity.

(** What a numeric field of the editor state can hold: a number, or the
    [null] that [JSON.parse] reads where [JSON.stringify] wrote a number
    that is not finite. *)
Inductive scalar : Type :=
| Num (n : number)
| Null.

(** ECMAScript ToNumber on those values: [null] counts as zero. *)
Definition ToNumber (v : scalar) : number :=
  match v with
  | Num n => n
  | Null => Finite 0
  end.

Definition sign (r : R) : comparison :=
  match total_order_T r 0 with
  | inleft (left _) => Lt
  | inleft (right _) => Eq
  | inright _ => Gt
  end.

Definition neg (a : number) : number :=
  match a with
  | Finite x => Finite (- x)
  | NaN => NaN
  | PosInfinity => NegInfinity
  | NegInfinity => PosInfinity
  end.

Definition add (a b : number) : number :=
  match a, b with
  | Finite x, Finite y => Finite (x + y)
  | NaN, _ | _, NaN => NaN
  | PosInfinity, NegInfinity | NegInfinity, PosInfinity => NaN
  | PosInfinity, _ | _, PosInfinity => PosInfinity
  | NegInfinity, _ | _, NegInfinity => NegInfinity
  end.

Definition sub (a b : number) : number := add a (neg b).

(** An infinity scaled by a finite factor. *)
Definition scale_inf (positive : bool) (r : R) : number :=
  match sign r with
  | Eq => NaN
  | Gt => if positive then PosInfinity else NegInfinity
  | Lt => if positive then NegInfinity else PosInfinity
  end.

Definition mul (a b : number) : number :=
  match a, b with
  | Finite x, Finite y => Finite (x * y)
  | NaN, _ | _, NaN => NaN
  | PosInfinity, Finite y => scale_inf true y
  | NegInfinity, Finite y => scale_inf false y
  | Finite x, PosInfinity => scale_inf true x
  | Finite x, NegInfinity => scale_inf false x
  | PosInfinity, PosInfinity | NegInfinity, NegInfinity => PosInfinity
  | PosInfinity, NegInfinity | NegInfinity, PosInfinity => NegInfinity
  end.

(** Division; the divisor zero is read as +0. *)
Definition div (a b : number) : number :=
  match a, b with
  | Finite x, Finite y =>
      match sign y with
      | Eq => scale_inf true x
      | _ => Finite (x / y)
      end
  | NaN, _ | _, NaN => NaN
  | Finite _, _ => Finite 0
  | PosInfinity, Finite y =>
      match sign y with Lt => NegInfinity | _ => PosInfinity end
  | NegInfinity, Finite y =>
      match sign y with Lt => PosInfinity | _ => NegInfinity end
  | _, _ => NaN
  end.

Definition Math_cos (a : number) : number :=
  match a with Finite x => Finite (cos x) | _ => NaN end.

Definition Math_sin (a : number) : number :=
  match a with Finite x => Finite (sin x) | _ => NaN end.

Definition Math_sqrt (a : number) : number :=
  match a with
  | Finite x => match sign x with Lt => NaN | _ => Finite (sqrt x) end
  | PosInfinity => PosInfinity
  | _ => NaN
  end.

(** [a ** 2] *)
Definition sqr (a : number) : number := mul a a.

(** [a < b] *)
Definition lt (a b : number) : bool :=
  match a, b with
  | Finite x, Finite y => if Rlt_dec x y then true else false
  | NaN, _ | _, NaN => false
  | NegInfinity, NegInfinity | PosInfinity, _ | _, NegInfinity => false
  | _, _ => true
  end.

Definition Math_PI : number := Finite PI.

(** [Math.round]: the integer nearest to the argument, halves upwards. *)
Definition Math_round (a : number) : number :=
  match a with
  | Finite x => Finite (IZR (up (x + / 2) - 1))
  | _ => a
  end.

(** [v || 0] on a number: zero and NaN are falsy. *)
Definition or_zero (n : number) : number :=
  match n with
  | NaN => Finite 0
  | Finite x => match sign x with Eq => Finite 0 | _ => n end
  | _ => n
  end.

(** ** Constants and the component table *)

Definition GRID_SIZE : number := Finite 60.
Definition CANVAS_WIDTH : number := Finite 960.
Definition CANVAS_HEIGHT : number := Finite 720.
Definition PORT_RADIUS : number := Finite 8.

Inductive port_role : Type := input | output.

Definition port_role_eqb (a b : port_role) : bool :=
  match a, b with
  | input, input | output, output => true
  | _, _ => false
  end.

Module Port.
Record t : Type := mk { id : string; x : R; y : R; type : port_role }.
End Port.

Module ComponentType.
Record t : Type := mk {
  name : string;
  color : string;
  icon : string;
  ports : list Port.t;
  width : R;
  height : R
}.
End ComponentType.

(** The object literal [COMPONENT_TYPES], its keys in the order written. *)
Definition COMPONENT_TYPES : list (string * ComponentType.t) :=
  [ ("laser",
     ComponentType.mk "Laser" "#fbbf24" "◉"
       [Port.mk "out" 30 0 output] 40 40);
    ("mirror",
     ComponentType.mk "Mirror" "#60a5fa" "|"
       [Port.mk "in" (-20) 0 input; Port.mk "out" 0 (-20) output] 40 40);
    ("beamsplitter",
     ComponentType.mk "Beam Splitter" "#a78bfa" "⊕"
       [Port.mk "in" (-25) 0 input; Port.mk "out1" 25 0 output;
        Port.mk "out2" 0 25 output; Port.mk "out3" 0 (-25) output] 50 50);
    ("lens",
     ComponentType.mk "Lens" "#34d399" "()"
       [Port.mk "in" (-30) 0 input; Port.mk "out" 30 0 output] 40 50);
    ("photodetector",
     ComponentType.mk "Photo-detector" "#f87171" "□"
       [Port.mk "in" (-20) 0 input] 40 40) ].

(** Property read [obj[key]] on an object written as a list of entries. *)
Fixpoint lookup {A : Type} (key : string) (obj : list (string * A)) : option A :=
  match obj with
  | [] => None
  | (k, v) :: rest => if String.eqb k key then Some v else lookup key rest
  end.

(** [Object.keys] *)
Definition keys {A : Type} (obj : list (string * A)) : list string :=
  map fst obj.

(** ** Components and their default properties *)

Definition properties_t : Type := list (string * scalar).

Module Component.
Record t : Type := mk {
  id : Z;
  type : string;
  x : scalar;
  y : scalar;
  angle : scalar;
  properties : properties_t
}.
End Component.

Definition getDefaultProperties (type : string) : properties_t :=
  if String.eqb type "laser" then
    [("wavelength", Num (Finite 550)); ("power", Num (Finite 1))]
  else if String.eqb type "mirror" then
    [("reflectivity", Num (Finite 0.95)); ("roc", Num (Finite 1000))]
  else if String.eqb type "beamsplitter" then
    [("reflectivity", Num (Finite 0.5)); ("transmissivity", Num (Finite 0.5))]
  else if String.eqb type "lens" then
    [("focalLength", Num (Finite 100))]
  else if String.eqb type "photodetector" then
    [("sensitivity", Num (Finite 1))]
  else [].

(** The object [addComponent] builds; [now] is the value of [Date.now()]. *)
Definition newComponent (type : string) (now : Z) : Component.t :=
  Component.mk now type (Num (Finite 120)) (Num (Finite 120)) (Num (Finite 0))
    (getDefaultProperties type).

(** ** Port geometry *)

Module WorldPos.
Record t : Type := mk { x : number; y : number; portId : string }.
End WorldPos.

(** Over the idealised numbers: the value is the one of exact arithmetic.
    [Double.getPortWorldPosition] is the same function over doubles. *)
Definition getPortWorldPosition (component : Component.t) (port : Port.t)
  : WorldPos.t :=
  let angle :=
    div (mul (ToNumber (Component.angle component)) Math_PI) (Finite 180) in
  let cos := Math_cos angle in
  let sin := Math_sin angle in
  WorldPos.mk
    (sub (add (ToNumber (Component.x component)) (mul (Finite (Port.x port)) cos))
         (mul (Finite (Port.y port)) sin))
    (add (add (ToNumber (Component.y component)) (mul (Finite (Port.x port)) sin))
         (mul (Finite (Port.y port)) cos))
    (Port.id port).

(** ** Connections and the editor state *)

Module Connection.
Record t : Type := mk {
  id : Z;
  fromComp : Z;
  fromPort : string;
  toComp : Z;
  toPort : string
}.
End Connection.

Module Dragging.
Record t : Type := mk { id : Z; offsetX : number; offsetY : number }.
End Dragging.

Module Connecting.
Record t : Type := mk {
  fromComp : Z;
  fromPort : string;
  startX : number;
  startY : number;
  currentX : number;
  currentY : number
}.
End Connecting.

Module PortInfo.
Record t : Type := mk {
  component : Component.t;
  port : Port.t;
  worldPos : WorldPos.t
}.
End PortInfo.

Module SweepConfig.
Record t : Type := mk { startFreq : scalar; stopFreq : scalar; points : scalar }.
End SweepConfig.

(** A JSON value, for what the simulation service returned ([rays],
    [simulationResult]); the editor stores and exports it unread. *)
#[warnings="-register-all"]
Inductive json : Type :=
| JNull
| JBool (b : bool)
| JNumber (r : R)
| JString (s : string)
| JArray (items : list json)
| JObject (entries : list (string * json)).

(** The [useState] cells of [OpticalDesigner]. *)
Module State.
Record t : Type := mk {
  components : list Component.t;
  connections : list Connection.t;
  selectedId : option Z;
  dragging : option Dragging.t;
  connecting : option Connecting.t;
  hoveredPort : option PortInfo.t;
  rays : list json;
  showRays : bool;
  sweepConfig : SweepConfig.t;
  simulationResult : json;
  loading : bool;
  error : option string
}.
End State.

Definition initialState : State.t :=
  State.mk [] [] None None None None [] false
    (SweepConfig.mk (Num (Finite 400)) (Num (Finite 700)) (Num (Finite 10)))
    JNull false None.

Definition setComponents (s : State.t) (v : list Component.t) : State.t :=
  State.mk v (State.connections s) (State.selectedId s) (State.dragging s)
    (State.connecting s) (State.hoveredPort s) (State.rays s) (State.showRays s)
    (State.sweepConfig s) (State.simulationResult s) (State.loading s)
    (State.error s).

Definition setConnections (s : State.t) (v : list Connection.t) : State.t :=
  State.mk (State.components s) v (State.selectedId s) (State.dragging s)
    (State.connecting s) (State.hoveredPort s) (State.rays s) (State.showRays s)
    (State.sweepConfig s) (State.simulationResult s) (State.loading s)
    (State.error s).

Definition setSelectedId (s : State.t) (v : option Z) : State.t :=
  State.mk (State.components s) (State.connections s) v (State.dragging s)
    (State.connecting s) (State.hoveredPort s) (State.rays s) (State.showRays s)
    (State.sweepConfig s) (State.simulationResult s) (State.loading s)
    (State.error s).

Definition setDragging (s : State.t) (v : option Dragging.t) : State.t :=
  State.mk (State.components s) (State.connections s) (State.selectedId s) v
    (State.connecting s) (State.hoveredPort s) (State.rays s) (State.showRays s)
    (State.sweepConfig s) (State.simulationResult s) (State.loading s)
    (State.error s).

Definition setConnecting (s : State.t) (v : option Connecting.t) : State.t :=
  State.mk (State.components s) (State.connections s) (State.selectedId s)
    (State.dragging s) v (State.hoveredPort s) (State.rays s) (State.showRays s)
    (State.sweepConfig s) (State.simulationResult s) (State.loading s)
    (State.error s).

Definition setHoveredPort (s : State.t) (v : option PortInfo.t) : State.t :=
  State.mk (State.components s) (State.connections s) (State.selectedId s)
    (State.dragging s) (State.connecting s) v (State.rays s) (State.showRays s)
    (State.sweepConfig s) (State.simulationResult s) (State.loading s)
    (State.error s).

Definition setSweepConfig (s : State.t) (v : SweepConfig.t) : State.t :=
  State.mk (State.components s) (State.connections s) (State.selectedId s)
    (State.dragging s) (State.connecting s) (State.hoveredPort s) (State.rays s)
    (State.showRays s) v (State.simulationResult s) (State.loading s)
    (State.error s).

Definition setError (s : State.t) (v : option string) : State.t :=
  State.mk (State.components s) (State.connections s) (State.selectedId s)
    (State.dragging s) (State.connecting s) (State.hoveredPort s) (State.rays s)
    (State.showRays s) (State.sweepConfig s) (State.simulationResult s)
    (State.loading s) v.

(** ** Editing operations *)

Definition addComponent (s : State.t) (type : string) (now : Z) : State.t :=
  setComponents s (State.components s ++ [newComponent type now]).

Definition deleteComponent (s : State.t) (id : Z) : State.t :=
  let s1 :=
    setComponents s
      (filter (fun c => negb (Component.id c =? id)%Z) (State.components s)) in
  let s2 :=
    setConnections s1
      (filter (fun c => negb (Connection.fromComp c =? id)%Z
                        && negb (Connection.toComp c =? id)%Z)
              (State.connections s)) in
  match State.selectedId s with
  | Some sel => if (sel =? id)%Z then setSelectedId s2 None else s2
  | None => s2
  end.

(** The [updates] objects the call sites of [updateComponent] pass:
    [{x, y}], [{x}], [{y}] or [{angle}]. *)
Module Updates.
Record t : Type := mk {
  x : option scalar;
  y : option scalar;
  angle : option scalar
}.
End Updates.

Definition or_else {A : Type} (o : option A) (d : A) : A :=
  match o with Some v => v | None => d end.

(** [{ ...c, ...updates }] *)
Definition spread (c : Component.t) (updates : Updates.t) : Component.t :=
  Component.mk (Component.id c) (Component.type c)
    (or_else (Updates.x updates) (Component.x c))
    (or_else (Updates.y updates) (Component.y c))
    (or_else (Updates.angle updates) (Component.angle c))
    (Component.properties c).

Definition updateComponent (s : State.t) (id : Z) (updates : Updates.t)
  : State.t :=
  setComponents s
    (map (fun c => if (Component.id c =? id)%Z then spread c updates else c)
         (State.components s)).

(** [{ ...obj, [key]: v }]: an existing key keeps its place. *)
Fixpoint obj_set {A : Type} (key : string) (v : A) (obj : list (string * A))
  : list (string * A) :=
  match obj with
  | [] => [(key, v)]
  | (k, w) :: rest =>
      if String.eqb k key then (k, v) :: rest else (k, w) :: obj_set key v rest
  end.

(** [parsed] is what [parseFloat(value)] returned. *)
Definition updateProperty (s : State.t) (id : Z) (property : string)
  (parsed : number) : State.t :=
  setComponents s
    (map (fun c =>
            if (Component.id c =? id)%Z then
              Component.mk (Component.id c) (Component.type c) (Component.x c)
                (Component.y c) (Component.angle c)
                (obj_set property (Num (or_zero parsed)) (Component.properties c))
            else c)
         (State.components s)).

Definition deleteConnection (s : State.t) (connId : Z) : State.t :=
  setConnections s
    (filter (fun c => negb (Connection.id c =? connId)%Z) (State.connections s)).

(** ** Port hit-testing *)

(** A handler either finishes or stops at a [TypeError] (a property read on
    [undefined]). *)
Inductive result (A : Type) : Type :=
| Ok (a : A)
| TypeError.
Arguments Ok {A} a.
Arguments TypeError {A}.

(** Euclidean distance as the source computes it. *)
Definition distance (x y px py : number) : number :=
  Math_sqrt (add (sqr (sub x px)) (sqr (sub y py))).

(** The inner loop of [findPortAtPosition], over the ports of one component.
    The distance and its comparison are those of exact arithmetic; where a
    port is at the very distance [PORT_RADIUS * 2], up to rounding, the
    doubles of the code can decide the other way. *)
Fixpoint findPortOf (comp : Component.t) (ports : list Port.t) (x y : number)
  : option PortInfo.t :=
  match ports with
  | [] => None
  | port :: rest =>
      let worldPos := getPortWorldPosition comp port in
      let dist := distance x y (WorldPos.x worldPos) (WorldPos.y worldPos) in
      if lt dist (mul PORT_RADIUS (Finite 2))
      then Some (PortInfo.mk comp port worldPos)
      else findPortOf comp rest x y
  end.

Fixpoint findPortAtPosition (components : list Component.t) (x y : number)
  : result (option PortInfo.t) :=
  match components with
  | [] => Ok None
  | comp :: rest =>
      match lookup (Component.type comp) COMPONENT_TYPES with
      | None => TypeError
      | Some compType =>
          match findPortOf comp (ComponentType.ports compType) x y with
          | Some info => Ok (Some info)
          | None => findPortAtPosition rest x y
          end
      end
  end.

(** ** Mouse handlers.  [x], [y] are [e.clientX - rect.left] and
    [e.clientY - rect.top]. *)

Definition handleMouseDown (s : State.t) (button : Z) (x y : number) (id : Z)
  : State.t :=
  if negb (button =? 0)%Z then s else
  match findPortAtPosition (State.components s) x y with
  | TypeError => s
  | Ok (Some portInfo) =>
      match Port.type (PortInfo.port portInfo) with
      | output =>
          setConnecting s
            (Some (Connecting.mk
                     (Component.id (PortInfo.component portInfo))
                     (Port.id (PortInfo.port portInfo))
                     (WorldPos.x (PortInfo.worldPos portInfo))
                     (WorldPos.y (PortInfo.worldPos portInfo))
                     x y))
      | input => s
      end
  | Ok None =>
      let s1 := setSelectedId s (Some id) in
      match find (fun c => (Component.id c =? id)%Z) (State.components s) with
      | Some component =>
          setDragging s1
            (Some (Dragging.mk id
                     (sub x (ToNumber (Component.x component)))
                     (sub y (ToNumber (Component.y component)))))
      | None => s1
      end
  end.

(** The canvas's own [onMouseDown]: the component within 30 pixels, if any. *)
Definition canvasMouseDown (s : State.t) (button : Z) (x y : number) : State.t :=
  match
    find (fun c =>
            lt (distance x y (ToNumber (Component.x c)) (ToNumber (Component.y c)))
               (Finite 30))
         (State.components s)
  with
  | Some clicked => handleMouseDown s button x y (Component.id clicked)
  | None => setSelectedId s None
  end.

Definition handleMouseMove (s : State.t) (x y : number) : State.t :=
  match findPortAtPosition (State.components s) x y with
  | TypeError => s
  | Ok portInfo =>
      let s1 := setHoveredPort s portInfo in
      match State.connecting s, State.dragging s with
      | Some connecting, _ =>
          setConnecting s1
            (Some (Connecting.mk (Connecting.fromComp connecting)
                     (Connecting.fromPort connecting)
                     (Connecting.startX connecting)
                     (Connecting.startY connecting) x y))
      | None, Some dragging =>
          let newX :=
            mul (Math_round (div (sub x (Dragging.offsetX dragging)) GRID_SIZE))
                GRID_SIZE in
          let newY :=
            mul (Math_round (div (sub y (Dragging.offsetY dragging)) GRID_SIZE))
                GRID_SIZE in
          updateComponent s1 (Dragging.id dragging)
            (Updates.mk (Some (Num newX)) (Some (Num newY)) None)
      | None, None => s1
      end
  end.

Definition same_ends (a b : Connection.t) : bool :=
  (Connection.fromComp a =? Connection.fromComp b)%Z
  && String.eqb (Connection.fromPort a) (Connection.fromPort b)
  && (Connection.toComp a =? Connection.toComp b)%Z
  && String.eqb (Connection.toPort a) (Connection.toPort b).

Definition handleMouseUp (s : State.t) (x y : number) (now : Z) : State.t :=
  match State.connecting s with
  | Some connecting =>
      match findPortAtPosition (State.components s) x y with
      | TypeError => s
      | Ok portInfo =>
          let s1 :=
            match portInfo with
            | Some info =>
                match Port.type (PortInfo.port info) with
                | input =>
                    let newConnection :=
                      Connection.mk now
                        (Connecting.fromComp connecting)
                        (Connecting.fromPort connecting)
                        (Component.id (PortInfo.component info))
                        (Port.id (PortInfo.port info)) in
                    let exists_ :=
                      existsb (fun c => same_ends c newConnection)
                              (State.connections s) in
                    if exists_ then s
                    else setConnections s (State.connections s ++ [newConnection])
                | output => s
                end
            | None => s
            end in
          setDragging (setConnecting s1 None) None
      end
  | None => setDragging s None
  end.

(** ** The exported document *)

Module Position.
Record t : Type := mk { x : scalar; y : scalar }.
End Position.

Module SetupComponent.
Record t : Type := mk {
  id : Z;
  type : string;
  position : Position.t;
  rotation : scalar;
  properties : properties_t
}.
End SetupComponent.

Module Endpoint.
Record t : Type := mk { componentId : Z; port : string }.
End Endpoint.

Module SetupConnection.
Record t : Type := mk { id : Z; from : Endpoint.t; to : Endpoint.t }.
End SetupConnection.

Module Simulation.
Record t : Type := mk { sweepConfig : SweepConfig.t; rays : list json }.
End Simulation.

(** The [setup] object.  [connections] and [simulation] are the two members
    [importJSON] tests before reading. *)
Module Setup.
Record t : Type := mk {
  version : string;
  timestamp : string;
  components : list SetupComponent.t;
  connections : option (list SetupConnection.t);
  simulation : option Simulation.t;
  results : json
}.
End Setup.

(** A number through [JSON.stringify] and back through [JSON.parse]: a
    finite number is read back as written, NaN and the infinities are
    written as [null]. *)
Definition json_number (v : scalar) : scalar :=
  match v with
  | Num (Finite r) => Num (Finite r)
  | _ => Null
  end.

Definition json_properties (p : properties_t) : properties_t :=
  map (fun kv => (fst kv, json_number (snd kv))) p.

Definition json_component (c : SetupComponent.t) : SetupComponent.t :=
  SetupComponent.mk (SetupComponent.id c) (SetupComponent.type c)
    (Position.mk (json_number (Position.x (SetupComponent.position c)))
                 (json_number (Position.y (SetupComponent.position c))))
    (json_number (SetupComponent.rotation c))
    (json_properties (SetupComponent.properties c)).

Definition json_sweepConfig (c : SweepConfig.t) : SweepConfig.t :=
  SweepConfig.mk (json_number (SweepConfig.startFreq c))
    (json_number (SweepConfig.stopFreq c)) (json_number (SweepConfig.points c)).

(** [JSON.stringify(setup, null, 2)], given as the document [JSON.parse]
    reads from the text it writes: integers, strings, arrays, objects and
    the stored JSON values come back as they were, numbers go through
    [json_number]. *)
Definition JSON_stringify (setup : Setup.t) : Setup.t :=
  Setup.mk (Setup.version setup) (Setup.timestamp setup)
    (map json_component (Setup.components setup))
    (Setup.connections setup)
    (option_map
       (fun sim => Simulation.mk (json_sweepConfig (Simulation.sweepConfig sim))
                                 (Simulation.rays sim))
       (Setup.simulation setup))
    (Setup.results setup).

(** [exportJSON]: the content of the downloaded file; [timestamp] is
    [new Date().toISOString()]. *)
Definition exportJSON (s : State.t) (timestamp : string) : Setup.t :=
  let setup :=
    Setup.mk "1.0" timestamp
      (map (fun c =>
              SetupComponent.mk (Component.id c) (Component.type c)
                (Position.mk (Component.x c) (Component.y c))
                (Component.angle c) (Component.properties c))
           (State.components s))
      (Some
         (map (fun c =>
                 SetupConnection.mk (Connection.id c)
                   (Endpoint.mk (Connection.fromComp c) (Connection.fromPort c))
                   (Endpoint.mk (Connection.toComp c) (Connection.toPort c)))
              (State.connections s)))
      (Some (Simulation.mk (State.sweepConfig s)
               (if State.showRays s then State.rays s else [])))
      (State.simulationResult s) in
  JSON_stringify setup.

(** What the chosen file holds, by how far the handler's [try] gets with
    it: text [JSON.parse] rejects, or a document whose [components] cannot
    be read (the [catch] runs before any setter was called); a document
    whose components are read but whose [connections] member, though
    there, cannot be read, as with an entry without [from] (the [catch]
    runs after [setComponents]); or a setup document read to the end, its
    members of the types [exportJSON] writes. *)
Inductive file_content : Type :=
| NotASetup
| BadConnections (components : list SetupComponent.t)
| Document (setup : Setup.t).

(** [importJSON]; [file] is [event.target.files[0]]. *)
Definition importJSON (s : State.t) (file : option file_content) : State.t :=
  match file with
  | None => s
  | Some NotASetup => setError s (Some "Invalid JSON file")
  | Some (BadConnections components) =>
      setError
        (setComponents s
           (map (fun c =>
                   Component.mk (SetupComponent.id c) (SetupComponent.type c)
                     (Position.x (SetupComponent.position c))
                     (Position.y (SetupComponent.position c))
                     (SetupComponent.rotation c) (SetupComponent.properties c))
                components))
        (Some "Invalid JSON file")
  | Some (Document setup) =>
      let s1 :=
        setComponents s
          (map (fun c =>
                  Component.mk (SetupComponent.id c) (SetupComponent.type c)
                    (Position.x (SetupComponent.position c))
                    (Position.y (SetupComponent.position c))
                    (SetupComponent.rotation c) (SetupComponent.properties c))
               (Setup.components setup)) in
      let s2 :=
        match Setup.connections setup with
        | Some connections =>
            setConnections s1
              (map (fun c =>
                      Connection.mk (SetupConnection.id c)
                        (Endpoint.componentId (SetupConnection.from c))
                        (Endpoint.port (SetupConnection.from c))
                        (Endpoint.componentId (SetupConnection.to c))
                        (Endpoint.port (SetupConnection.to c)))
                   connections)
        | None => s1
        end in
      match Setup.simulation setup with
      | Some simulation => setSweepConfig s2 (Simulation.sweepConfig simulation)
      | None => s2
      end
  end.

End App.

(** * The port geometry in IEEE doubles

    [App] reads the editor's arithmetic over the real numbers: exact, with
    no rounding and no overflow.  A JavaScript number is an IEEE 754
    double; this module gives the lines of [getPortWorldPosition] once more
    over the doubles themselves, each operator the correctly rounded one,
    for the properties that depend on the difference. *)

Module Double.

Import Floats.
Local Open Scope string_scope.
Local Open Scope list_scope.
Local Open Scope float_scope.

(** [Math.PI], the double nearest to pi: 3.141592653589793. *)
Definition Math_PI : float := 0x1.921fb54442d18p+1.

Module Port.
Record t : Type := mk { id : string; x : float; y : float; type : App.port_role }.
End Port.

(** The ports of the object literal [COMPONENT_TYPES], by key. *)
Definition COMPONENT_TYPES : list (string * list Port.t) :=
  [ ("laser", [Port.mk "out" 30 0 App.output]);
    ("mirror",
     [Port.mk "in" (-20) 0 App.input; Port.mk "out" 0 (-20) App.output]);
    ("beamsplitter",
     [Port.mk "in" (-25) 0 App.input; Port.mk "out1" 25 0 App.output;
      Port.mk "out2" 0 25 App.output; Port.mk "out3" 0 (-25) App.output]);
    ("lens", [Port.mk "in" (-30) 0 App.input; Port.mk "out" 30 0 App.output]);
    ("photodetector", [Port.mk "in" (-20) 0 App.input]) ].

(** The fields of a component that [getPortWorldPosition] reads. *)
Module Component.
Record t : Type := mk { x : float; y : float; angle : float }.
End Component.

Module WorldPos.
Record t : Type := mk { x : float; y : float; portId : string }.
End WorldPos.

Section Libm.

(** ECMAScript leaves [Math.cos] and [Math.sin] implementation-approximated
    and fixes their value at NaN, the infinities and the zeros only; what
    the engine's library returns elsewhere is a parameter. *)
Variable cos_impl : float -> float.
Variable sin_impl : float -> float.

Definition Math_cos (a : float) : float :=
  match Prim2SF a with
  | S754_nan | S754_infinity _ => nan
  | S754_zero _ => 1
  | S754_finite _ _ _ => cos_impl a
  end.

Definition Math_sin (a : float) : float :=
  match Prim2SF a with
  | S754_nan | S754_infinity _ => nan
  | S754_zero _ => a
  | S754_finite _ _ _ => sin_impl a
  end.

Definition getPortWorldPosition (component : Component.t) (port : Port.t)
  : WorldPos.t :=
  let angle := (Component.angle component * Math_PI) / 180 in
  let cos := Math_cos angle in
  let sin := Math_sin angle in
  WorldPos.mk
    (Component.x component + Port.x port * cos - Port.y port * sin)
    (Component.y component + Port.x port * sin + Port.y port * cos)
    (Port.id port).

End Libm.


End Double.

(** * The ray-tracing engine

    The engine (backend/main.py) is not among the repository's files under
    [src/]; every definition of this module follows the specification. *)

Module Engine.

Local Open Scope string_scope.
Local Open Scope list_scope.
Local Open Scope Q_scope.

(** Modelled from the spec: the data model of section 3 (the engine's source
    is missing).  A 2-D point or vector. *)
Definition Point : Type := (Q * Q)%type.

(** Modelled from the spec: the component kinds of section 3. *)
Inductive Kind : Type := source | mirror | beamsplitter | lens | detector.

(** Modelled from the spec: a component of section 3; [properties] is the
    kind-specific mapping of named floats. *)
Record Component : Type := mkComponent {
  id : Z;
  kind : Kind;
  position : Point;
  rotationDeg : Q;
  properties : list (string * Q)
}.

(** Modelled from the spec: the directed edge of section 3. *)
Record Connection : Type := mkConnection {
  fromComponentId : Z;
  fromPortId : string;
  toComponentId : Z;
  toPortId : string
}.

(** Modelled from the spec: the graph of section 3, components and
    connections. *)
Record Graph : Type := mkGraph {
  components : list Component;
  connections : list Connection
}.

(** Modelled from the spec: the termination reasons of sections 4.3 and 4.4. *)
Inductive Reason : Type :=
| reasonMaxBounces
| reasonAttenuated
| reasonAbsorbed
| reasonOpenEnd
| reasonDegenerate.

(** Modelled from the spec: the ray of section 3. *)
Record Ray : Type := mkRay {
  originComponentId : Z;
  wavelengthNm : Q;
  intensity : Q;
  path : list Point;
  bounceCount : nat;
  terminated : bool;
  terminationReason : option Reason
}.

(** Modelled from the spec: the outgoing ray description of section 4.3. *)
Record OutgoingRaySpec : Type := mkSpec {
  exitPortId : string;
  direction : Point;
  intensityFactor : Q;
  specWavelengthNm : Q
}.

(** Modelled from the spec: what sections 4.2 to 4.4 fix only by name or by
    default.  The two numeric defaults, the ports the spec leaves unnamed,
    the Fresnel-style loss term, the lens's fixed transmission loss, the
    size of the source's cone, and the geometry resolver with the distance
    it induces. *)
Record Params : Type := mkParams {
  maxBounces : nat;
  epsilon : Q;
  sourcePort : string;
  lensPort : string;
  reflectedPort : string;
  transmittedPort : string;
  coneRays : nat;
  fresnel : Component -> Ray -> Q;
  lensLoss : Q;
  worldPosition : Component -> string -> Point;
  exitDirection : Component -> Ray -> string -> Point;
  distance : Point -> Point -> Q
}.

(** Modelled from the spec: a property of a component, by name (a validated
    component has every property its kind requires). *)
Fixpoint getProperty (name : string) (props : list (string * Q)) : Q :=
  match props with
  | [] => 0
  | (k, v) :: rest => if String.eqb k name then v else getProperty name rest
  end.

(** Modelled from the spec: the named property of a component. *)
Definition prop (c : Component) (name : string) : Q :=
  getProperty name (properties c).

(** Modelled from the spec: the strict comparison the engine's thresholds
    use (exceeds, falls below). *)
Definition Qltb (a b : Q) : bool := negb (Qle_bool b a).

(** Modelled from the spec: the beam splitter's two factors (section 4.3):
    when their sum exceeds 1 it is clamped to 1 and both are renormalised
    proportionally. *)
Definition splitFactors (reflectivity transmissivity : Q) : Q * Q :=
  let total := reflectivity + transmissivity in
  if Qltb 1 total
  then (reflectivity / total, transmissivity / total)
  else (reflectivity, transmissivity).

(** Modelled from the spec: [interact] of section 4.3. *)
Definition interact (P : Params) (c : Component) (incoming : Ray)
  : list OutgoingRaySpec :=
  match kind c with
  | source => []
  | mirror =>
      [ mkSpec "out" (exitDirection P c incoming "out")
          (prop c "reflectivity" * fresnel P c incoming)
          (wavelengthNm incoming) ]
  | beamsplitter =>
      let (r, t) := splitFactors (prop c "reflectivity") (prop c "transmissivity") in
      [ mkSpec (reflectedPort P) (exitDirection P c incoming (reflectedPort P))
          r (wavelengthNm incoming);
        mkSpec (transmittedPort P) (exitDirection P c incoming (transmittedPort P))
          t (wavelengthNm incoming) ]
  | lens =>
      [ mkSpec (lensPort P) (exitDirection P c incoming (lensPort P))
          (1 - lensLoss P) (wavelengthNm incoming) ]
  | detector => []
  end.

(** Modelled from the spec: an entry of the tracer's work queue
    (section 4.4). *)
Record Item : Type := mkItem {
  ray : Ray;
  currentComponentId : Z;
  currentPortId : string
}.

(** Modelled from the spec: what one trace accumulates: the terminated rays,
    the detector readings and the warnings. *)
Record TraceResult : Type := mkTraceResult {
  rays : list Ray;
  readings : list (Z * Q);
  warnings : list string
}.

(** Modelled from the spec: the result before any ray has ended. *)
Definition emptyResult : TraceResult := mkTraceResult [] [] [].

(** Modelled from the spec: a ray marked terminated, with its reason
    (sections 4.3 and 4.4). *)
Definition terminate (r : Ray) (why : Reason) : Ray :=
  mkRay (originComponentId r) (wavelengthNm r) (intensity r) (path r)
    (bounceCount r) true (Some why).

(** Modelled from the spec: a component of the graph by its id. *)
Definition findComponent (g : Graph) (cid : Z) : option Component :=
  find (fun c => (id c =? cid)%Z) (components g).

(** Modelled from the spec: the connections leaving a port. *)
Definition outgoing (g : Graph) (cid : Z) (pid : string) : list Connection :=
  filter (fun e => (fromComponentId e =? cid)%Z && String.eqb (fromPortId e) pid)
         (connections g).

(** Modelled from the spec: a zero-length direction vector, the degeneracy
    of section 4.4. *)
Definition isZeroVector (v : Point) : bool :=
  Qeq_bool (fst v) 0 && Qeq_bool (snd v) 0.

(** Modelled from the spec: the continuation of [r] through one outgoing
    description of [dest] (section 4.4): the path gains a point, the bounce
    count grows by one, the intensity is multiplied by the factor. *)
Definition continuation (P : Params) (dest : Component) (r : Ray)
  (o : OutgoingRaySpec) : Ray :=
  mkRay (originComponentId r) (specWavelengthNm o)
    (intensity r * intensityFactor o)
    (path r ++ [worldPosition P dest (exitPortId o)])
    (S (bounceCount r)) false None.

(** Modelled from the spec: the continuations of [r] through the outgoing
    descriptions of [dest] (section 4.4), each queued at its exit port; one
    with a zero-length direction ends at once as degenerate, with a warning
    (failure semantics of section 4.4). *)
Definition followSpecs (P : Params) (dest : Component) (r : Ray)
  (specs : list OutgoingRaySpec) : TraceResult * list Item :=
  fold_right
    (fun o acc =>
       let next := continuation P dest r o in
       if isZeroVector (direction o)
       then (mkTraceResult (terminate next reasonDegenerate :: rays (fst acc))
               (readings (fst acc))
               ("degenerate ray" :: warnings (fst acc)),
             snd acc)
       else (fst acc, mkItem next (id dest) (exitPortId o) :: snd acc))
    (emptyResult, []) specs.

(** Modelled from the spec: a ray following one connection (section 4.4):
    absorbed at a detector, which records the reading intensity times
    sensitivity under its id, and continued through every outgoing
    description otherwise.  The bounce cap is applied where the count would
    be incremented: a ray whose continuation would have more bounces than
    the maximum ends here with reason maxBounces, so that no ray is created
    with a bounce count above the maximum (section 8).  A connection to a
    component the graph does not have, or to a source (which is no
    interaction target, section 4.3), leads nowhere: the ray ends as an open
    end, its reason recorded (section 7); the validator rejects such
    graphs. *)
Definition follow (P : Params) (g : Graph) (r : Ray) (e : Connection)
  : TraceResult * list Item :=
  match findComponent g (toComponentId e) with
  | None => (mkTraceResult [terminate r reasonOpenEnd] [] [], [])
  | Some dest =>
      match kind dest with
      | detector =>
          let hit :=
            mkRay (originComponentId r) (wavelengthNm r) (intensity r)
              (path r ++ [worldPosition P dest (toPortId e)])
              (bounceCount r) true (Some reasonAbsorbed) in
          (mkTraceResult [hit] [(id dest, intensity r * prop dest "sensitivity")] [],
           [])
      | source => (mkTraceResult [terminate r reasonOpenEnd] [] [], [])
      | _ =>
          if (maxBounces P <? S (bounceCount r))%nat
          then (mkTraceResult [terminate r reasonMaxBounces] [] [], [])
          else followSpecs P dest r (interact P dest r)
      end
  end.

(** Modelled from the spec: two partial results put together, in order. *)
Definition merge (a b : TraceResult) : TraceResult :=
  mkTraceResult (rays a ++ rays b) (readings a ++ readings b)
    (warnings a ++ warnings b).

(** Modelled from the spec: a ray following each of the connections of its
    port, each connection independently (section 3, fan-out). *)
Definition followAll (P : Params) (g : Graph) (r : Ray) (es : list Connection)
  : TraceResult * list Item :=
  fold_right
    (fun e acc =>
       let out := follow P g r e in
       (merge (fst out) (fst acc), snd out ++ snd acc))
    (emptyResult, []) es.

(** Modelled from the spec: one queued ray (section 4.4), the termination
    policy in its order: bounce cap, epsilon, then the connections of the
    port (none: open end).  With the cap applied in [follow] before a
    continuation is created, no queued ray is above the cap; the test is
    kept here as the policy lists it. *)
Definition process (P : Params) (g : Graph) (it : Item)
  : TraceResult * list Item :=
  let r := ray it in
  if (maxBounces P <? bounceCount r)%nat then
    (mkTraceResult [terminate r reasonMaxBounces] [] [], [])
  else if Qltb (intensity r) (epsilon P) then
    (mkTraceResult [terminate r reasonAttenuated] [] [], [])
  else
    match outgoing g (currentComponentId it) (currentPortId it) with
    | [] => (mkTraceResult [terminate r reasonOpenEnd] [] [], [])
    | es => followAll P g r es
    end.

(** Modelled from the spec: the FIFO work queue; [fuel] bounds the number of
    queue entries processed, [None] means it ran out. *)
Fixpoint run (P : Params) (g : Graph) (fuel : nat) (queue : list Item)
  (acc : TraceResult) : option TraceResult :=
  match queue with
  | [] => Some acc
  | it :: rest =>
      match fuel with
      | O => None
      | S fuel' =>
          let out := process P g it in
          run P g fuel' (rest ++ snd out) (merge acc (fst out))
      end
  end.

(** Modelled from the spec: the rays a source emits (section 4.3): the
    primary beam and the cone, each with intensity [power]. *)
Definition seedsOf (P : Params) (wavelengthOverride : option Q) (c : Component)
  : list Item :=
  let w :=
    match wavelengthOverride with
    | Some w => w
    | None => prop c "wavelengthNm"
    end in
  repeat
    (mkItem
       (mkRay (id c) w (prop c "power") [worldPosition P c (sourcePort P)]
          O false None)
       (id c) (sourcePort P))
    (S (coneRays P)).

(** Modelled from the spec: the components a trace starts from
    (section 4.4). *)
Definition isSource (c : Component) : bool :=
  match kind c with source => true | _ => false end.

(** Modelled from the spec: the initial work queue, the seeds of every
    source (section 4.4). *)
Definition seeds (P : Params) (g : Graph) (wavelengthOverride : option Q)
  : list Item :=
  flat_map (seedsOf P wavelengthOverride) (filter isSource (components g)).

(** Modelled from the spec: [trace] of section 4.4. *)
Definition trace (P : Params) (g : Graph) (wavelengthOverride : option Q)
  (fuel : nat) : option TraceResult :=
  run P g fuel (seeds P g wavelengthOverride) emptyResult.

(** Modelled from the spec: a value within [0,1] (section 4.1). *)
Definition inUnit (q : Q) : bool := Qle_bool 0 q && Qle_bool q 1.

(** Modelled from the spec: the validator's range check on one component
    (section 4.1): reflectivity, transmissivity and sensitivity in [0,1],
    focal length not zero, power not negative. *)
Definition propertiesOk (c : Component) : bool :=
  match kind c with
  | source => Qle_bool 0 (prop c "power")
  | mirror => inUnit (prop c "reflectivity")
  | beamsplitter =>
      inUnit (prop c "reflectivity") && inUnit (prop c "transmissivity")
  | lens => negb (Qeq_bool (prop c "focalLength") 0)
  | detector => inUnit (prop c "sensitivity")
  end.

(** Modelled from the spec: the range check of section 4.1 over a graph. *)
Definition validProperties (g : Graph) : bool :=
  forallb propertiesOk (components g).

(** Modelled from the spec: the sweep configuration and the wavelengths it
    samples (section 4.5): [points] values linearly spaced over
    [[startNm, stopNm]], both ends included from two points on, the midpoint
    for a single point. *)
Record SweepConfig : Type := mkSweepConfig {
  startNm : Q;
  stopNm : Q;
  points : nat
}.

(** Modelled from the spec: a count as a number. *)
Definition ofNat (n : nat) : Q := inject_Z (Z.of_nat n).

(** Modelled from the spec: the sampled wavelengths of section 4.5. *)
Definition sampleWavelengths (config : SweepConfig) : list Q :=
  match points config with
  | O => []
  | S O => [(startNm config + stopNm config) / 2]
  | S n =>
      map (fun i =>
             startNm config
             + ofNat i * ((stopNm config - startNm config) / ofNat n))
          (seq 0 (S n))
  end.

(** Modelled from the spec: one entry of the sweep's result
    (sections 3 and 4.5). *)
Record SweepEntry : Type := mkSweepEntry {
  sweepWavelengthNm : Q;
  perDetectorIntensity : list (Z * Q)
}.

(** Modelled from the spec: [sweep] of section 4.5, one independent trace per
    sampled wavelength, that wavelength overriding every source's. *)
Fixpoint sweepOver (P : Params) (g : Graph) (fuel : nat) (ws : list Q)
  : option (list SweepEntry) :=
  match ws with
  | [] => Some []
  | w :: rest =>
      match trace P g (Some w) fuel, sweepOver P g fuel rest with
      | Some res, Some entries => Some (mkSweepEntry w (readings res) :: entries)
      | _, _ => None
      end
  end.

(** Modelled from the spec: [sweep] of section 4.5 over the sampled
    wavelengths. *)
Definition sweep (P : Params) (g : Graph) (config : SweepConfig) (fuel : nat)
  : option (list SweepEntry) :=
  sweepOver P g fuel (sampleWavelengths config).

(** Modelled from the spec: the statistics of section 4.6. *)
Record Statistics : Type := mkStatistics {
  totalRays : nat;
  totalPathLength : Q;
  averageIntensity : Q;
  totalInteractions : nat
}.

(** Modelled from the spec: the length of a path, the sum of the distances
    between consecutive points (section 4.6). *)
Fixpoint pathLength (P : Params) (pts : list Point) : Q :=
  match pts with
  | a :: ((b :: _) as rest) => distance P a b + pathLength P rest
  | _ => 0
  end.

(** Modelled from the spec: the sum of a sequence of numbers. *)
Definition Qsum (xs : list Q) : Q := fold_right Qplus 0 xs.

(** Modelled from the spec: a ray that ended on a detector (reason
    absorbed). *)
Definition isAbsorbed (r : Ray) : bool :=
  match terminationReason r with
  | Some reasonAbsorbed => true
  | _ => false
  end.

(** Modelled from the spec: division by a count (section 4.6); [None] is
    the division fault. *)
Definition divide (a : Q) (n : nat) : option Q :=
  match n with
  | O => None
  | S _ => Some (a / ofNat n)
  end.

(** Modelled from the spec: the warning of section 4.6; its wording is not
    fixed there. *)
Definition noAbsorbedWarning : string :=
  "no absorbed rays: averageIntensity reported as 0".

(** Modelled from the spec: [aggregate] of section 4.6; [None] would be a
    fault. *)
Definition aggregate (P : Params) (allRays : list Ray)
  : option (Statistics * list string) :=
  let absorbed := filter isAbsorbed allRays in
  let stats avg :=
    mkStatistics (List.length (filter terminated allRays))
      (Qsum (map (fun r => pathLength P (path r)) allRays))
      avg
      (fold_right Nat.add O (map bounceCount allRays)) in
  match absorbed with
  | [] => Some (stats 0, [noAbsorbedWarning])
  | _ =>
      match divide (Qsum (map intensity absorbed)) (List.length absorbed) with
      | Some avg => Some (stats avg, [])
      | None => None
      end
  end.

End Engine.

(** * Notions used to state the properties of the editor *)

Section EditorGeometryNotions.

Local Open Scope R_scope.





End EditorGeometryNotions.

Section EditorGeometryDoublesNotions.

Import Floats.
Local Open Scope R_scope.




End EditorGeometryDoublesNotions.

Section EditorKindsNotions.

Local Open Scope string_scope.
Local Open Scope list_scope.

(** The kind names of the specification's data model. *)
Definition specKinds : list string :=
  ["source"; "mirror"; "beamsplitter"; "lens"; "detector"].

(** The kind names the editor is written with. *)
Definition editorKinds : list string :=
  ["laser"; "mirror"; "beamsplitter"; "lens"; "photodetector"].

(** The specification's required property names per kind. *)
Definition specRequiredProperties : list (string * list string) :=
  [ ("source", ["wavelengthNm"; "power"]);
    ("mirror", ["reflectivity"; "radiusOfCurvature"]);
    ("beamsplitter", ["reflectivity"; "transmissivity"]);
    ("lens", ["focalLength"]);
    ("detector", ["sensitivity"]) ].

(** The property names the editor gives a new component, per kind. *)
Definition editorProperties : list (string * list string) :=
  [ ("laser", ["wavelength"; "power"]);
    ("mirror", ["reflectivity"; "roc"]);
    ("beamsplitter", ["reflectivity"; "transmissivity"]);
    ("lens", ["focalLength"]);
    ("photodetector", ["sensitivity"]) ].

(** A kind the editor recognises: a key of [COMPONENT_TYPES]. *)
Definition recognised (k : string) : Prop :=
  exists info, App.lookup k App.COMPONENT_TYPES = Some info.

(** The component [addComponent] appends. *)
Definition added (s : App.State.t) (type : string) (now : Z)
  : option App.Component.t :=
  last (map Some (App.State.components (App.addComponent s type now))) None.

End EditorKindsNotions.

Section EditorDeletionNotions.

Local Open Scope string_scope.
Local Open Scope list_scope.

(** Every connection's two ends name components of the component list. *)
Definition referencesPresent (s : App.State.t) : Prop :=
  forall conn,
    In conn (App.State.connections s) ->
    (exists c, In c (App.State.components s)
               /\ App.Component.id c = App.Connection.fromComp conn)
    /\ (exists c, In c (App.State.components s)
                  /\ App.Component.id c = App.Connection.toComp conn).

(** A laser (id 1), a photodetector (id 2) and a mirror (id 3), the laser
    connected to both others. *)
Definition threeComponents : App.State.t :=
  App.setConnections
    (App.addComponent
       (App.addComponent (App.addComponent App.initialState "laser" 1)
          "photodetector" 2)
       "mirror" 3)
    [ App.Connection.mk 10 1 "out" 2 "in"; App.Connection.mk 11 1 "out" 3 "in" ].

End EditorDeletionNotions.

Section EditorRoundTripNotions.

Local Open Scope string_scope.
Local Open Scope list_scope.

(** A value JSON can carry: a finite number or [null]. *)
Definition jsonSafe (v : App.scalar) : bool :=
  match v with
  | App.Num (App.Finite _) | App.Null => true
  | _ => false
  end.

Definition componentSafe (c : App.Component.t) : bool :=
  jsonSafe (App.Component.x c) && jsonSafe (App.Component.y c)
  && jsonSafe (App.Component.angle c)
  && forallb (fun kv => jsonSafe (snd kv)) (App.Component.properties c).

(** Export followed by import into the state [s0]. *)
Definition roundTrip (s s0 : App.State.t) (timestamp : string) : App.State.t :=
  App.importJSON s0 (Some (App.Document (App.exportJSON s timestamp))).

(** One component through export, the JSON text and import. *)
Definition throughJSON (c : App.Component.t) : App.Component.t :=
  App.Component.mk (App.Component.id c) (App.Component.type c)
    (App.json_number (App.Component.x c)) (App.json_number (App.Component.y c))
    (App.json_number (App.Component.angle c))
    (App.json_properties (App.Component.properties c)).

(** A laser whose rotation field was cleared: [parseFloat('')] is NaN. *)
Definition laserWithoutAngle : App.State.t :=
  App.updateComponent (App.addComponent App.initialState "laser" 1) 1
    (App.Updates.mk None None (Some (App.Num App.NaN))).

End EditorRoundTripNotions.

Section EditorConnectionsNotions.

Local Open Scope string_scope.
Local Open Scope list_scope.

(** The kind [ty] has a port [pid] of the given role in [COMPONENT_TYPES]. *)
Definition hasPort (ty pid : string) (role : App.port_role) : bool :=
  match App.lookup ty App.COMPONENT_TYPES with
  | Some info =>
      existsb (fun p => String.eqb (App.Port.id p) pid
                        && App.port_role_eqb (App.Port.type p) role)
              (App.ComponentType.ports info)
  | None => false
  end.

(** A connection end [(cid, pid)] is a port of that role on the kind of a
    component of the list with id [cid]. *)
Definition endOk (comps : list App.Component.t) (cid : Z) (pid : string)
  (role : App.port_role) : bool :=
  existsb (fun c => (App.Component.id c =? cid)%Z
                    && hasPort (App.Component.type c) pid role)
          comps.

Definition connectionOk (comps : list App.Component.t) (conn : App.Connection.t)
  : bool :=
  endOk comps (App.Connection.fromComp conn) (App.Connection.fromPort conn)
    App.output
  && endOk comps (App.Connection.toComp conn) (App.Connection.toPort conn)
       App.input.

Definition pendingOk (comps : list App.Component.t)
  (pending : option App.Connecting.t) : bool :=
  match pending with
  | Some k =>
      endOk comps (App.Connecting.fromComp k) (App.Connecting.fromPort k)
        App.output
  | None => true
  end.

(** The invariant: every connection, and the pending connection if any,
    starts at an output port and every connection ends at an input port, of
    components in the list. *)
Definition wellConnected (s : App.State.t) : Prop :=
  forallb (connectionOk (App.State.components s)) (App.State.connections s) = true
  /\ pendingOk (App.State.components s) (App.State.connecting s) = true.

(** No pending connection starts at the component [id]. *)
Definition notPendingFrom (s : App.State.t) (id : Z) : Prop :=
  match App.State.connecting s with
  | Some k => App.Connecting.fromComp k <> id
  | None => True
  end.

(** The handlers that edit the graph by hand.  A component is not deleted
    while a connection dragged from it is pending. *)
Inductive editStep : App.State.t -> App.State.t -> Prop :=
| edit_addComponent s type now :
    editStep s (App.addComponent s type now)
| edit_deleteComponent s id :
    notPendingFrom s id -> editStep s (App.deleteComponent s id)
| edit_updateComponent s id updates :
    editStep s (App.updateComponent s id updates)
| edit_updateProperty s id property parsed :
    editStep s (App.updateProperty s id property parsed)
| edit_deleteConnection s connId :
    editStep s (App.deleteConnection s connId)
| edit_handleMouseDown s button x y id :
    editStep s (App.handleMouseDown s button x y id)
| edit_canvasMouseDown s button x y :
    editStep s (App.canvasMouseDown s button x y)
| edit_handleMouseMove s x y :
    editStep s (App.handleMouseMove s x y)
| edit_handleMouseUp s x y now :
    editStep s (App.handleMouseUp s x y now).

(** Every handler that writes the component or connection list. *)
Inductive anyStep : App.State.t -> App.State.t -> Prop :=
| any_edit s s' : editStep s s' -> anyStep s s'
| any_deleteComponent s id : anyStep s (App.deleteComponent s id)
| any_importJSON s file : anyStep s (App.importJSON s file).

Inductive reachableBy (step : App.State.t -> App.State.t -> Prop)
  : App.State.t -> Prop :=
| reach_initial : reachableBy step App.initialState
| reach_step s s' : reachableBy step s -> step s s' -> reachableBy step s'.

(** A file with a laser 1, a photodetector 2 and one connection, written
    from the detector's input port to the laser's output port. *)
Definition reversedDocument : App.Setup.t :=
  App.Setup.mk "1.0" "2025-10-30T12:00:00.000Z"
    [ App.SetupComponent.mk 1 "laser"
        (App.Position.mk (App.Num (App.Finite 120)) (App.Num (App.Finite 120)))
        (App.Num (App.Finite 0)) (App.getDefaultProperties "laser");
      App.SetupComponent.mk 2 "photodetector"
        (App.Position.mk (App.Num (App.Finite 300)) (App.Num (App.Finite 120)))
        (App.Num (App.Finite 0)) (App.getDefaultProperties "photodetector") ]
    (Some [ App.SetupConnection.mk 3 (App.Endpoint.mk 2 "in")
              (App.Endpoint.mk 1 "out") ])
    None App.JNull.

End EditorConnectionsNotions.

Section EditorGestureNotions.

Local Open Scope string_scope.
Local Open Scope list_scope.
Local Open Scope R_scope.

(** A laser and a photodetector as [addComponent] places them, the press
    on the laser's output port and the release on the detector's input
    port. *)
Definition laserAndDetector : App.State.t :=
  App.addComponent (App.addComponent App.initialState "laser" 1)
    "photodetector" 2.

Definition pressedOnLaserOutput : App.State.t :=
  App.canvasMouseDown laserAndDetector 0 (App.Finite 145) (App.Finite 120).

Definition releasedOnDetectorInput : App.State.t :=
  App.handleMouseUp pressedOnLaserOutput (App.Finite 105) (App.Finite 120) 3.

Definition deletedWhilePending : App.State.t :=
  App.deleteComponent pressedOnLaserOutput 1.

Definition releasedAfterDeletion : App.State.t :=
  App.handleMouseUp deletedWhilePending (App.Finite 105) (App.Finite 120) 3.

End EditorGestureNotions.

(** * Notions used to state the properties of the engine *)

Section EngineTerminationNotions.

Import Engine.
Local Open Scope nat_scope.
Variable P : Params.
Variable g : Graph.

(** At most two continuations per connection followed. *)
Definition fanout : nat := 2 * List.length (connections g).

(** The work a ray can still cause with [k] bounces left. *)
Fixpoint weight (k : nat) : nat :=
  match k with
  | O => 1
  | S k' => 1 + fanout * weight k'
  end.

Definition budget (it : Item) : nat :=
  S (maxBounces P) - bounceCount (ray it).

Definition queueWeight (queue : list Item) : nat :=
  list_sum (map (fun it => weight (budget it)) queue).

(** The ways a ray leaves [follow]. *)
Inductive followed (r : Ray) (e : Connection) : Ray -> Prop :=
| followed_nowhere :
    followed r e (terminate r reasonOpenEnd)
| followed_capped :
    maxBounces P < S (bounceCount r) ->
    followed r e (terminate r reasonMaxBounces)
| followed_absorbed dest :
    findComponent g (toComponentId e) = Some dest ->
    kind dest = detector ->
    followed r e
      (mkRay (originComponentId r) (wavelengthNm r) (intensity r)
         (path r ++ [worldPosition P dest (toPortId e)])
         (bounceCount r) true (Some reasonAbsorbed))
| followed_degenerate dest o :
    findComponent g (toComponentId e) = Some dest ->
    In o (interact P dest r) ->
    S (bounceCount r) <= maxBounces P ->
    followed r e (terminate (continuation P dest r o) reasonDegenerate).

(** The ways a queued ray ends in [process]. *)
Inductive ended (it : Item) : Ray -> Prop :=
| ended_maxBounces :
    maxBounces P < bounceCount (ray it) ->
    ended it (terminate (ray it) reasonMaxBounces)
| ended_attenuated :
    bounceCount (ray it) <= maxBounces P ->
    Qltb (intensity (ray it)) (epsilon P) = true ->
    ended it (terminate (ray it) reasonAttenuated)
| ended_openEnd :
    bounceCount (ray it) <= maxBounces P ->
    Qltb (intensity (ray it)) (epsilon P) = false ->
    ended it (terminate (ray it) reasonOpenEnd)
| ended_followed e r' :
    bounceCount (ray it) <= maxBounces P ->
    Qltb (intensity (ray it)) (epsilon P) = false ->
    In e (connections g) ->
    followed (ray it) e r' ->
    ended it r'.

(** The rays a run creates from a queue: the queued ones and, in turn, the
    continuations [process] queues for them. *)
Inductive reached (queue : list Item) : Item -> Prop :=
| reached_queued it : In it queue -> reached queue it
| reached_continued parent it :
    reached queue parent -> In it (snd (process P g parent)) -> reached queue it.

(** [r'] carries [r] on: same origin, the path of [r] extended, at least
    as many bounces. *)
Definition extends (r r' : Ray) : Prop :=
  originComponentId r' = originComponentId r
  /\ (exists more, path r' = path r ++ more)
  /\ bounceCount r <= bounceCount r'.

(** [r'] is [r] carried on to its end. *)
Definition endsAs (r r' : Ray) : Prop :=
  extends r r' /\ terminated r' = true.

End EngineTerminationNotions.

Section EngineBouncesNotions.

Import Engine.
Local Open Scope string_scope.
Local Open Scope list_scope.
Local Open Scope nat_scope.

(** The fuel that always suffices for a trace. *)
Definition traceFuel (P : Params) (g : Graph) (w : option Q) : nat :=
  queueWeight P g (seeds P g w).

(** A source (id 1, power 1) into a beam splitter (id 2) that reflects
    everything, its reflected port connected back to its own input. *)
Definition loopGraph : Graph :=
  mkGraph
    [ mkComponent 1 source (0, 0)%Q 0%Q
        [("wavelengthNm", 550%Q); ("power", 1%Q)];
      mkComponent 2 beamsplitter (100, 0)%Q 0%Q
        [("reflectivity", 1%Q); ("transmissivity", 0%Q)] ]
    [ mkConnection 1 "out" 2 "in"; mkConnection 2 "out2" 2 "in" ].

(** The spec's defaults (50 bounces, epsilon 1e-4) with one choice of what
    it leaves open: no Fresnel loss, 2% lens loss, a cone of two rays, every
    port at its component's position, taxicab distance. *)
Definition sampleParams : Params :=
  mkParams 50 (1 # 10000) "out" "out" "out2" "out1" 2
    (fun _ _ => 1%Q) (1 # 50)
    (fun c _ => position c) (fun _ _ _ => (1, 0)%Q)
    (fun a b => (Qabs (fst a - fst b) + Qabs (snd a - snd b))%Q).

(** Every ray a trace creates: the seeds and their continuations. *)
Definition created (P : Params) (g : Graph) (w : option Q) : Item -> Prop :=
  reached P g (seeds P g w).

(** The trace returned, and some ray of the result has as many bounces as
    the cap allows. *)
Definition atCap (P : Params) (o : option TraceResult) : bool :=
  match o with
  | Some res => existsb (fun r => bounceCount r =? maxBounces P) (rays res)
  | None => false
  end.

End EngineBouncesNotions.

Section EngineIntensityNotions.

Import Engine.
Local Open Scope string_scope.
Local Open Scope list_scope.
Local Open Scope Q_scope.

(** The loss terms the spec leaves open are losses: factors within [0,1]. *)
Definition lossesInRange (P : Params) : Prop :=
  (forall c r, 0 <= fresnel P c r /\ fresnel P c r <= 1)
  /\ 0 <= lensLoss P /\ lensLoss P <= 1.

(** The ray's origin is a source of the graph and its intensity lies
    between 0 and that source's power. *)
Definition withinPower (g : Graph) (r : Ray) : Prop :=
  exists c, In c (components g) /\ isSource c = true
            /\ originComponentId r = id c
            /\ 0 <= intensity r /\ intensity r <= prop c "power".

(** A source, a mirror of reflectivity 0.9 and a detector in a chain. *)
Definition chainGraph : Graph :=
  mkGraph
    [ mkComponent 1 source (0, 0) 0 [("wavelengthNm", 550); ("power", 1)];
      mkComponent 2 mirror (100, 0) 45
        [("reflectivity", 9 # 10); ("radiusOfCurvature", 1000)];
      mkComponent 3 detector (100, 100) 0 [("sensitivity", 1)] ]
    [ mkConnection 1 "out" 2 "in"; mkConnection 2 "out" 3 "in" ].

(** A source into an even beam splitter, each branch into its own
    detector. *)
Definition splitterGraph : Graph :=
  mkGraph
    [ mkComponent 1 source (0, 0) 0 [("wavelengthNm", 550); ("power", 1)];
      mkComponent 2 beamsplitter (100, 0) 0
        [("reflectivity", 1 # 2); ("transmissivity", 1 # 2)];
      mkComponent 3 detector (200, 0) 0 [("sensitivity", 1)];
      mkComponent 4 detector (100, 100) 0 [("sensitivity", 1)] ]
    [ mkConnection 1 "out" 2 "in"; mkConnection 2 "out1" 3 "in";
      mkConnection 2 "out2" 4 "in" ].

(** The ray a source of power 1 emits, and the rays one interaction makes
    of a ray: those that end in it and those it queues. *)
Definition unitRay : Ray := mkRay 1 550 1 [(0, 0)] O false None.

Definition produced (out : TraceResult * list Item) : list Ray :=
  rays (fst out) ++ map ray (snd out).

(** A single source with no connections. *)
Definition loneSource : Graph :=
  mkGraph [ mkComponent 1 source (0, 0) 0 [("wavelengthNm", 550); ("power", 1)] ]
    [].

(** What the scenarios of the spec's section 8 look at: per ray its reason
    and bounce count, whether every ray has the intensity [i], and the
    detectors read. *)
Definition outcome (i : Q) (o : option TraceResult)
  : option (list (option Reason * nat) * bool * list Z) :=
  option_map
    (fun res =>
       (map (fun r => (terminationReason r, bounceCount r)) (rays res),
        forallb (fun r => Qeq_bool (intensity r) i) (rays res),
        map fst (readings res)))
    o.

End EngineIntensityNotions.

(** * Notions used to state further properties of the editor *)

Section EditorPortsNotions.

Local Open Scope string_scope.
Local Open Scope list_scope.
Local Open Scope R_scope.

(** The test of [findPortAtPosition]: the pointer is less than twice the
    port radius away from the port's world position. *)
Definition inRange (x y : App.number) (c : App.Component.t) (p : App.Port.t)
  : bool :=
  App.lt
    (App.distance x y
       (App.WorldPos.x (App.getPortWorldPosition c p))
       (App.WorldPos.y (App.getPortWorldPosition c p)))
    (App.mul App.PORT_RADIUS (App.Finite 2)).

(** The component [c] turned to [angle]. *)
Definition turned (c : App.Component.t) (angle : App.scalar) : App.Component.t :=
  App.Component.mk (App.Component.id c) (App.Component.type c)
    (App.Component.x c) (App.Component.y c) angle (App.Component.properties c).

End EditorPortsNotions.

Section EditorDragNotions.

Local Open Scope string_scope.
Local Open Scope list_scope.
Local Open Scope R_scope.



End EditorDragNotions.

Section EditorUpdatesNotions.

Local Open Scope string_scope.
Local Open Scope list_scope.

(** [c'] is [c] with nothing but its property table touched. *)
Definition sameButProperties (c c' : App.Component.t) : Prop :=
  App.Component.id c' = App.Component.id c
  /\ App.Component.type c' = App.Component.type c
  /\ App.Component.x c' = App.Component.x c
  /\ App.Component.y c' = App.Component.y c
  /\ App.Component.angle c' = App.Component.angle c.

(** [parseFloat] returned a finite number or NaN. *)
Definition notInfinite (n : App.number) : Prop :=
  n <> App.PosInfinity /\ n <> App.NegInfinity.

(** No component of the list is within 30 pixels of the pointer. *)
Definition noComponentNear (comps : list App.Component.t) (x y : App.number)
  : Prop :=
  forall c, In c comps ->
    App.lt (App.distance x y (App.ToNumber (App.Component.x c))
              (App.ToNumber (App.Component.y c)))
           (App.Finite 30) = false.

End EditorUpdatesNotions.

Section EditorConnectionListNotions.

Local Open Scope string_scope.
Local Open Scope list_scope.

(** The two ends of a connection. *)
Definition ends (c : App.Connection.t) : Z * string * Z * string :=
  (App.Connection.fromComp c, App.Connection.fromPort c,
   App.Connection.toComp c, App.Connection.toPort c).

(** No two connections of the list join the same two ports. *)
Definition distinctEnds (s : App.State.t) : Prop :=
  NoDup (map ends (App.State.connections s)).

(** Every handler of the page that writes the component or connection
    list, the file import apart. *)
Inductive pageStep : App.State.t -> App.State.t -> Prop :=
| page_edit s s' : editStep s s' -> pageStep s s'
| page_deleteComponent s id : pageStep s (App.deleteComponent s id).

(** No component of the state has the id [id]. *)
Definition freshComponentId (s : App.State.t) (id : Z) : Prop :=
  forall c, In c (App.State.components s) -> App.Component.id c <> id.

(** No connection of the state has the id [id]. *)
Definition freshConnectionId (s : App.State.t) (id : Z) : Prop :=
  forall c, In c (App.State.connections s) -> App.Connection.id c <> id.

End EditorConnectionListNotions.

Section EditorImportNotions.

Local Open Scope string_scope.
Local Open Scope list_scope.
Local Open Scope R_scope.

(** What [importJSON] never writes. *)
Definition sameSession (s s' : App.State.t) : Prop :=
  App.State.selectedId s' = App.State.selectedId s
  /\ App.State.dragging s' = App.State.dragging s
  /\ App.State.connecting s' = App.State.connecting s
  /\ App.State.hoveredPort s' = App.State.hoveredPort s
  /\ App.State.rays s' = App.State.rays s
  /\ App.State.showRays s' = App.State.showRays s
  /\ App.State.simulationResult s' = App.State.simulationResult s
  /\ App.State.loading s' = App.State.loading s.

(** A file that lists one mirror and has no [connections] member. *)
Definition mirrorOnlyDocument : App.Setup.t :=
  App.Setup.mk "1.0" "2025-10-30T12:00:00.000Z"
    [ App.SetupComponent.mk 7 "mirror"
        (App.Position.mk (App.Num (App.Finite 240)) (App.Num (App.Finite 180)))
        (App.Num (App.Finite 45)) (App.getDefaultProperties "mirror") ]
    None None App.JNull.

(** The selected component, if any, is in the component list. *)
Definition selectionPresent (s : App.State.t) : Prop :=
  match App.State.selectedId s with
  | Some sel => In sel (map App.Component.id (App.State.components s))
  | None => True
  end.

(** The handlers as the page calls them: [handleMouseDown] only through
    the canvas, with the id of the component found under the pointer. *)
Inductive canvasStep : App.State.t -> App.State.t -> Prop :=
| canvas_addComponent s type now :
    canvasStep s (App.addComponent s type now)
| canvas_deleteComponent s id :
    canvasStep s (App.deleteComponent s id)
| canvas_updateComponent s id updates :
    canvasStep s (App.updateComponent s id updates)
| canvas_updateProperty s id property parsed :
    canvasStep s (App.updateProperty s id property parsed)
| canvas_deleteConnection s connId :
    canvasStep s (App.deleteConnection s connId)
| canvas_canvasMouseDown s button x y :
    canvasStep s (App.canvasMouseDown s button x y)
| canvas_handleMouseMove s x y :
    canvasStep s (App.handleMouseMove s x y)
| canvas_handleMouseUp s x y now :
    canvasStep s (App.handleMouseUp s x y now).

End EditorImportNotions.

Section EditorGesturePathNotions.

Local Open Scope string_scope.
Local Open Scope list_scope.
Local Open Scope R_scope.

(** The pointer moved through the given positions, in order. *)
Definition moveThrough (s : App.State.t) (moves : list (App.number * App.number))
  : App.State.t :=
  fold_left (fun s p => App.handleMouseMove s (fst p) (snd p)) moves s.

(** Some component of the list is within 30 pixels of the pointer. *)
Definition componentNear (comps : list App.Component.t) (x y : App.number)
  : Prop :=
  exists c, In c comps
            /\ App.lt (App.distance x y (App.ToNumber (App.Component.x c))
                         (App.ToNumber (App.Component.y c)))
                      (App.Finite 30) = true.

(** The connection a release on [inp] makes of a press on [out]. *)
Definition joining (now : Z) (out inp : App.PortInfo.t) : App.Connection.t :=
  App.Connection.mk now
    (App.Component.id (App.PortInfo.component out))
    (App.Port.id (App.PortInfo.port out))
    (App.Component.id (App.PortInfo.component inp))
    (App.Port.id (App.PortInfo.port inp)).

(** One mirror, as [addComponent] places it. *)
Definition loneMirror : App.State.t :=
  App.addComponent App.initialState "mirror" 1.

(** The [updates] object [handleMouseMove] passes for the drag [d] with the
    pointer at [(x, y)]. *)
Definition dragUpdate (d : App.Dragging.t) (x y : App.number) : App.Updates.t :=
  App.Updates.mk
    (Some (App.Num (App.mul (App.Math_round
                               (App.div (App.sub x (App.Dragging.offsetX d))
                                  App.GRID_SIZE)) App.GRID_SIZE)))
    (Some (App.Num (App.mul (App.Math_round
                               (App.div (App.sub y (App.Dragging.offsetY d))
                                  App.GRID_SIZE)) App.GRID_SIZE)))
    None.

(** Every component of the list has a kind of [COMPONENT_TYPES]. *)
Definition allRecognised (comps : list App.Component.t) : Prop :=
  forall c, In c comps -> recognised (App.Component.type c).

End EditorGesturePathNotions.

Section EditorClearedFieldNotions.

Local Open Scope string_scope.
Local Open Scope list_scope.

(** A laser whose X field was cleared: [parseFloat('')] is NaN. *)
Definition laserWithoutX : App.State.t :=
  App.updateComponent (App.addComponent App.initialState "laser" 1) 1
    (App.Updates.mk (Some (App.Num App.NaN)) None None).

End EditorClearedFieldNotions.

(** * Properties of the editor *)

Section EditorGeometry.

Local Open Scope R_scope.

Lemma sign_Eq_iff (r : R) : App.sign r = Eq <-> r = 0.
Proof.
  unfold App.sign.
  destruct (total_order_T r 0) as [[Hlt | Heq] | Hgt]; split; intro H;
    try discriminate; try reflexivity; try assumption; lra.
Qed.

Lemma div_finite (a b : R) :
  b <> 0 -> App.div (App.Finite a) (App.Finite b) = App.Finite (a / b).
Proof.
  intro Hb. unfold App.div.
  destruct (App.sign b) eqn:E; try reflexivity.
  apply sign_Eq_iff in E. contradiction.
Qed.

(** The two coordinates as the source computes them, for finite inputs. *)
Lemma getPortWorldPosition_finite (cid : Z) (ty : string)
  (props : App.properties_t) (x y theta : R) (p : App.Port.t) :
  App.getPortWorldPosition
    (App.Component.mk cid ty (App.Num (App.Finite x)) (App.Num (App.Finite y))
       (App.Num (App.Finite theta)) props) p
  = App.WorldPos.mk
      (App.Finite (x + App.Port.x p * cos (theta * PI / 180)
                   - App.Port.y p * sin (theta * PI / 180)))
      (App.Finite (y + App.Port.x p * sin (theta * PI / 180)
                   + App.Port.y p * cos (theta * PI / 180)))
      (App.Port.id p).
Proof.
  unfold App.getPortWorldPosition, App.Math_PI.
  cbn -[App.div].
  rewrite div_finite by lra.
  reflexivity.
Qed.

End EditorGeometry.

Section EditorGeometryDoubles.

Import Floats.
Local Open Scope string_scope.
Local Open Scope list_scope.

Lemma float_eq (a b : float) : Prim2SF a = Prim2SF b -> a = b.
Proof. apply Prim2SF_inj. Qed.


Lemma add_nan_l (a : float) : (nan + a)%float = nan.
Proof.
  apply float_eq. rewrite add_spec. change (Prim2SF nan) with S754_nan.
  reflexivity.
Qed.

Lemma sub_nan_r (a : float) : (a - nan)%float = nan.
Proof.
  apply float_eq. rewrite sub_spec. change (Prim2SF nan) with S754_nan.
  destruct (Prim2SF a); reflexivity.
Qed.













End EditorGeometryDoubles.

Section EditorKinds.

Local Open Scope string_scope.
Local Open Scope list_scope.

Lemma lookup_Some_keys {A : Type} (k : string) (obj : list (string * A)) :
  (exists v, App.lookup k obj = Some v) <-> In k (App.keys obj).
Proof.
  induction obj as [| [k' v'] rest IH]; simpl.
  - split; [intros [v H]; discriminate | intros []].
  - destruct (String.eqb_spec k' k) as [-> | Hne].
    + split; [intros _; left; reflexivity | intros _; exists v'; reflexivity].
    + rewrite IH. split; [intro H; right; exact H | intros [H | H]; [contradiction | exact H]].
Qed.

Lemma recognised_editorKinds (k : string) : recognised k <-> In k editorKinds.
Proof.
  unfold recognised. rewrite lookup_Some_keys. reflexivity.
Qed.

Lemma getDefaultProperties_nonempty (k : string) :
  App.getDefaultProperties k <> [] <-> In k editorKinds.
Proof.
  unfold App.getDefaultProperties, editorKinds.
  destruct (String.eqb_spec k "laser") as [-> | H1].
  { split; [intros _; simpl; tauto | intros _; discriminate]. }
  destruct (String.eqb_spec k "mirror") as [-> | H2].
  { split; [intros _; simpl; tauto | intros _; discriminate]. }
  destruct (String.eqb_spec k "beamsplitter") as [-> | H3].
  { split; [intros _; simpl; tauto | intros _; discriminate]. }
  destruct (String.eqb_spec k "lens") as [-> | H4].
  { split; [intros _; simpl; tauto | intros _; discriminate]. }
  destruct (String.eqb_spec k "photodetector") as [-> | H5].
  { split; [intros _; simpl; tauto | intros _; discriminate]. }
  split; [intro H; exfalso; apply H; reflexivity |].
  simpl. intros [H | [H | [H | [H | [H | []]]]]]; symmetry in H; contradiction.
Qed.

(** C2, as the specification states it, fails: [laser] is a key of
    [COMPONENT_TYPES] and none of the specification's five names (and
    [source] is no key). *)
Lemma recognised_kinds_not_spec_names :
  ~ (forall k, recognised k <-> In k specKinds).
Proof.
  intro H.
  assert (Hl : recognised "laser") by (exists (snd (hd (""%string, App.ComponentType.mk "" "" "" [] 0 0) App.COMPONENT_TYPES)); reflexivity).
  apply H in Hl. simpl in Hl.
  repeat (destruct Hl as [Hl | Hl]; [discriminate |]). exact Hl.
Qed.

(** C2, amended: the kinds the editor recognises are exactly the five names
    laser, mirror, beamsplitter, lens and photodetector; these are the keys
    of [COMPONENT_TYPES] (the fixed port schemas), in that order, and exactly
    the kinds for which [getDefaultProperties] gives properties. *)
Theorem recognised_kinds_editor_names :
  App.keys App.COMPONENT_TYPES = editorKinds
  /\ forall k,
       (recognised k <-> In k editorKinds)
       /\ (App.getDefaultProperties k <> [] <-> In k editorKinds).
Proof.
  split; [reflexivity |].
  intro k. split.
  - apply recognised_editorKinds.
  - apply getDefaultProperties_nonempty.
Qed.

Lemma added_newComponent (s : App.State.t) (type : string) (now : Z) :
  App.State.components (App.addComponent s type now)
  = App.State.components s ++ [App.newComponent type now]
  /\ added s type now = Some (App.newComponent type now).
Proof.
  unfold added, App.addComponent. simpl. split; [reflexivity |].
  rewrite map_app. simpl.
  induction (map Some (App.State.components s)) as [| a l IH]; simpl.
  - reflexivity.
  - destruct (l ++ [Some (App.newComponent type now)]) eqn:E.
    + destruct l; discriminate.
    + exact IH.
Qed.

(** C3, as the specification states it, fails: a new mirror has the
    properties [reflectivity] and [roc], not [reflectivity] and
    [radiusOfCurvature]. *)
Lemma new_component_not_spec_properties :
  ~ (forall kind names s now,
       In (kind, names) specRequiredProperties ->
       exists c, added s kind now = Some c
                 /\ App.keys (App.Component.properties c) = names).
Proof.
  intro H.
  destruct (H "mirror" ["reflectivity"; "radiusOfCurvature"] App.initialState 0%Z)
    as [c [Hc Hk]].
  { simpl. tauto. }
  destruct (added_newComponent App.initialState "mirror" 0%Z) as [_ Ha].
  rewrite Ha in Hc. injection Hc as <-.
  discriminate Hk.
Qed.

(** C3, amended: for each of the editor's five kinds, the component
    [addComponent] appends has that kind and exactly the properties, by
    name and in this order, laser: wavelength, power; mirror: reflectivity,
    roc; beamsplitter: reflectivity, transmissivity; lens: focalLength;
    photodetector: sensitivity. *)
Theorem new_component_editor_properties :
  Forall
    (fun entry =>
       forall s now,
         exists c,
           App.State.components (App.addComponent s (fst entry) now)
           = App.State.components s ++ [c]
           /\ App.Component.type c = fst entry
           /\ App.keys (App.Component.properties c) = snd entry)
    editorProperties.
Proof.
  unfold editorProperties.
  repeat constructor;
    intros s now; eexists; (split; [reflexivity | split; reflexivity]).
Qed.

End EditorKinds.

Section EditorDeletion.

Local Open Scope string_scope.
Local Open Scope list_scope.

Lemma deleteComponent_components (s : App.State.t) (id : Z) :
  App.State.components (App.deleteComponent s id)
  = filter (fun c => negb (App.Component.id c =? id)%Z) (App.State.components s).
Proof.
  unfold App.deleteComponent.
  destruct (App.State.selectedId s) as [sel |]; [destruct (sel =? id)%Z |];
    reflexivity.
Qed.

Lemma deleteComponent_connections (s : App.State.t) (id : Z) :
  App.State.connections (App.deleteComponent s id)
  = filter (fun c => negb (App.Connection.fromComp c =? id)%Z
                     && negb (App.Connection.toComp c =? id)%Z)
           (App.State.connections s).
Proof.
  unfold App.deleteComponent.
  destruct (App.State.selectedId s) as [sel |]; [destruct (sel =? id)%Z |];
    reflexivity.
Qed.

Lemma deleteComponent_connecting (s : App.State.t) (id : Z) :
  App.State.connecting (App.deleteComponent s id) = App.State.connecting s.
Proof.
  unfold App.deleteComponent.
  destruct (App.State.selectedId s) as [sel |]; [destruct (sel =? id)%Z |];
    reflexivity.
Qed.

Lemma kept_connection (id : Z) (conn : App.Connection.t) :
  negb (App.Connection.fromComp conn =? id)%Z
  && negb (App.Connection.toComp conn =? id)%Z = true
  <-> App.Connection.fromComp conn <> id /\ App.Connection.toComp conn <> id.
Proof.
  rewrite andb_true_iff, !negb_true_iff, !Z.eqb_neq. reflexivity.
Qed.

Lemma kept_component (id : Z) (c : App.Component.t) (l : list App.Component.t) :
  In c l -> App.Component.id c <> id ->
  In c (filter (fun c => negb (App.Component.id c =? id)%Z) l).
Proof.
  intros Hin Hne. apply filter_In. split; [exact Hin |].
  apply negb_true_iff, Z.eqb_neq. exact Hne.
Qed.

(** C10: after [deleteComponent s id] no connection has [id] as its
    from-component or to-component, no component has that id, the surviving
    connections are connections of [s], and if every connection of [s]
    referenced components of the list, so does every connection afterwards. *)
Theorem deleteComponent_no_dangling :
  forall (s : App.State.t) (id : Z),
    let s' := App.deleteComponent s id in
    (forall conn,
        In conn (App.State.connections s') ->
        In conn (App.State.connections s)
        /\ App.Connection.fromComp conn <> id
        /\ App.Connection.toComp conn <> id)
    /\ (forall c, In c (App.State.components s') -> App.Component.id c <> id)
    /\ (referencesPresent s -> referencesPresent s').
Proof.
  intros s id s'. unfold s'. split; [| split].
  - intros conn Hin. rewrite deleteComponent_connections in Hin.
    apply filter_In in Hin. destruct Hin as [Hin Hk].
    apply kept_connection in Hk. tauto.
  - intros c Hin. rewrite deleteComponent_components in Hin.
    apply filter_In in Hin. destruct Hin as [_ Hk].
    apply negb_true_iff, Z.eqb_neq in Hk. exact Hk.
  - intros Href conn Hin. rewrite deleteComponent_connections in Hin.
    apply filter_In in Hin. destruct Hin as [Hin Hk].
    apply kept_connection in Hk. destruct Hk as [Hf Ht].
    destruct (Href conn Hin) as [[cf [Hcf Hidf]] [ct [Hct Hidt]]].
    rewrite deleteComponent_components. split.
    + exists cf. split; [apply kept_component; congruence | exact Hidf].
    + exists ct. split; [apply kept_component; congruence | exact Hidt].
Qed.

(** Deleting the mirror of [threeComponents]: the connection to the mirror
    goes, the connection to the detector stays. *)
Lemma deleteComponent_no_dangling_witness :
  referencesPresent threeComponents
  /\ referencesPresent (App.deleteComponent threeComponents 3)
  /\ App.State.connections (App.deleteComponent threeComponents 3)
     = [ App.Connection.mk 10 1 "out" 2 "in" ].
Proof.
  assert (H : referencesPresent threeComponents).
  { intros conn [<- | [<- | []]]; split.
    - exists (App.newComponent "laser" 1). simpl. tauto.
    - exists (App.newComponent "photodetector" 2). simpl. tauto.
    - exists (App.newComponent "laser" 1). simpl. tauto.
    - exists (App.newComponent "mirror" 3). simpl. tauto. }
  split; [exact H | split].
  - exact (proj2 (proj2 (deleteComponent_no_dangling threeComponents 3)) H).
  - reflexivity.
Defined.

End EditorDeletion.

Section EditorRoundTrip.

Local Open Scope string_scope.
Local Open Scope list_scope.

Lemma json_number_fixed (v : App.scalar) :
  App.json_number v = v <-> jsonSafe v = true.
Proof.
  destruct v as [[r | | |] |]; simpl; split; intro H;
    try reflexivity; try discriminate.
Qed.

Lemma map_fixed {A : Type} (f : A -> A) (l : list A) :
  map f l = l <-> Forall (fun a => f a = a) l.
Proof.
  induction l as [| a l IH]; simpl.
  - split; [constructor | reflexivity].
  - split.
    + intro H. injection H as Ha Hl. constructor; [exact Ha | apply IH; exact Hl].
    + intro H. inversion H as [| ? ? Ha Hl]; subst.
      rewrite Ha. f_equal. apply IH. exact Hl.
Qed.

Lemma json_properties_fixed (p : App.properties_t) :
  App.json_properties p = p <-> forallb (fun kv => jsonSafe (snd kv)) p = true.
Proof.
  unfold App.json_properties, App.properties_t in *.
  rewrite map_fixed, forallb_forall, Forall_forall.
  split; intros H kv Hin; specialize (H kv Hin); destruct kv as [k v]; simpl in *.
  - apply json_number_fixed. congruence.
  - apply json_number_fixed in H. congruence.
Qed.

Lemma throughJSON_fixed (c : App.Component.t) :
  throughJSON c = c <-> componentSafe c = true.
Proof.
  unfold componentSafe, throughJSON. destruct c as [i t x y a p]; simpl.
  rewrite !andb_true_iff, <- !json_number_fixed, <- json_properties_fixed.
  split.
  - intro H. injection H as Hx Hy Ha Hp. tauto.
  - intros [[[Hx Hy] Ha] Hp]. congruence.
Qed.

Lemma roundTrip_components (s s0 : App.State.t) (timestamp : string) :
  App.State.components (roundTrip s s0 timestamp)
  = map throughJSON (App.State.components s).
Proof.
  unfold roundTrip, App.importJSON, App.exportJSON. simpl.
  rewrite !map_map. reflexivity.
Qed.

Lemma roundTrip_connections (s s0 : App.State.t) (timestamp : string) :
  App.State.connections (roundTrip s s0 timestamp) = App.State.connections s.
Proof.
  unfold roundTrip, App.importJSON, App.exportJSON. simpl.
  rewrite map_map. simpl.
  induction (App.State.connections s) as [| [i fc fp tc tp] l IH]; simpl.
  - reflexivity.
  - rewrite IH. reflexivity.
Qed.



End EditorRoundTrip.

Section EditorConnections.

Local Open Scope string_scope.
Local Open Scope list_scope.

Lemma endOk_incl (l l' : list App.Component.t) cid pid role :
  (forall c, In c l -> In c l') ->
  endOk l cid pid role = true -> endOk l' cid pid role = true.
Proof.
  unfold endOk. intros Hincl H.
  apply existsb_exists in H. destruct H as [c [Hin Hc]].
  apply existsb_exists. exists c. split; [apply Hincl; exact Hin | exact Hc].
Qed.

Lemma endOk_map (f : App.Component.t -> App.Component.t)
  (l : list App.Component.t) cid pid role :
  (forall c, App.Component.id (f c) = App.Component.id c
             /\ App.Component.type (f c) = App.Component.type c) ->
  endOk (map f l) cid pid role = endOk l cid pid role.
Proof.
  intro Hf. unfold endOk. induction l as [| c l IH]; simpl.
  - reflexivity.
  - destruct (Hf c) as [-> ->]. rewrite IH. reflexivity.
Qed.

Lemma endOk_filter (l : list App.Component.t) (id : Z) cid pid role :
  cid <> id ->
  endOk l cid pid role = true ->
  endOk (filter (fun c => negb (App.Component.id c =? id)%Z) l) cid pid role
  = true.
Proof.
  unfold endOk. intros Hne H.
  apply existsb_exists in H. destruct H as [c [Hin Hc]].
  apply existsb_exists. exists c. split; [| exact Hc].
  apply kept_component; [exact Hin |].
  apply andb_true_iff in Hc. destruct Hc as [Hid _].
  apply Z.eqb_eq in Hid. congruence.
Qed.

Lemma wellConnected_components (s : App.State.t) (comps : list App.Component.t) :
  (forall cid pid role,
      endOk (App.State.components s) cid pid role = true ->
      endOk comps cid pid role = true) ->
  wellConnected s -> wellConnected (App.setComponents s comps).
Proof.
  intros Hend [Hc Hp]. split; simpl.
  - rewrite forallb_forall in *. intros conn Hin. specialize (Hc conn Hin).
    unfold connectionOk in *. apply andb_true_iff in Hc. destruct Hc as [H1 H2].
    apply andb_true_iff. split; apply Hend; assumption.
  - destruct (App.State.connecting s) as [k |]; simpl in *;
      [apply Hend; exact Hp | reflexivity].
Qed.

Lemma findPortOf_found comp ports x y info :
  App.findPortOf comp ports x y = Some info ->
  App.PortInfo.component info = comp /\ In (App.PortInfo.port info) ports.
Proof.
  induction ports as [| p ports IH]; simpl; [discriminate |].
  destruct (App.lt _ _).
  - intro H. injection H as <-. simpl. tauto.
  - intro H. destruct (IH H) as [Hc Hp]. tauto.
Qed.

Lemma findPortAtPosition_found comps x y info :
  App.findPortAtPosition comps x y = App.Ok (Some info) ->
  In (App.PortInfo.component info) comps
  /\ exists compType,
       App.lookup (App.Component.type (App.PortInfo.component info))
         App.COMPONENT_TYPES = Some compType
       /\ In (App.PortInfo.port info) (App.ComponentType.ports compType).
Proof.
  induction comps as [| comp comps IH]; cbn [App.findPortAtPosition];
    [discriminate |].
  destruct (App.lookup (App.Component.type comp) App.COMPONENT_TYPES)
    as [compType |] eqn:Hty; [| discriminate].
  destruct (App.findPortOf comp (App.ComponentType.ports compType) x y)
    as [found |] eqn:Hfound.
  - intro H. injection H as <-.
    destruct (findPortOf_found _ _ _ _ _ Hfound) as [-> Hp].
    split; [left; reflexivity | exists compType; split; assumption].
  - intro H. destruct (IH H) as [Hin Hex]. split; [right; exact Hin | exact Hex].
Qed.

(** The port found under the pointer is an end of its own role. *)
Lemma found_endOk comps x y info :
  App.findPortAtPosition comps x y = App.Ok (Some info) ->
  endOk comps (App.Component.id (App.PortInfo.component info))
    (App.Port.id (App.PortInfo.port info))
    (App.Port.type (App.PortInfo.port info)) = true.
Proof.
  intro H. destruct (findPortAtPosition_found _ _ _ _ H) as [Hin [ct [Hty Hp]]].
  unfold endOk. apply existsb_exists.
  exists (App.PortInfo.component info). split; [exact Hin |].
  rewrite Z.eqb_refl. simpl. unfold hasPort. rewrite Hty.
  apply existsb_exists. exists (App.PortInfo.port info). split; [exact Hp |].
  rewrite String.eqb_refl. simpl.
  destruct (App.Port.type (App.PortInfo.port info)); reflexivity.
Qed.

Lemma spread_same c updates :
  App.Component.id (App.spread c updates) = App.Component.id c
  /\ App.Component.type (App.spread c updates) = App.Component.type c.
Proof. split; reflexivity. Qed.

Lemma wellConnected_updateComponent s id updates :
  wellConnected s -> wellConnected (App.updateComponent s id updates).
Proof.
  intro H. unfold App.updateComponent.
  apply wellConnected_components; [| exact H].
  intros cid pid role Hend. rewrite endOk_map; [exact Hend |].
  intro c. destruct (App.Component.id c =? id)%Z; [apply spread_same | tauto].
Qed.

Lemma wellConnected_handleMouseDown s button x y id :
  wellConnected s -> wellConnected (App.handleMouseDown s button x y id).
Proof.
  intros [Hc Hp]. unfold App.handleMouseDown.
  destruct (negb (button =? 0)%Z); [split; assumption |].
  destruct (App.findPortAtPosition (App.State.components s) x y)
    as [[info |] |] eqn:Hfind; [| | split; assumption].
  - destruct (App.Port.type (App.PortInfo.port info)) eqn:Hrole;
      [split; assumption |].
    split; simpl; [exact Hc |].
    rewrite <- Hrole. apply (found_endOk _ _ _ _ Hfind).
  - destruct (find _ _); split; assumption.
Qed.

Lemma wellConnected_handleMouseMove s x y :
  wellConnected s -> wellConnected (App.handleMouseMove s x y).
Proof.
  intros H. unfold App.handleMouseMove.
  destruct (App.findPortAtPosition (App.State.components s) x y)
    as [info |]; [| exact H].
  destruct (App.State.connecting s) as [k |] eqn:Hk.
  - destruct H as [Hc Hp]. rewrite Hk in Hp. split; simpl; assumption.
  - destruct (App.State.dragging s) as [d |].
    + apply wellConnected_updateComponent.
      destruct H as [Hc Hp]. split; simpl; [exact Hc | rewrite Hk; reflexivity].
    + destruct H as [Hc Hp]. split; simpl; [exact Hc | rewrite Hk; reflexivity].
Qed.

Lemma wellConnected_handleMouseUp s x y now :
  wellConnected s -> wellConnected (App.handleMouseUp s x y now).
Proof.
  intros [Hc Hp]. unfold App.handleMouseUp.
  destruct (App.State.connecting s) as [k |] eqn:Hk;
    [| split; simpl; [exact Hc | rewrite Hk; reflexivity]].
  destruct (App.findPortAtPosition (App.State.components s) x y)
    as [[info |] |] eqn:Hfind.
  - destruct (App.Port.type (App.PortInfo.port info)) eqn:Hrole.
    + destruct (existsb _ _); split; simpl; try exact Hc; try reflexivity.
      rewrite forallb_app, Hc. simpl. rewrite andb_true_r.
      unfold connectionOk. simpl. simpl in Hp. rewrite Hp. simpl.
      rewrite <- Hrole. apply (found_endOk _ _ _ _ Hfind).
    + split; simpl; [exact Hc | reflexivity].
  - split; simpl; [exact Hc | reflexivity].
  - split; simpl; [exact Hc | rewrite Hk; exact Hp].
Qed.

Lemma wellConnected_deleteComponent s id :
  notPendingFrom s id -> wellConnected s ->
  wellConnected (App.deleteComponent s id).
Proof.
  intros Hnp [Hc Hp]. unfold wellConnected.
  rewrite deleteComponent_components, deleteComponent_connections,
    deleteComponent_connecting.
  split.
  - rewrite forallb_forall in *. intros conn Hin.
    apply filter_In in Hin. destruct Hin as [Hin Hk].
    apply kept_connection in Hk. destruct Hk as [Hf Ht].
    specialize (Hc conn Hin). unfold connectionOk in *.
    apply andb_true_iff in Hc. destruct Hc as [H1 H2].
    apply andb_true_iff. split; apply endOk_filter; assumption.
  - unfold notPendingFrom in Hnp.
    destruct (App.State.connecting s) as [k |]; simpl in *;
      [apply endOk_filter; assumption | reflexivity].
Qed.

Lemma wellConnected_editStep s s' :
  editStep s s' -> wellConnected s -> wellConnected s'.
Proof.
  intros Hstep H. destruct Hstep.
  - unfold App.addComponent. apply wellConnected_components; [| exact H].
    intros cid pid role. apply endOk_incl.
    intros c Hin. apply in_or_app. left. exact Hin.
  - apply wellConnected_deleteComponent; assumption.
  - apply wellConnected_updateComponent. exact H.
  - unfold App.updateProperty. apply wellConnected_components; [| exact H].
    intros cid pid role Hend. rewrite endOk_map; [exact Hend |].
    intro c. destruct (App.Component.id c =? id)%Z; split; reflexivity.
  - destruct H as [Hc Hp]. split; simpl; [| exact Hp].
    rewrite forallb_forall in *. intros conn Hin.
    apply filter_In in Hin. apply Hc. tauto.
  - apply wellConnected_handleMouseDown. exact H.
  - unfold App.canvasMouseDown. destruct (find _ _).
    + apply wellConnected_handleMouseDown. exact H.
    + destruct H as [Hc Hp]. split; assumption.
  - apply wellConnected_handleMouseMove. exact H.
  - apply wellConnected_handleMouseUp. exact H.
Qed.

End EditorConnections.

Section EditorGesture.

Local Open Scope string_scope.
Local Open Scope list_scope.
Local Open Scope R_scope.

Lemma sign_Lt_iff (r : R) : App.sign r = Lt <-> r < 0.
Proof.
  unfold App.sign.
  destruct (total_order_T r 0) as [[Hlt | Heq] | Hgt]; split; intro H;
    try discriminate; try reflexivity; try assumption; lra.
Qed.

Lemma sum_squares_nonneg (u v : R) : 0 <= u * u + v * v.
Proof.
  pose proof (Rle_0_sqr u) as Hu. pose proof (Rle_0_sqr v) as Hv.
  unfold Rsqr in Hu, Hv. lra.
Qed.

Lemma distance_finite (x y a b : R) :
  App.distance (App.Finite x) (App.Finite y) (App.Finite a) (App.Finite b)
  = App.Finite (sqrt ((x - a) * (x - a) + (y - b) * (y - b))).
Proof.
  unfold App.distance, App.sqr, App.sub, App.neg, App.add, App.mul, App.Math_sqrt.
  replace ((x + - a) * (x + - a) + (y + - b) * (y + - b))
    with ((x - a) * (x - a) + (y - b) * (y - b)) by ring.
  destruct (App.sign _) eqn:E; try reflexivity.
  apply sign_Lt_iff in E.
  pose proof (sum_squares_nonneg (x - a) (y - b)). lra.
Qed.

Lemma lt_distance_near (x y a b r : R) :
  0 < r -> (x - a) * (x - a) + (y - b) * (y - b) < r * r ->
  App.lt (App.distance (App.Finite x) (App.Finite y) (App.Finite a) (App.Finite b))
         (App.Finite r) = true.
Proof.
  intros Hr H. rewrite distance_finite. unfold App.lt.
  destruct (Rlt_dec _ r) as [_ | Hn]; [reflexivity | exfalso; apply Hn].
  rewrite <- (sqrt_square r) by lra.
  apply sqrt_lt_1_alt. split; [apply sum_squares_nonneg | exact H].
Qed.

Lemma lt_distance_far (x y a b r : R) :
  0 <= r -> r * r <= (x - a) * (x - a) + (y - b) * (y - b) ->
  App.lt (App.distance (App.Finite x) (App.Finite y) (App.Finite a) (App.Finite b))
         (App.Finite r) = false.
Proof.
  intros Hr H. rewrite distance_finite. unfold App.lt.
  destruct (Rlt_dec _ r) as [Hlt | _]; [exfalso | reflexivity].
  rewrite <- (sqrt_square r) in Hlt by lra.
  apply sqrt_le_1_alt in H. lra.
Qed.

(** The world position of a port of a component that is not rotated. *)
Lemma worldPosition_unrotated (cid : Z) (ty : string) (props : App.properties_t)
  (cx cy : R) (p : App.Port.t) :
  App.getPortWorldPosition
    (App.Component.mk cid ty (App.Num (App.Finite cx)) (App.Num (App.Finite cy))
       (App.Num (App.Finite 0)) props) p
  = App.WorldPos.mk (App.Finite (cx + App.Port.x p)) (App.Finite (cy + App.Port.y p))
      (App.Port.id p).
Proof.
  rewrite getPortWorldPosition_finite.
  replace (0 * PI / 180) with 0 by lra.
  rewrite cos_0, sin_0. f_equal; f_equal; ring.
Qed.

Lemma findPortOf_hit (cid : Z) (ty : string) (props : App.properties_t)
  (cx cy : R) (p : App.Port.t) (rest : list App.Port.t) (x y : R) :
  let c := App.Component.mk cid ty (App.Num (App.Finite cx))
             (App.Num (App.Finite cy)) (App.Num (App.Finite 0)) props in
  (x - (cx + App.Port.x p)) * (x - (cx + App.Port.x p))
  + (y - (cy + App.Port.y p)) * (y - (cy + App.Port.y p)) < 256 ->
  App.findPortOf c (p :: rest) (App.Finite x) (App.Finite y)
  = Some (App.PortInfo.mk c p (App.getPortWorldPosition c p)).
Proof.
  intros c H. cbn [App.findPortOf]. unfold c at 1 2.
  rewrite worldPosition_unrotated. cbn [App.WorldPos.x App.WorldPos.y].
  unfold App.PORT_RADIUS. cbn [App.mul].
  rewrite lt_distance_near; [reflexivity | lra | lra].
Qed.

Lemma findPortOf_miss (cid : Z) (ty : string) (props : App.properties_t)
  (cx cy : R) (p : App.Port.t) (rest : list App.Port.t) (x y : R) :
  let c := App.Component.mk cid ty (App.Num (App.Finite cx))
             (App.Num (App.Finite cy)) (App.Num (App.Finite 0)) props in
  256 <= (x - (cx + App.Port.x p)) * (x - (cx + App.Port.x p))
         + (y - (cy + App.Port.y p)) * (y - (cy + App.Port.y p)) ->
  App.findPortOf c (p :: rest) (App.Finite x) (App.Finite y)
  = App.findPortOf c rest (App.Finite x) (App.Finite y).
Proof.
  intros c H. cbn [App.findPortOf]. unfold c at 1 2.
  rewrite worldPosition_unrotated. cbn [App.WorldPos.x App.WorldPos.y].
  unfold App.PORT_RADIUS. cbn [App.mul].
  rewrite lt_distance_far; [reflexivity | lra | lra].
Qed.

Lemma press_finds_laser_output :
  App.findPortAtPosition
    [App.newComponent "laser" 1; App.newComponent "photodetector" 2]
    (App.Finite 145) (App.Finite 120)
  = App.Ok (Some (App.PortInfo.mk (App.newComponent "laser" 1)
                    (App.Port.mk "out" 30 0 App.output)
                    (App.getPortWorldPosition (App.newComponent "laser" 1)
                       (App.Port.mk "out" 30 0 App.output)))).
Proof.
  cbn [App.findPortAtPosition].
  simpl (App.lookup _ _). cbn [App.ComponentType.ports].
  unfold App.newComponent at 1.
  rewrite findPortOf_hit by (simpl; lra).
  reflexivity.
Qed.

Lemma release_finds_detector_input :
  App.findPortAtPosition
    [App.newComponent "laser" 1; App.newComponent "photodetector" 2]
    (App.Finite 105) (App.Finite 120)
  = App.Ok (Some (App.PortInfo.mk (App.newComponent "photodetector" 2)
                    (App.Port.mk "in" (-20) 0 App.input)
                    (App.getPortWorldPosition (App.newComponent "photodetector" 2)
                       (App.Port.mk "in" (-20) 0 App.input)))).
Proof.
  cbn [App.findPortAtPosition].
  simpl (App.lookup _ _). cbn [App.ComponentType.ports].
  unfold App.newComponent at 1.
  rewrite findPortOf_miss by (simpl; lra).
  change (App.findPortOf _ [] _ _) with (@None App.PortInfo.t).
  cbn [App.findPortAtPosition].
  simpl (App.lookup _ _). cbn [App.ComponentType.ports].
  unfold App.newComponent at 1.
  rewrite findPortOf_hit by (simpl; lra).
  reflexivity.
Qed.

Example releasedOnDetectorInput_connections :
  App.State.connections releasedOnDetectorInput
  = [App.Connection.mk 3 1 "out" 2 "in"]
  /\ App.State.connecting releasedOnDetectorInput = None.
Proof.
  unfold releasedOnDetectorInput, App.handleMouseUp.
  unfold pressedOnLaserOutput, App.canvasMouseDown.
  change (App.State.components laserAndDetector)
    with [App.newComponent "laser" 1; App.newComponent "photodetector" 2].
  cbn [find App.newComponent App.Component.x App.Component.y App.ToNumber].
  rewrite lt_distance_near by lra.
  unfold App.handleMouseDown.
  change (App.State.components laserAndDetector)
    with [App.newComponent "laser" 1; App.newComponent "photodetector" 2].
  cbn [negb Z.eqb App.Component.id].
  rewrite press_finds_laser_output.
  cbn -[App.findPortAtPosition App.getPortWorldPosition App.newComponent].
  rewrite release_finds_detector_input.
  cbn -[App.findPortAtPosition App.getPortWorldPosition App.newComponent].
  split; reflexivity.
Qed.

Lemma pressedOnLaserOutput_eq :
  pressedOnLaserOutput
  = App.setConnecting laserAndDetector
      (Some (App.Connecting.mk 1 "out"
               (App.WorldPos.x
                  (App.getPortWorldPosition (App.newComponent "laser" 1)
                     (App.Port.mk "out" 30 0 App.output)))
               (App.WorldPos.y
                  (App.getPortWorldPosition (App.newComponent "laser" 1)
                     (App.Port.mk "out" 30 0 App.output)))
               (App.Finite 145) (App.Finite 120))).
Proof.
  unfold pressedOnLaserOutput, App.canvasMouseDown.
  change (App.State.components laserAndDetector)
    with [App.newComponent "laser" 1; App.newComponent "photodetector" 2].
  cbn [find App.newComponent App.Component.x App.Component.y App.ToNumber].
  rewrite lt_distance_near by lra.
  unfold App.handleMouseDown.
  change (App.State.components laserAndDetector)
    with [App.newComponent "laser" 1; App.newComponent "photodetector" 2].
  cbn [negb Z.eqb App.Component.id].
  rewrite press_finds_laser_output.
  reflexivity.
Qed.

Lemma release_finds_detector_alone :
  App.findPortAtPosition [App.newComponent "photodetector" 2]
    (App.Finite 105) (App.Finite 120)
  = App.Ok (Some (App.PortInfo.mk (App.newComponent "photodetector" 2)
                    (App.Port.mk "in" (-20) 0 App.input)
                    (App.getPortWorldPosition (App.newComponent "photodetector" 2)
                       (App.Port.mk "in" (-20) 0 App.input)))).
Proof.
  cbn [App.findPortAtPosition].
  simpl (App.lookup _ _). cbn [App.ComponentType.ports].
  unfold App.newComponent at 1.
  rewrite findPortOf_hit by (simpl; lra).
  reflexivity.
Qed.

(** A press on the laser's output port, the laser deleted before the
    release, the release on the detector's input port: the new connection
    names the deleted laser. *)
Example releasedAfterDeletion_dangling :
  App.State.components releasedAfterDeletion
  = [App.newComponent "photodetector" 2]
  /\ App.State.connections releasedAfterDeletion
     = [App.Connection.mk 3 1 "out" 2 "in"].
Proof.
  unfold releasedAfterDeletion, deletedWhilePending.
  rewrite pressedOnLaserOutput_eq.
  unfold App.handleMouseUp.
  rewrite deleteComponent_connecting, deleteComponent_components.
  change (filter _ (App.State.components _))
    with [App.newComponent "photodetector" 2].
  cbn [App.State.connecting App.setConnecting].
  rewrite release_finds_detector_alone.
  cbn -[App.findPortAtPosition App.getPortWorldPosition App.newComponent].
  split; reflexivity.
Qed.

Lemma releasedOnDetectorInput_reachable :
  reachableBy editStep releasedOnDetectorInput.
Proof.
  unfold releasedOnDetectorInput, pressedOnLaserOutput, laserAndDetector.
  repeat (eapply reach_step; [| constructor]).
  apply reach_initial.
Qed.

(** C4, as stated, fails: [importJSON] installs the connections of the file
    as they are, here one that leaves the detector's input port and enters
    the laser's output port. *)
Lemma imported_connection_unchecked :
  ~ (forall s,
       reachableBy anyStep s ->
       forallb (connectionOk (App.State.components s)) (App.State.connections s)
       = true).
Proof.
  intro H.
  specialize
    (H (App.importJSON App.initialState (Some (App.Document reversedDocument)))).
  assert (Hr : reachableBy anyStep
                 (App.importJSON App.initialState
                    (Some (App.Document reversedDocument)))).
  { eapply reach_step; [apply reach_initial | apply any_importJSON]. }
  specialize (H Hr). discriminate H.
Qed.

(** C4, amended: in every state reached from the empty editor by the
    editing handlers (adding, updating and deleting components, deleting
    connections and the three mouse handlers, no component being deleted
    while a connection dragged from it is pending), every connection leaves
    an output port and enters an input port of the kinds of components in
    the list; [handleMouseDown] starts a pending connection only at an
    output port of a listed component, and [handleMouseUp] adds only a
    connection from the pending end to an input port of a listed component.
    The connections [importJSON] loads are not checked. *)
Theorem editor_connections_join_ports :
  (forall s, reachableBy editStep s -> wellConnected s)
  /\ (forall s button x y id k,
         App.State.connecting (App.handleMouseDown s button x y id) = Some k ->
         App.State.connecting s = Some k
         \/ endOk (App.State.components s) (App.Connecting.fromComp k)
              (App.Connecting.fromPort k) App.output = true)
  /\ (forall s x y now conn,
         In conn (App.State.connections (App.handleMouseUp s x y now)) ->
         In conn (App.State.connections s)
         \/ exists k,
              App.State.connecting s = Some k
              /\ App.Connection.fromComp conn = App.Connecting.fromComp k
              /\ App.Connection.fromPort conn = App.Connecting.fromPort k
              /\ endOk (App.State.components s) (App.Connection.toComp conn)
                   (App.Connection.toPort conn) App.input = true).
Proof.
  split; [| split].
  - intros s Hr. induction Hr as [| s s' _ IH Hstep].
    + split; reflexivity.
    + exact (wellConnected_editStep s s' Hstep IH).
  - intros s button x y id k. unfold App.handleMouseDown.
    destruct (negb (button =? 0)%Z); [left; assumption |].
    destruct (App.findPortAtPosition (App.State.components s) x y)
      as [[info |] |] eqn:Hfind; [| | left; assumption].
    + destruct (App.Port.type (App.PortInfo.port info)) eqn:Hrole;
        [left; assumption |].
      simpl. intro H. injection H as <-. right. simpl.
      rewrite <- Hrole. apply (found_endOk _ _ _ _ Hfind).
    + destruct (find _ _); simpl; left; assumption.
  - intros s x y now conn. unfold App.handleMouseUp.
    destruct (App.State.connecting s) as [k |] eqn:Hk; [| left; assumption].
    destruct (App.findPortAtPosition (App.State.components s) x y)
      as [[info |] |] eqn:Hfind; try (left; assumption).
    destruct (App.Port.type (App.PortInfo.port info)) eqn:Hrole;
      [| left; assumption].
    destruct (existsb _ _); [left; assumption |].
    simpl. intro Hin. apply in_app_or in Hin.
    destruct Hin as [Hin | [<- | []]]; [left; exact Hin |].
    right. exists k. simpl. repeat split.
    rewrite <- Hrole. apply (found_endOk _ _ _ _ Hfind).
Qed.

(** The state after the press on the laser's output port and the release
    on the detector's input port is reached by editing and is well
    connected. *)
Lemma editor_connections_join_ports_witness :
  reachableBy editStep releasedOnDetectorInput
  /\ wellConnected releasedOnDetectorInput.
Proof.
  split.
  - exact releasedOnDetectorInput_reachable.
  - exact (proj1 editor_connections_join_ports releasedOnDetectorInput
             releasedOnDetectorInput_reachable).
Defined.

End EditorGesture.

(** * Properties of the engine as specified *)

Section EngineSweep.

Import Engine.
Local Open Scope Q_scope.

Lemma ofNat_S_pos (n : nat) : 0 < ofNat (S n).
Proof.
  unfold ofNat, Qlt. simpl. lia.
Qed.

Lemma sampleWavelengths_two_or_more (a b : Q) (n : nat) :
  sampleWavelengths (mkSweepConfig a b (S (S n)))
  = map (fun i => a + ofNat i * ((b - a) / ofNat (S n))) (seq 0 (S (S n))).
Proof. reflexivity. Qed.

Lemma sweepOver_wavelengths (P : Params) (g : Graph) (fuel : nat) (ws : list Q) :
  forall entries,
    sweepOver P g fuel ws = Some entries ->
    map sweepWavelengthNm entries = ws.
Proof.
  induction ws as [| w ws IH]; simpl; intros entries H.
  - injection H as <-. reflexivity.
  - destruct (trace P g (Some w) fuel) as [res |]; [| discriminate].
    destruct (sweepOver P g fuel ws) as [rest |]; [| discriminate].
    injection H as <-. simpl. rewrite (IH rest eq_refl). reflexivity.
Qed.

End EngineSweep.

Section EngineTermination.

Import Engine.
Local Open Scope nat_scope.
Variable P : Params.
Variable g : Graph.

Lemma interact_length (c : Component) (r : Ray) :
  List.length (interact P c r) <= 2.
Proof.
  unfold interact. destruct (kind c); simpl; try lia.
  destruct (splitFactors _ _). simpl. lia.
Qed.

Lemma followSpecs_items (dest : Component) (r : Ray) (specs : list OutgoingRaySpec) :
  List.length (snd (followSpecs P dest r specs)) <= List.length specs
  /\ forall it, In it (snd (followSpecs P dest r specs)) ->
                exists o, In o specs /\ ray it = continuation P dest r o.
Proof.
  induction specs as [| o specs [IHl IHi]]; simpl.
  - split; [lia | intros it []].
  - destruct (isZeroVector (direction o)); simpl.
    + split; [lia |]. intros it Hin. destruct (IHi it Hin) as [o' [Ho' Hr]].
      exists o'. split; [right; exact Ho' | exact Hr].
    + split; [lia |]. intros it [<- | Hin].
      * exists o. split; [left; reflexivity | reflexivity].
      * destruct (IHi it Hin) as [o' [Ho' Hr]].
        exists o'. split; [right; exact Ho' | exact Hr].
Qed.

Lemma followSpecs_rays (dest : Component) (r : Ray) (specs : list OutgoingRaySpec) :
  forall r', In r' (rays (fst (followSpecs P dest r specs))) ->
             exists o, In o specs
                       /\ r' = terminate (continuation P dest r o) reasonDegenerate.
Proof.
  induction specs as [| o specs IH]; simpl.
  - intros r' [].
  - destruct (isZeroVector (direction o)); simpl.
    + intros r' [<- | Hin].
      * exists o. split; [left; reflexivity | reflexivity].
      * destruct (IH r' Hin) as [o' [Ho' Hr]].
        exists o'. split; [right; exact Ho' | exact Hr].
    + intros r' Hin. destruct (IH r' Hin) as [o' [Ho' Hr]].
      exists o'. split; [right; exact Ho' | exact Hr].
Qed.

Lemma follow_items (r : Ray) (e : Connection) :
  List.length (snd (follow P g r e)) <= 2
  /\ forall it, In it (snd (follow P g r e)) ->
                S (bounceCount r) <= maxBounces P
                /\ exists dest o,
                     findComponent g (toComponentId e) = Some dest
                     /\ In o (interact P dest r)
                     /\ ray it = continuation P dest r o.
Proof.
  unfold follow.
  destruct (findComponent g (toComponentId e)) as [dest |] eqn:Hd;
    [| simpl; split; [lia | intros it []]].
  assert (H : List.length
                (snd (if maxBounces P <? S (bounceCount r)
                      then (mkTraceResult [terminate r reasonMaxBounces] [] [], [])
                      else followSpecs P dest r (interact P dest r))) <= 2
              /\ forall it,
                   In it (snd (if maxBounces P <? S (bounceCount r)
                               then (mkTraceResult [terminate r reasonMaxBounces]
                                       [] [], [])
                               else followSpecs P dest r (interact P dest r))) ->
                   S (bounceCount r) <= maxBounces P
                   /\ exists dest' o,
                        Some dest = Some dest'
                        /\ In o (interact P dest' r)
                        /\ ray it = continuation P dest' r o).
  { destruct (maxBounces P <? S (bounceCount r)) eqn:Hcap;
      [simpl; split; [lia | intros it []] |].
    apply Nat.ltb_ge in Hcap.
    destruct (followSpecs_items dest r (interact P dest r)) as [Hl Hi].
    split; [pose proof (interact_length dest r); lia |].
    intros it Hin. destruct (Hi it Hin) as [o [Ho Hr]].
    split; [exact Hcap |].
    exists dest, o. split; [reflexivity | split; assumption]. }
  destruct (kind dest); try exact H;
    simpl; split; try lia; intros it [].
Qed.

Lemma follow_rays (r : Ray) (e : Connection) :
  forall r', In r' (rays (fst (follow P g r e))) -> followed P g r e r'.
Proof.
  unfold follow.
  destruct (findComponent g (toComponentId e)) as [dest |] eqn:Hd.
  - assert (H : forall r',
               In r' (rays (fst (if maxBounces P <? S (bounceCount r)
                                 then (mkTraceResult [terminate r reasonMaxBounces]
                                         [] [], [])
                                 else followSpecs P dest r (interact P dest r)))) ->
               followed P g r e r').
    { destruct (maxBounces P <? S (bounceCount r)) eqn:Hcap.
      - apply Nat.ltb_lt in Hcap. simpl. intros r' [<- | []].
        apply followed_capped. exact Hcap.
      - apply Nat.ltb_ge in Hcap.
        intros r' Hin. destruct (followSpecs_rays _ _ _ _ Hin) as [o [Ho ->]].
        apply (followed_degenerate P g r e dest o); assumption. }
    destruct (kind dest) eqn:Hk; try exact H.
    + simpl. intros r' [<- | []]. apply followed_nowhere.
    + simpl. intros r' [<- | []].
      apply (followed_absorbed P g r e dest); assumption.
  - simpl. intros r' [<- | []]. apply followed_nowhere.
Qed.

Lemma followAll_items (r : Ray) (es : list Connection) :
  List.length (snd (followAll P g r es)) <= 2 * List.length es
  /\ forall it, In it (snd (followAll P g r es)) ->
                exists e, In e es /\ In it (snd (follow P g r e)).
Proof.
  induction es as [| e es [IHl IHi]]; simpl.
  - split; [lia | intros it []].
  - split.
    + rewrite length_app. pose proof (proj1 (follow_items r e)). lia.
    + intros it Hin. apply in_app_or in Hin. destruct Hin as [Hin | Hin].
      * exists e. split; [left; reflexivity | exact Hin].
      * destruct (IHi it Hin) as [e' [He' Hit]].
        exists e'. split; [right; exact He' | exact Hit].
Qed.

Lemma followAll_rays (r : Ray) (es : list Connection) :
  forall r', In r' (rays (fst (followAll P g r es))) ->
             exists e, In e es /\ In r' (rays (fst (follow P g r e))).
Proof.
  induction es as [| e es IH]; simpl.
  - intros r' [].
  - intros r' Hin. apply in_app_or in Hin. destruct Hin as [Hin | Hin].
    + exists e. split; [left; reflexivity | exact Hin].
    + destruct (IH r' Hin) as [e' [He' Hr]].
      exists e'. split; [right; exact He' | exact Hr].
Qed.

Lemma outgoing_connections (cid : Z) (pid : string) :
  List.length (outgoing g cid pid) <= List.length (connections g)
  /\ forall e, In e (outgoing g cid pid) -> In e (connections g).
Proof.
  unfold outgoing. split.
  - apply filter_length_le.
  - intros e He. apply filter_In in He. tauto.
Qed.

Lemma process_rays (it : Item) :
  forall r', In r' (rays (fst (process P g it))) -> ended P g it r'.
Proof.
  unfold process.
  destruct (maxBounces P <? bounceCount (ray it)) eqn:Hb.
  { apply Nat.ltb_lt in Hb. simpl. intros r' [<- | []].
    apply ended_maxBounces. exact Hb. }
  apply Nat.ltb_ge in Hb.
  destruct (Qltb (intensity (ray it)) (epsilon P)) eqn:He.
  { simpl. intros r' [<- | []]. apply ended_attenuated; assumption. }
  destruct (outgoing g (currentComponentId it) (currentPortId it)) as [| e es] eqn:Ho.
  { simpl. intros r' [<- | []]. apply ended_openEnd; assumption. }
  change (forall r', In r' (rays (fst (followAll P g (ray it) (e :: es)))) -> ended P g it r').
  intros r' Hin. destruct (followAll_rays _ _ _ Hin) as [e' [He' Hr]].
  apply (ended_followed P g it e' r'); try assumption.
  - apply (proj2 (outgoing_connections (currentComponentId it) (currentPortId it))).
    rewrite Ho. exact He'.
  - apply follow_rays. exact Hr.
Qed.

Lemma process_items (it : Item) :
  List.length (snd (process P g it)) <= fanout g
  /\ forall it', In it' (snd (process P g it)) ->
                 S (bounceCount (ray it)) <= maxBounces P
                 /\ Qltb (intensity (ray it)) (epsilon P) = false
                 /\ exists dest o,
                      In dest (components g)
                      /\ In o (interact P dest (ray it))
                      /\ ray it' = continuation P dest (ray it) o.
Proof.
  unfold process.
  destruct (maxBounces P <? bounceCount (ray it)) eqn:Hb.
  { simpl. split; [lia | intros it' []]. }
  apply Nat.ltb_ge in Hb.
  destruct (Qltb (intensity (ray it)) (epsilon P)) eqn:He.
  { simpl. split; [lia | intros it' []]. }
  destruct (outgoing_connections (currentComponentId it) (currentPortId it))
    as [Hlen _].
  destruct (outgoing g (currentComponentId it) (currentPortId it)) as [| e es] eqn:Ho.
  { simpl. split; [lia | intros it' []]. }
  change (List.length (snd (followAll P g (ray it) (e :: es))) <= fanout g
          /\ forall it', In it' (snd (followAll P g (ray it) (e :: es))) ->
                         S (bounceCount (ray it)) <= maxBounces P
                         /\ false = false
                         /\ exists dest o,
                              In dest (components g)
                              /\ In o (interact P dest (ray it))
                              /\ ray it' = continuation P dest (ray it) o).
  destruct (followAll_items (ray it) (e :: es)) as [Hl Hi].
  split; [unfold fanout; lia |].
  intros it' Hin.
  destruct (Hi it' Hin) as [e' [_ Hit]].
  destruct (proj2 (follow_items (ray it) e') it' Hit)
    as [Hcap [dest [o [Hd [Ho' Hr]]]]].
  split; [exact Hcap | split; [reflexivity |]].
  exists dest, o. split; [| split; assumption].
  unfold findComponent in Hd. apply find_some in Hd. tauto.
Qed.

Lemma followSpecs_keeps (dest : Component) (r : Ray) (o : OutgoingRaySpec)
  (specs : list OutgoingRaySpec) :
  rays (fst (followSpecs P dest r (o :: specs))) <> []
  \/ snd (followSpecs P dest r (o :: specs)) <> [].
Proof.
  cbn [followSpecs fold_right].
  destruct (isZeroVector (direction o)); simpl; [left | right]; discriminate.
Qed.

(** [process] drops no ray: the ray ends, or it is continued. *)
Lemma process_keeps_ray (it : Item) :
  rays (fst (process P g it)) <> [] \/ snd (process P g it) <> [].
Proof.
  unfold process.
  destruct (maxBounces P <? bounceCount (ray it)); [left; discriminate |].
  destruct (Qltb (intensity (ray it)) (epsilon P)); [left; discriminate |].
  destruct (outgoing g (currentComponentId it) (currentPortId it))
    as [| e es] eqn:Ho; [left; discriminate |].
  assert (Hf : rays (fst (follow P g (ray it) e)) <> []
               \/ snd (follow P g (ray it) e) <> []).
  { unfold follow.
    destruct (findComponent g (toComponentId e)) as [dest |] eqn:Hd;
      [| left; discriminate].
    unfold interact.
    destruct (kind dest); try (left; discriminate);
      (destruct (maxBounces P <? S (bounceCount (ray it)));
       [left; discriminate |]);
      try apply followSpecs_keeps.
    destruct (splitFactors _ _). apply followSpecs_keeps. }
  cbn [followAll fold_right]. simpl.
  destruct Hf as [Hf | Hf]; [left | right]; intro H;
    apply app_eq_nil in H; destruct H as [H _]; contradiction.
Qed.

Lemma list_sum_bound {A : Type} (f : A -> nat) (l : list A) (m : nat) :
  (forall a, In a l -> f a <= m) ->
  list_sum (map f l) <= List.length l * m.
Proof.
  induction l as [| a l IH]; simpl; intro H; [lia |].
  pose proof (H a (or_introl eq_refl)).
  assert (list_sum (map f l) <= List.length l * m)
    by (apply IH; intros b Hb; apply H; right; exact Hb).
  lia.
Qed.

Lemma weight_pos (k : nat) : 1 <= weight g k.
Proof. destruct k; simpl; lia. Qed.

Lemma queueWeight_app (q1 q2 : list Item) :
  queueWeight P g (q1 ++ q2) = queueWeight P g q1 + queueWeight P g q2.
Proof.
  unfold queueWeight. rewrite map_app, list_sum_app. reflexivity.
Qed.

Lemma queueWeight_cons (it : Item) (rest : list Item) :
  queueWeight P g (it :: rest) = weight g (budget P it) + queueWeight P g rest.
Proof. reflexivity. Qed.

(** Processing an entry removes more weight than it queues. *)
Lemma process_weight (it : Item) :
  S (queueWeight P g (snd (process P g it))) <= weight g (budget P it).
Proof.
  destruct (process_items it) as [Hlen Hit].
  destruct (snd (process P g it)) as [| it0 rest] eqn:Hq.
  { simpl. apply weight_pos. }
  destruct (Hit it0 (or_introl eq_refl)) as [Hb _].
  unfold budget at 1.
  replace (S (maxBounces P) - bounceCount (ray it))
    with (S (maxBounces P - bounceCount (ray it))) by lia.
  cbn [weight].
  assert (Hsum : queueWeight P g (it0 :: rest)
                 <= List.length (it0 :: rest)
                    * weight g (maxBounces P - bounceCount (ray it))).
  { unfold queueWeight. apply list_sum_bound.
    intros it' Hin. destruct (Hit it' Hin) as [_ [_ [dest [o [_ [_ Hr]]]]]].
    unfold budget. rewrite Hr. simpl. apply Nat.eq_le_incl. f_equal. }
  assert (List.length (it0 :: rest) * weight g (maxBounces P - bounceCount (ray it))
          <= fanout g * weight g (maxBounces P - bounceCount (ray it)))
    by (apply Nat.mul_le_mono_r; exact Hlen).
  lia.
Qed.

(** Enough fuel: the queue's weight. *)
Lemma run_enough_fuel (fuel : nat) :
  forall queue acc,
    queueWeight P g queue <= fuel ->
    exists res, run P g fuel queue acc = Some res.
Proof.
  induction fuel as [| fuel IH]; intros queue acc Hw.
  - destruct queue as [| it rest]; [exists acc; reflexivity |].
    exfalso. rewrite queueWeight_cons in Hw.
    pose proof (weight_pos (budget P it)). lia.
  - destruct queue as [| it rest]; [exists acc; reflexivity |].
    simpl. apply IH. rewrite queueWeight_app.
    pose proof (process_weight it).
    rewrite queueWeight_cons in Hw. lia.
Qed.

(** A property of the queued rays that [process] passes on, and what it
    gives for the rays that end. *)
Lemma run_invariant (J : Item -> Prop) (I : Ray -> Prop) :
  (forall it, J it ->
              (forall it', In it' (snd (process P g it)) -> J it')
              /\ (forall r, In r (rays (fst (process P g it))) -> I r)) ->
  forall fuel queue acc res,
    (forall it, In it queue -> J it) ->
    (forall r, In r (rays acc) -> I r) ->
    run P g fuel queue acc = Some res ->
    forall r, In r (rays res) -> I r.
Proof.
  intros Hstep. induction fuel as [| fuel IH]; intros queue acc res Hq Hacc Hrun.
  - destruct queue; [| discriminate]. injection Hrun as <-. exact Hacc.
  - destruct queue as [| it rest]; [injection Hrun as <-; exact Hacc |].
    simpl in Hrun.
    destruct (Hstep it (Hq it (or_introl eq_refl))) as [Hchildren Hended].
    apply (IH _ _ _) with (3 := Hrun).
    + intros it' Hin. apply in_app_or in Hin. destruct Hin as [Hin | Hin].
      * apply Hq. right. exact Hin.
      * apply Hchildren. exact Hin.
    + intros r Hin. simpl in Hin. apply in_app_or in Hin.
      destruct Hin as [Hin | Hin]; [apply Hacc | apply Hended]; exact Hin.
Qed.

End EngineTermination.

Section EngineBounces.

Import Engine.
Local Open Scope string_scope.
Local Open Scope list_scope.
Local Open Scope nat_scope.

Lemma seeds_fresh (P : Params) (g : Graph) (w : option Q) :
  forall it, In it (seeds P g w) ->
             bounceCount (ray it) = 0
             /\ exists c, In c (components g) /\ isSource c = true
                          /\ originComponentId (ray it) = id c
                          /\ intensity (ray it) = prop c "power".
Proof.
  unfold seeds. intros it Hin. apply in_flat_map in Hin.
  destruct Hin as [c [Hc Hit]]. apply filter_In in Hc. destruct Hc as [Hc Hs].
  unfold seedsOf in Hit. apply repeat_spec in Hit. subst it. simpl.
  split; [reflexivity |]. exists c. repeat split; assumption.
Qed.

(** More fuel does not change a result. *)
Lemma run_more_fuel (P : Params) (g : Graph) (fuel : nat) :
  forall fuel' queue acc res,
    run P g fuel queue acc = Some res -> fuel <= fuel' ->
    run P g fuel' queue acc = Some res.
Proof.
  induction fuel as [| fuel IH]; intros fuel' queue acc res Hrun Hle.
  - destruct queue; [| discriminate]. destruct fuel'; exact Hrun.
  - destruct queue as [| it rest]; [destruct fuel'; exact Hrun |].
    destruct fuel' as [| fuel']; [lia |].
    simpl in *. apply IH; [exact Hrun | lia].
Qed.

Lemma trace_enough_fuel (P : Params) (g : Graph) (w : option Q) :
  exists res,
    forall fuel, traceFuel P g w <= fuel -> trace P g w fuel = Some res.
Proof.
  destruct (run_enough_fuel P g (traceFuel P g w) (seeds P g w) emptyResult
              (Nat.le_refl _)) as [res Hres].
  exists res. intros fuel Hle. unfold trace.
  apply (run_more_fuel P g (traceFuel P g w)); assumption.
Qed.

Lemma queueWeight_seedsOf (P : Params) (g : Graph) (w : option Q) (c : Component) :
  queueWeight P g (seedsOf P w c) = queueWeight P g (seedsOf P None c).
Proof.
  unfold seedsOf. generalize (S (coneRays P)) as n.
  induction n as [| n IH]; [reflexivity |].
  cbn [repeat]. rewrite !queueWeight_cons, IH. reflexivity.
Qed.

(** The fuel a trace needs does not depend on the wavelength. *)
Lemma traceFuel_override (P : Params) (g : Graph) (w : option Q) :
  traceFuel P g w = traceFuel P g None.
Proof.
  unfold traceFuel, seeds.
  induction (filter isSource (components g)) as [| c cs IH]; [reflexivity |].
  cbn [flat_map]. rewrite !queueWeight_app, IH, queueWeight_seedsOf.
  reflexivity.
Qed.

Lemma loopGraph_atCap :
  atCap sampleParams (trace sampleParams loopGraph None 1000) = true.
Proof. vm_compute. reflexivity. Qed.

Lemma extends_terminate (r : Ray) (why : Reason) : extends r (terminate r why).
Proof.
  split; [reflexivity | split; [exists []; symmetry; apply app_nil_r |]].
  simpl. lia.
Qed.

Lemma extends_trans (r1 r2 r3 : Ray) :
  extends r1 r2 -> extends r2 r3 -> extends r1 r3.
Proof.
  intros [Ho [[m1 Hp] Hb]] [Ho' [[m2 Hp'] Hb']].
  split; [congruence | split; [| lia]].
  exists (m1 ++ m2). rewrite Hp', Hp, app_assoc. reflexivity.
Qed.

Lemma extends_continuation (P : Params) (dest : Component) (r : Ray)
  (o : OutgoingRaySpec) :
  extends r (continuation P dest r o).
Proof.
  split; [reflexivity | split; [eexists; reflexivity | simpl; lia]].
Qed.

(** A ray that ends in [process] is the processed ray carried to its end. *)
Lemma ended_endsAs (P : Params) (g : Graph) (it : Item) (r : Ray) :
  ended P g it r -> endsAs (ray it) r.
Proof.
  intro H. destruct H as [Hb | Hb He | Hb He | e r' Hb He Hin Hf];
    try (split; [apply extends_terminate | reflexivity]).
  destruct Hf as [| Hcap | dest Hd Hk | dest o Hd Ho Hcap];
    try (split; [apply extends_terminate | reflexivity]).
  - split; [| reflexivity].
    split; [reflexivity | split; [eexists; reflexivity | simpl; lia]].
  - split; [| reflexivity].
    apply (extends_trans _ (continuation P dest (ray it) o));
      [apply extends_continuation | apply extends_terminate].
Qed.

(** What [process] makes of a ray: its end, or a continuation. *)
Lemma process_carries_on (P : Params) (g : Graph) (it : Item) :
  (exists r, In r (rays (fst (process P g it))) /\ endsAs (ray it) r)
  \/ (exists it', In it' (snd (process P g it)) /\ extends (ray it) (ray it')).
Proof.
  destruct (process_keeps_ray P g it) as [H | H].
  - left. destruct (rays (fst (process P g it))) as [| r rest] eqn:E;
      [contradiction |].
    exists r. split; [left; reflexivity |].
    apply (ended_endsAs P g). apply process_rays. rewrite E. left. reflexivity.
  - right. destruct (snd (process P g it)) as [| it' rest] eqn:E;
      [contradiction |].
    exists it'. split; [left; reflexivity |].
    destruct (proj2 (process_items P g it) it') as [_ [_ [dest [o [_ [_ Hr]]]]]];
      [rewrite E; left; reflexivity |].
    rewrite Hr. apply extends_continuation.
Qed.

Lemma reached_nil (P : Params) (g : Graph) (it : Item) : ~ reached P g [] it.
Proof. intro H. induction H as [it [] | parent it _ IH _]; exact IH. Qed.

Lemma reached_cons (P : Params) (g : Graph) (it0 : Item) (rest : list Item)
  (it : Item) :
  reached P g (it0 :: rest) it ->
  it = it0 \/ reached P g (rest ++ snd (process P g it0)) it.
Proof.
  intro H. induction H as [it [<- | Hin] | parent it _ IH Hin].
  - left. reflexivity.
  - right. apply reached_queued. apply in_or_app. left. exact Hin.
  - right. destruct IH as [-> | IH].
    + apply reached_queued. apply in_or_app. right. exact Hin.
    + apply (reached_continued P g _ parent); assumption.
Qed.

(** A run that returns has carried every ray it created to an end, and has
    kept the rays that had ended before. *)
Lemma run_ends (P : Params) (g : Graph) (fuel : nat) :
  forall queue acc res,
    run P g fuel queue acc = Some res ->
    (forall r, In r (rays acc) -> In r (rays res))
    /\ forall it, reached P g queue it ->
                  exists r, In r (rays res) /\ endsAs (ray it) r.
Proof.
  induction fuel as [| fuel IH]; intros queue acc res Hrun.
  - destruct queue; [| discriminate]. injection Hrun as <-.
    split; [intros r Hr; exact Hr |].
    intros it Hit. destruct (reached_nil P g it Hit).
  - destruct queue as [| it0 rest].
    + injection Hrun as <-. split; [intros r Hr; exact Hr |].
      intros it Hit. destruct (reached_nil P g it Hit).
    + simpl in Hrun. destruct (IH _ _ _ Hrun) as [Hacc Hq].
      assert (Hkept : forall r, In r (rays (fst (process P g it0))) ->
                                In r (rays res)).
      { intros r Hr. apply Hacc. simpl. apply in_or_app. right. exact Hr. }
      split.
      * intros r Hr. apply Hacc. simpl. apply in_or_app. left. exact Hr.
      * intros it Hit. apply reached_cons in Hit. destruct Hit as [-> | Hit];
          [| apply Hq; exact Hit].
        destruct (process_carries_on P g it0) as [[r [Hr He]] | [it' [Hin He]]].
        -- exists r. split; [apply Hkept; exact Hr | exact He].
        -- destruct (Hq it') as [r [Hr [Hext Hterm]]].
           { apply reached_queued. apply in_or_app. right. exact Hin. }
           exists r. split; [exact Hr |].
           split; [exact (extends_trans _ _ _ He Hext) | exact Hterm].
Qed.

Lemma reached_bounces (P : Params) (g : Graph) (queue : list Item) (it : Item) :
  (forall it0, In it0 queue -> bounceCount (ray it0) <= maxBounces P) ->
  reached P g queue it -> bounceCount (ray it) <= maxBounces P.
Proof.
  intros Hq H. induction H as [it Hin | parent it _ _ Hin].
  - apply Hq. exact Hin.
  - destruct (proj2 (process_items P g parent) it Hin)
      as [Hcap [_ [dest [o [_ [_ Hr]]]]]].
    rewrite Hr. simpl. exact Hcap.
Qed.

(** C6: on every graph, cyclic or not, [trace] returns once it has the fuel
    [traceFuel] (and the same result with any more); every ray it returns
    is terminated, with a reason, and with a bounce count of at most the
    maximum; and every ray the trace creates, a seed or a continuation, has
    at most the maximum of bounces and is carried on to a terminated ray of
    the result. *)
Theorem trace_terminates :
  forall (P : Params) (g : Graph) (w : option Q),
    (exists res,
        forall fuel, traceFuel P g w <= fuel -> trace P g w fuel = Some res)
    /\ (forall fuel res,
           trace P g w fuel = Some res ->
           (forall r, In r (rays res) ->
                      terminated r = true
                      /\ (exists why, terminationReason r = Some why)
                      /\ bounceCount r <= maxBounces P)
           /\ (forall it, created P g w it ->
                          bounceCount (ray it) <= maxBounces P
                          /\ exists r, In r (rays res) /\ endsAs (ray it) r)).
Proof.
  intros P g w. split.
  - apply trace_enough_fuel.
  - intros fuel res Hrun. split.
    + apply (run_invariant P g
               (fun it => bounceCount (ray it) <= maxBounces P)
               (fun r => terminated r = true
                         /\ (exists why, terminationReason r = Some why)
                         /\ bounceCount r <= maxBounces P))
        with (4 := Hrun).
      * intros it Hit. split.
        -- intros it' Hin.
           destruct (proj2 (process_items P g it) it' Hin)
             as [Hb [_ [dest [o [_ [_ Hr]]]]]].
           rewrite Hr. simpl. exact Hb.
        -- intros r Hin. apply process_rays in Hin.
           destruct Hin as [Hb | Hb He | Hb He | e r' Hb He Hin Hf].
           ++ simpl. repeat split; [eexists; reflexivity | exact Hit].
           ++ simpl. repeat split; [eexists; reflexivity | lia].
           ++ simpl. repeat split; [eexists; reflexivity | lia].
           ++ destruct Hf as [| Hcap | dest Hd Hk | dest o Hd Ho Hcap]; simpl;
                (repeat split; [eexists; reflexivity | lia]).
      * intros it Hin. destruct (seeds_fresh P g w it Hin) as [-> _]. lia.
      * intros r [].
    + intros it Hit. split.
      * apply (reached_bounces P g (seeds P g w)); [| exact Hit].
        intros it0 Hin. destruct (seeds_fresh P g w it0 Hin) as [-> _]. lia.
      * exact (proj2 (run_ends P g fuel _ _ _ Hrun) it Hit).
Qed.

(** The trace of the looping graph returns; its rays are terminated, with
    at most 50 bounces. *)
Lemma trace_terminates_witness :
  exists res,
    trace sampleParams loopGraph None 1000 = Some res
    /\ forall r, In r (rays res) ->
                 terminated r = true
                 /\ (exists why, terminationReason r = Some why)
                 /\ bounceCount r <= 50.
Proof.
  destruct (trace sampleParams loopGraph None 1000) as [res |] eqn:Htrace.
  - exists res. split; [reflexivity |].
    exact (proj1 (proj2 (trace_terminates sampleParams loopGraph None)
                    1000 res Htrace)).
  - pose proof loopGraph_atCap as Hcap. rewrite Htrace in Hcap.
    discriminate Hcap.
Defined.

End EngineBounces.

Section EngineIntensity.

Import Engine.
Local Open Scope string_scope.
Local Open Scope list_scope.
Local Open Scope Q_scope.

Lemma Qltb_true (a b : Q) : Qltb a b = true <-> a < b.
Proof.
  unfold Qltb. rewrite negb_true_iff. split.
  - intro H. apply Qnot_le_lt. intro Hle. apply Qle_bool_iff in Hle. congruence.
  - intro H. destruct (Qle_bool b a) eqn:E; [| reflexivity].
    apply Qle_bool_iff in E. exfalso. apply (Qlt_not_le _ _ H E).
Qed.

Lemma Qltb_false (a b : Q) : Qltb a b = false <-> b <= a.
Proof.
  unfold Qltb. rewrite negb_false_iff. apply Qle_bool_iff.
Qed.

Lemma inUnit_true (q : Q) : inUnit q = true <-> 0 <= q /\ q <= 1.
Proof.
  unfold inUnit. rewrite andb_true_iff, !Qle_bool_iff. reflexivity.
Qed.

Lemma scaled_within (i f : Q) :
  0 <= i -> 0 <= f -> f <= 1 -> 0 <= i * f /\ i * f <= i.
Proof. intros. split; nra. Qed.

(** The two branches of a beam splitter share at most the whole. *)
Lemma splitFactors_range (r t : Q) :
  0 <= r -> r <= 1 -> 0 <= t -> t <= 1 ->
  0 <= fst (splitFactors r t) /\ fst (splitFactors r t) <= 1
  /\ 0 <= snd (splitFactors r t) /\ snd (splitFactors r t) <= 1
  /\ fst (splitFactors r t) + snd (splitFactors r t) <= 1.
Proof.
  intros Hr0 Hr1 Ht0 Ht1. unfold splitFactors.
  destruct (Qltb 1 (r + t)) eqn:E; simpl.
  - apply Qltb_true in E.
    assert (Hpos : 0 < r + t) by lra.
    repeat split.
    + apply Qle_shift_div_l; lra.
    + apply Qle_shift_div_r; lra.
    + apply Qle_shift_div_l; lra.
    + apply Qle_shift_div_r; lra.
    + assert (Heq : r / (r + t) + t / (r + t) == 1) by (field; lra).
      rewrite Heq. apply Qle_refl.
  - apply Qltb_false in E. repeat split; lra.
Qed.

(** Every factor of [interact] lies in [0,1], and the factors of one
    interaction add up to at most 1. *)
Lemma interact_factors (P : Params) (c : Component) (r : Ray) :
  lossesInRange P -> propertiesOk c = true ->
  (forall o, In o (interact P c r) ->
             0 <= intensityFactor o /\ intensityFactor o <= 1)
  /\ Qsum (map intensityFactor (interact P c r)) <= 1.
Proof.
  intros [Hf [Hl0 Hl1]] Hok. unfold propertiesOk, interact in *.
  destruct (kind c).
  - simpl. split; [intros o [] | lra].
  - apply inUnit_true in Hok. destruct Hok as [H0 H1].
    destruct (Hf c r) as [Hf0 Hf1].
    assert (Hm : 0 <= prop c "reflectivity" * fresnel P c r
                 /\ prop c "reflectivity" * fresnel P c r
                    <= prop c "reflectivity")
      by (apply scaled_within; assumption).
    simpl. split.
    + intros o [<- | []]. simpl. split; lra.
    + lra.
  - apply andb_true_iff in Hok. destruct Hok as [Hr Ht].
    apply inUnit_true in Hr. apply inUnit_true in Ht.
    destruct Hr as [Hr0 Hr1]. destruct Ht as [Ht0 Ht1].
    pose proof (splitFactors_range _ _ Hr0 Hr1 Ht0 Ht1) as Hs.
    destruct (splitFactors (prop c "reflectivity") (prop c "transmissivity"))
      as [fr ft].
    simpl in Hs. simpl. split.
    + intros o [<- | [<- | []]]; simpl; split; lra.
    + lra.
  - simpl. split.
    + intros o [<- | []]. simpl. split; lra.
    + lra.
  - simpl. split; [intros o [] | lra].
Qed.

Lemma Qsum_scaled (i : Q) (fs : list Q) :
  Qsum (map (fun f => i * f) fs) == i * Qsum fs.
Proof.
  induction fs as [| f fs IH]; simpl.
  - ring.
  - rewrite IH. ring.
Qed.

Lemma validProperties_component (g : Graph) (c : Component) :
  validProperties g = true -> In c (components g) -> propertiesOk c = true.
Proof.
  unfold validProperties. rewrite forallb_forall. intros H Hin. apply H, Hin.
Qed.

(** The spec's scenario of a single source without connections: the primary
    ray and the two cone rays each end as an open end, nothing is read. *)
Example loneSource_open_ends :
  outcome 1 (trace sampleParams loneSource None 10)
  = Some ([ (Some reasonOpenEnd, O); (Some reasonOpenEnd, O);
            (Some reasonOpenEnd, O) ], true, []).
Proof. vm_compute. reflexivity. Qed.

(** The spec's scenario source, mirror (reflectivity 0.9), detector: every
    ray is absorbed after one bounce with intensity 0.9 (no Fresnel loss in
    [sampleParams]) and read by detector 3. *)
Example chainGraph_absorbed :
  outcome (9 # 10) (trace sampleParams chainGraph None 100)
  = Some ([ (Some reasonAbsorbed, 1%nat); (Some reasonAbsorbed, 1%nat);
            (Some reasonAbsorbed, 1%nat) ], true, [3%Z; 3%Z; 3%Z]).
Proof. vm_compute. reflexivity. Qed.

Lemma sampleParams_lossesInRange : lossesInRange sampleParams.
Proof.
  unfold lossesInRange, sampleParams. simpl.
  split; [intros _ _; split; lra | split; lra].
Qed.

Lemma Qsum_app (xs ys : list Q) : Qsum (xs ++ ys) == Qsum xs + Qsum ys.
Proof.
  induction xs as [| x xs IH]; simpl.
  - ring.
  - rewrite IH. ring.
Qed.

(** The rays [followSpecs] makes of a ray share out its intensity by the
    factors. *)
Lemma followSpecs_produced (P : Params) (dest : Component) (r : Ray)
  (specs : list OutgoingRaySpec) :
  Qsum (map intensity (produced (followSpecs P dest r specs)))
  == intensity r * Qsum (map intensityFactor specs).
Proof.
  unfold produced. induction specs as [| o specs IH]; simpl.
  - ring.
  - rewrite map_app, Qsum_app in IH.
    destruct (isZeroVector (direction o)); simpl;
      rewrite map_app, Qsum_app; simpl;
      set (ended := Qsum (map intensity
                            (rays (fst (followSpecs P dest r specs))))) in *;
      set (queued := Qsum (map intensity
                             (map ray (snd (followSpecs P dest r specs))))) in *;
      set (rest := Qsum (map intensityFactor specs)) in *;
      nra.
Qed.

(** The spec's scenario of a source into an even beam splitter with a
    detector on each branch: every emitted ray gives two absorbed rays of
    intensity one half, read by the detectors 3 and 4. *)
Example splitterGraph_absorbed :
  outcome (1 # 2) (trace sampleParams splitterGraph None 100)
  = Some ([ (Some reasonAbsorbed, 1%nat); (Some reasonAbsorbed, 1%nat);
            (Some reasonAbsorbed, 1%nat); (Some reasonAbsorbed, 1%nat);
            (Some reasonAbsorbed, 1%nat); (Some reasonAbsorbed, 1%nat) ],
          true, [4%Z; 3%Z; 4%Z; 3%Z; 4%Z; 3%Z]).
Proof. vm_compute. reflexivity. Qed.

(** C5: with loss terms that are losses, one interaction with a validated
    component gives every outgoing ray an intensity between 0 and the
    incoming one, and the outgoing intensities add up to at most the
    incoming one; this holds of the rays the tracer makes: the rays a ray
    produces in following one connection (those that end there and those
    queued) have intensities that add up to at most its own; every
    continuation [process] queues, and every ray it ends, is at most as
    intense as the ray processed; and every ray of a trace of a validated
    graph has an intensity between 0 and the power of the source it started
    from. *)
Theorem intensity_never_increases :
  forall (P : Params),
    lossesInRange P ->
    (forall c r,
        propertiesOk c = true -> 0 <= intensity r ->
        (forall o, In o (interact P c r) ->
                   0 <= intensity r * intensityFactor o
                   /\ intensity r * intensityFactor o <= intensity r)
        /\ Qsum (map (fun o => intensity r * intensityFactor o) (interact P c r))
           <= intensity r)
    /\ (forall g r e,
           validProperties g = true -> 0 <= intensity r ->
           Qsum (map intensity (produced (follow P g r e))) <= intensity r)
    /\ (forall g it,
           validProperties g = true -> 0 <= intensity (ray it) ->
           (forall it', In it' (snd (process P g it)) ->
                        0 <= intensity (ray it')
                        /\ intensity (ray it') <= intensity (ray it))
           /\ (forall r', In r' (rays (fst (process P g it))) ->
                          0 <= intensity r'
                          /\ intensity r' <= intensity (ray it)))
    /\ (forall g w fuel res,
           validProperties g = true ->
           trace P g w fuel = Some res ->
           forall r, In r (rays res) -> withinPower g r).
Proof.
  intros P HP.
  assert (Hcont : forall g dest r o,
             validProperties g = true -> In dest (components g) ->
             In o (interact P dest r) -> 0 <= intensity r ->
             0 <= intensity (continuation P dest r o)
             /\ intensity (continuation P dest r o) <= intensity r).
  { intros g dest r o Hv Hd Ho Hi. simpl.
    destruct (interact_factors P dest r HP (validProperties_component g dest Hv Hd))
      as [Hf _].
    destruct (Hf o Ho) as [H0 H1]. apply scaled_within; assumption. }
  assert (Hproc : forall g it,
             validProperties g = true -> 0 <= intensity (ray it) ->
             (forall it', In it' (snd (process P g it)) ->
                          0 <= intensity (ray it')
                          /\ intensity (ray it') <= intensity (ray it))
             /\ (forall r', In r' (rays (fst (process P g it))) ->
                            0 <= intensity r'
                            /\ intensity r' <= intensity (ray it))).
  { intros g it Hv Hi. split.
    - intros it' Hin.
      destruct (proj2 (process_items P g it) it' Hin)
        as [_ [_ [dest [o [Hd [Ho Hr]]]]]].
      rewrite Hr. apply (Hcont g); assumption.
    - intros r' Hin. apply process_rays in Hin.
      destruct Hin as [Hb | Hb He | Hb He | e r' Hb He Hin Hf];
        try (simpl; split; [exact Hi | apply Qle_refl]).
      destruct Hf as [| Hcap | dest Hd Hk | dest o Hd Ho Hcap];
        try (simpl; split; [exact Hi | apply Qle_refl]).
      change (intensity (terminate (continuation P dest (ray it) o)
                           reasonDegenerate))
        with (intensity (continuation P dest (ray it) o)).
      apply (Hcont g); try assumption.
      unfold findComponent in Hd. apply find_some in Hd. tauto. }
  split; [| split; [| split]].
  - intros c r Hok Hi.
    destruct (interact_factors P c r HP Hok) as [Hf Hs]. split.
    + intros o Ho. destruct (Hf o Ho) as [H0 H1].
      apply scaled_within; assumption.
    + rewrite <- (map_map intensityFactor (fun f => intensity r * f)).
      rewrite Qsum_scaled. nra.
  - intros g r e Hv Hi. unfold follow.
    assert (Hone : forall why,
               Qsum (map intensity
                       (produced (mkTraceResult [terminate r why] [] [],
                                  @nil Item)))
               <= intensity r).
    { intro why. unfold produced. simpl. lra. }
    destruct (findComponent g (toComponentId e)) as [dest |] eqn:Hd;
      [| apply Hone].
    assert (Hdest : propertiesOk dest = true).
    { apply (validProperties_component g); [exact Hv |].
      unfold findComponent in Hd. apply find_some in Hd. tauto. }
    assert (Hspecs : Qsum (map intensity
                             (produced
                                (if (maxBounces P <? S (bounceCount r))%nat
                                 then (mkTraceResult
                                         [terminate r reasonMaxBounces] [] [], [])
                                 else followSpecs P dest r (interact P dest r))))
                     <= intensity r).
    { destruct (maxBounces P <? S (bounceCount r))%nat; [apply Hone |].
      rewrite followSpecs_produced.
      destruct (interact_factors P dest r HP Hdest) as [_ Hs]. nra. }
    destruct (kind dest); try exact Hspecs; try apply Hone.
    unfold produced. simpl. lra.
  - exact Hproc.
  - intros g w fuel res Hv Hrun.
    apply (run_invariant P g (fun it => withinPower g (ray it)) (withinPower g))
      with (4 := Hrun).
    + intros it [c [Hc [Hs [Ho [H0 H1]]]]].
      destruct (Hproc g it Hv H0) as [Hitems Hrays]. split.
      * intros it' Hin. destruct (Hitems it' Hin) as [H0' H1'].
        destruct (proj2 (process_items P g it) it' Hin)
          as [_ [_ [dest [o [_ [_ Hr]]]]]].
        exists c. repeat split; try assumption.
        -- rewrite Hr. simpl. exact Ho.
        -- apply (Qle_trans _ _ _ H1' H1).
      * intros r' Hin. destruct (Hrays r' Hin) as [H0' H1'].
        exists c. repeat split; try assumption.
        -- apply process_rays in Hin.
           destruct Hin as [Hb | Hb He | Hb He | e r' Hb He Hin Hf];
             try exact Ho.
           destruct Hf; exact Ho.
        -- apply (Qle_trans _ _ _ H1' H1).
    + intros it Hin. destruct (seeds_fresh P g w it Hin) as [_ [c [Hc [Hs [Ho Hi]]]]].
      exists c. repeat split; try assumption.
      * rewrite Hi. pose proof (validProperties_component g c Hv Hc) as Hok.
        unfold propertiesOk in Hok. unfold isSource in Hs.
        destruct (kind c); try discriminate. apply Qle_bool_iff. exact Hok.
      * rewrite Hi. apply Qle_refl.
    + intros r [].
Qed.

(** The splitter: the two rays the emitted ray produces at the beam
    splitter share at most its intensity, and every ray of the trace is
    within the power of the source. *)
Lemma intensity_never_increases_witness :
  lossesInRange sampleParams
  /\ validProperties splitterGraph = true
  /\ List.length
       (produced (follow sampleParams splitterGraph unitRay
                    (mkConnection 1 "out" 2 "in"))) = 2%nat
  /\ Qsum (map intensity
             (produced (follow sampleParams splitterGraph unitRay
                          (mkConnection 1 "out" 2 "in"))))
     <= intensity unitRay
  /\ exists res,
       trace sampleParams splitterGraph None 100 = Some res
       /\ forall r, In r (rays res) -> withinPower splitterGraph r.
Proof.
  split; [exact sampleParams_lossesInRange | split; [reflexivity |]].
  split; [reflexivity |].
  split.
  - apply (proj1 (proj2 (intensity_never_increases sampleParams
                           sampleParams_lossesInRange))).
    + reflexivity.
    + discriminate.
  - destruct (trace sampleParams splitterGraph None 100) as [res |] eqn:Htrace.
    + exists res. split; [reflexivity |].
      exact (proj2 (proj2 (proj2 (intensity_never_increases sampleParams
                                    sampleParams_lossesInRange)))
               splitterGraph None 100%nat res eq_refl Htrace).
    + vm_compute in Htrace. discriminate Htrace.
Defined.

End EngineIntensity.

Section EngineSweepSamples.

Import Engine.
Local Open Scope list_scope.
Local Open Scope Q_scope.

Lemma sweepOver_enough_fuel (P : Params) (g : Graph) (ws : list Q) :
  exists entries,
    forall fuel, (traceFuel P g None <= fuel)%nat ->
                 sweepOver P g fuel ws = Some entries.
Proof.
  induction ws as [| w ws [rest IH]].
  - exists []. reflexivity.
  - destruct (trace_enough_fuel P g (Some w)) as [res Hres].
    exists (mkSweepEntry w (readings res) :: rest).
    intros fuel Hle. simpl.
    rewrite Hres by (rewrite traceFuel_override; exact Hle).
    rewrite (IH fuel Hle). reflexivity.
Qed.

Lemma nth_sample (a step : Q) (n i : nat) :
  (i < n)%nat ->
  nth i (map (fun i => a + ofNat i * step) (seq 0 n)) 0 = a + ofNat i * step.
Proof.
  intro Hi.
  rewrite (nth_indep _ 0 (a + ofNat O * step))
    by (rewrite length_map, length_seq; exact Hi).
  pose proof (map_nth (fun i => a + ofNat i * step) (seq 0 n) O i) as H.
  cbv beta in H. rewrite H, seq_nth by exact Hi. reflexivity.
Qed.

(** C7: with [points = 1] the sweep samples the single wavelength
    [(startNm + stopNm) / 2]; with [points = N >= 2] it samples [N]
    wavelengths, the i-th being [startNm + i (stopNm - startNm) / (N - 1)]:
    the first is [startNm], the last is [stopNm], and neighbours are
    [(stopNm - startNm) / (N - 1)] apart.  [sweep] returns one entry per
    sampled wavelength, in that order, once it has the fuel of one trace. *)
Theorem sweep_samples_wavelengths :
  (forall a b, sampleWavelengths (mkSweepConfig a b 1) = [(a + b) / 2])
  /\ (forall a b n,
         let ws := sampleWavelengths (mkSweepConfig a b (S (S n))) in
         let step := (b - a) / ofNat (S n) in
         List.length ws = S (S n)
         /\ nth O ws 0 == a
         /\ nth (S n) ws 0 == b
         /\ forall i, (i <= n)%nat ->
                      nth i ws 0 == a + ofNat i * step
                      /\ nth (S i) ws 0 - nth i ws 0 == step)
  /\ (forall P g config,
         (exists entries,
             forall fuel, (traceFuel P g None <= fuel)%nat ->
                          sweep P g config fuel = Some entries)
         /\ forall fuel entries,
              sweep P g config fuel = Some entries ->
              map sweepWavelengthNm entries = sampleWavelengths config).
Proof.
  split; [reflexivity | split].
  - intros a b n ws step. unfold ws.
    rewrite sampleWavelengths_two_or_more. fold step.
    pose proof (ofNat_S_pos n) as Hpos.
    split; [rewrite length_map, length_seq; reflexivity |].
    split; [| split].
    + rewrite nth_sample by lia. unfold ofNat. simpl. ring.
    + rewrite nth_sample by lia. unfold step. field. lra.
    + intros i Hi. rewrite !nth_sample by lia. split; [reflexivity |].
      unfold ofNat. rewrite Nat2Z.inj_succ. unfold Z.succ.
      rewrite inject_Z_plus. ring.
  - intros P g config. split.
    + apply sweepOver_enough_fuel.
    + intros fuel entries H. apply (sweepOver_wavelengths P g fuel). exact H.
Qed.

(** Four points over 400 nm to 700 nm. *)
Lemma sweep_samples_wavelengths_witness :
  nth 1 (sampleWavelengths (mkSweepConfig 400 700 4)) 0 == 500
  /\ nth 3 (sampleWavelengths (mkSweepConfig 400 700 4)) 0 == 700.
Proof.
  destruct (proj1 (proj2 sweep_samples_wavelengths) 400 700 2%nat)
    as [_ [_ [Hlast Hnth]]].
  cbv zeta in Hlast, Hnth.
  split; [| exact Hlast].
  destruct (Hnth 1%nat (le_S _ _ (le_n 1))) as [H1 _].
  rewrite H1. reflexivity.
Defined.

End EngineSweepSamples.

Section EngineStatistics.

Import Engine.
Local Open Scope list_scope.
Local Open Scope Q_scope.

Lemma filter_twice {A : Type} (f : A -> bool) (l : list A) :
  filter f (filter f l) = filter f l.
Proof.
  induction l as [| a l IH]; simpl; [reflexivity |].
  destruct (f a) eqn:E; simpl; [rewrite E, IH; reflexivity | exact IH].
Qed.

(** C8: [aggregate] always returns (no division fault); over a sequence
    with absorbed rays, [averageIntensity] is the sum of their final
    intensities divided by their number (so that the average times the
    number is the sum), and no warning is added; over a sequence without
    absorbed rays it is 0 and the warning is added; the rays that were not
    absorbed do not count: the absorbed rays alone give the same average and
    the same warnings. *)
Theorem aggregate_averageIntensity :
  forall (P : Params) (allRays : list Ray),
    let absorbed := filter isAbsorbed allRays in
    exists stats warns,
      aggregate P allRays = Some (stats, warns)
      /\ totalRays stats = List.length (filter terminated allRays)
      /\ match absorbed with
         | [] => averageIntensity stats = 0 /\ warns = [noAbsorbedWarning]
         | _ :: _ =>
             averageIntensity stats
             = Qsum (map intensity absorbed) / ofNat (List.length absorbed)
             /\ averageIntensity stats * ofNat (List.length absorbed)
                == Qsum (map intensity absorbed)
             /\ warns = []
         end
      /\ exists stats',
           aggregate P absorbed = Some (stats', warns)
           /\ averageIntensity stats' = averageIntensity stats.
Proof.
  intros P allRays absorbed.
  assert (Hsame : filter isAbsorbed absorbed = absorbed)
    by apply filter_twice.
  unfold aggregate. rewrite Hsame. fold absorbed.
  destruct absorbed as [| r rest] eqn:Habs.
  - eexists. eexists. split; [reflexivity |]. simpl. repeat split.
    eexists. split; reflexivity.
  - eexists. eexists. split; [reflexivity |].
    cbn [divide List.length totalRays averageIntensity].
    repeat split.
    + field. pose proof (ofNat_S_pos (List.length rest)) as Hpos.
      intro H0. rewrite H0 in Hpos. apply (Qlt_irrefl 0). exact Hpos.
    + eexists. split; reflexivity.
Qed.

End EngineStatistics.

(** * Further properties of the editor *)

Section EditorPorts.

Local Open Scope string_scope.
Local Open Scope list_scope.
Local Open Scope R_scope.

Lemma add_NaN_r (a : App.number) : App.add a App.NaN = App.NaN.
Proof. destruct a; reflexivity. Qed.

Lemma mul_NaN_r (a : App.number) : App.mul a App.NaN = App.NaN.
Proof. destruct a; reflexivity. Qed.

Lemma distance_NaN (x y px : App.number) :
  App.distance x y px App.NaN = App.NaN.
Proof.
  unfold App.distance, App.sqr, App.sub. simpl (App.neg App.NaN).
  rewrite (add_NaN_r y). simpl (App.mul App.NaN App.NaN).
  rewrite add_NaN_r. reflexivity.
Qed.

(** With the angle NaN both coordinates of every port are NaN. *)
Lemma getPortWorldPosition_NaN (c : App.Component.t) (p : App.Port.t) :
  App.Component.angle c = App.Num App.NaN ->
  App.getPortWorldPosition c p = App.WorldPos.mk App.NaN App.NaN (App.Port.id p).
Proof.
  intro Ha. unfold App.getPortWorldPosition. rewrite Ha. simpl.
  rewrite !add_NaN_r. reflexivity.
Qed.

(** X3: a component whose angle is NaN (the rotation field was cleared) has
    no port the pointer can find, wherever the pointer is; written to a file
    and read back its angle is [null], and its ports are again where those
    of the unrotated component are. *)
Theorem cleared_rotation_ports :
  forall (c : App.Component.t),
    App.Component.angle c = App.Num App.NaN ->
    (forall ports x y, App.findPortOf c ports x y = None)
    /\ App.Component.angle (throughJSON c) = App.Null
    /\ (forall p,
          App.getPortWorldPosition (throughJSON c) p
          = App.getPortWorldPosition
              (turned (throughJSON c) (App.Num (App.Finite 0))) p).
Proof.
  intros c Ha. split; [| split].
  - intros ports x y. induction ports as [| p ports IH]; [reflexivity |].
    cbn [App.findPortOf]. rewrite (getPortWorldPosition_NaN c p Ha).
    cbn [App.WorldPos.x App.WorldPos.y]. rewrite distance_NaN.
    cbn [App.lt]. exact IH.
  - unfold throughJSON. simpl. rewrite Ha. reflexivity.
  - intro p. unfold throughJSON, turned, App.getPortWorldPosition. simpl.
    rewrite Ha. reflexivity.
Qed.

(** A laser whose rotation field was cleared, and the pointer on the place
    of its output port. *)
Lemma cleared_rotation_ports_witness :
  App.findPortAtPosition (App.State.components laserWithoutAngle)
    (App.Finite 150) (App.Finite 120)
  = App.Ok None.
Proof.
  unfold laserWithoutAngle. simpl (App.State.components _).
  cbn [App.findPortAtPosition]. simpl (App.lookup _ _). cbv beta iota.
  match goal with
  | |- context [App.findPortOf ?c _ _ _] =>
      rewrite (proj1 (cleared_rotation_ports c eq_refl))
  end.
  reflexivity.
Defined.

End EditorPorts.

Section EditorHitTest.

Local Open Scope string_scope.
Local Open Scope list_scope.
Local Open Scope R_scope.

Lemma findPortOf_Some (comp : App.Component.t) (ports : list App.Port.t)
  (x y : App.number) (info : App.PortInfo.t) :
  App.findPortOf comp ports x y = Some info ->
  App.PortInfo.component info = comp
  /\ In (App.PortInfo.port info) ports
  /\ App.PortInfo.worldPos info
     = App.getPortWorldPosition comp (App.PortInfo.port info)
  /\ inRange x y comp (App.PortInfo.port info) = true.
Proof.
  induction ports as [| p ports IH]; cbn [App.findPortOf]; [discriminate |].
  fold (inRange x y comp p).
  destruct (inRange x y comp p) eqn:Hin.
  - intro H. injection H as <-. simpl. repeat split; [left; reflexivity | exact Hin].
  - intro H. destruct (IH H) as [Hc [Hp [Hw Hr]]].
    repeat split; try assumption. right. exact Hp.
Qed.

Lemma findPortOf_None (comp : App.Component.t) (ports : list App.Port.t)
  (x y : App.number) :
  App.findPortOf comp ports x y = None ->
  forall p, In p ports -> inRange x y comp p = false.
Proof.
  induction ports as [| q ports IH]; cbn [App.findPortOf]; [intros _ p [] |].
  fold (inRange x y comp q).
  destruct (inRange x y comp q) eqn:Hin; [discriminate |].
  intros H p [<- | Hp]; [exact Hin | apply IH; assumption].
Qed.

Lemma findPortAtPosition_TypeError (comps : list App.Component.t)
  (x y : App.number) :
  App.findPortAtPosition comps x y = App.TypeError ->
  exists c, In c comps /\ ~ recognised (App.Component.type c).
Proof.
  induction comps as [| comp comps IH]; cbn [App.findPortAtPosition];
    [discriminate |].
  destruct (App.lookup (App.Component.type comp) App.COMPONENT_TYPES)
    as [compType |] eqn:Hty.
  - destruct (App.findPortOf comp (App.ComponentType.ports compType) x y);
      [discriminate |].
    intro H. destruct (IH H) as [c [Hc Hn]].
    exists c. split; [right; exact Hc | exact Hn].
  - intros _. exists comp. split; [left; reflexivity |].
    intros [info Hinfo]. congruence.
Qed.



(** X4: [findPortAtPosition] answers with a port exactly when one is in
    range.  A port it returns belongs to the kind of a listed component,
    comes with its own world position and is less than 16 pixels from the
    pointer; when it returns no port, every port of every listed component
    is out of range; it stops at a TypeError only on a component whose type
    is no key of [COMPONENT_TYPES], so never when every type is one. *)
Theorem findPortAtPosition_in_range :
  forall (comps : list App.Component.t) (x y : App.number),
    (forall info,
        App.findPortAtPosition comps x y = App.Ok (Some info) ->
        In (App.PortInfo.component info) comps
        /\ (exists compType,
               App.lookup (App.Component.type (App.PortInfo.component info))
                 App.COMPONENT_TYPES = Some compType
               /\ In (App.PortInfo.port info) (App.ComponentType.ports compType))
        /\ App.PortInfo.worldPos info
           = App.getPortWorldPosition (App.PortInfo.component info)
               (App.PortInfo.port info)
        /\ inRange x y (App.PortInfo.component info) (App.PortInfo.port info)
           = true)
    /\ (App.findPortAtPosition comps x y = App.Ok None ->
        forall c compType p,
          In c comps ->
          App.lookup (App.Component.type c) App.COMPONENT_TYPES = Some compType ->
          In p (App.ComponentType.ports compType) ->
          inRange x y c p = false)
    /\ (App.findPortAtPosition comps x y = App.TypeError ->
        exists c, In c comps /\ ~ recognised (App.Component.type c))
    /\ ((forall c, In c comps -> recognised (App.Component.type c)) ->
        App.findPortAtPosition comps x y <> App.TypeError).
Proof.
  intros comps x y.
  pose proof (findPortAtPosition_TypeError comps x y) as Herr.
  split; [| split; [| split]].
  - clear Herr.
    induction comps as [| comp comps IH]; cbn [App.findPortAtPosition];
      [discriminate |].
    intro info.
    destruct (App.lookup (App.Component.type comp) App.COMPONENT_TYPES)
      as [compType |] eqn:Hty; [| discriminate].
    destruct (App.findPortOf comp (App.ComponentType.ports compType) x y)
      as [found |] eqn:Hfound.
    + intro H. injection H as <-.
      destruct (findPortOf_Some _ _ _ _ _ Hfound) as [Hc [Hp [Hw Hr]]].
      split; [left; symmetry; exact Hc |].
      split; [exists compType; rewrite Hc; split; assumption |].
      split; [rewrite Hw, Hc; reflexivity | rewrite Hc; exact Hr].
    + intro H. destruct (IH info H) as [Hin Hmore].
      split; [right; exact Hin | exact Hmore].
  - clear Herr.
    induction comps as [| comp comps IH]; cbn [App.findPortAtPosition];
      [intros _ c compType p [] |].
    destruct (App.lookup (App.Component.type comp) App.COMPONENT_TYPES)
      as [compType0 |] eqn:Hty; [| discriminate].
    destruct (App.findPortOf comp (App.ComponentType.ports compType0) x y)
      as [found |] eqn:Hfound; [discriminate |].
    intros H c compType p [<- | Hc] Hl Hp.
    + rewrite Hty in Hl. injection Hl as <-.
      apply (findPortOf_None _ _ _ _ Hfound). exact Hp.
    + apply IH with (compType := compType); assumption.
  - exact Herr.
  - intros Hall E. destruct (Herr E) as [c [Hc Hn]]. apply Hn, Hall, Hc.
Qed.

End EditorHitTest.

Section EditorDrag.

Local Open Scope string_scope.
Local Open Scope list_scope.
Local Open Scope R_scope.







Lemma findPortAtPosition_recognised (comps : list App.Component.t)
  (x y : App.number) :
  (forall c, In c comps -> recognised (App.Component.type c)) ->
  App.findPortAtPosition comps x y <> App.TypeError.
Proof.
  intros Hall E. destruct (findPortAtPosition_TypeError _ _ _ E) as [c [Hc Hn]].
  apply Hn, Hall, Hc.
Qed.

Lemma laserAndDetector_recognised (c : App.Component.t) :
  In c (App.State.components laserAndDetector) ->
  recognised (App.Component.type c).
Proof.
  intros [<- | [<- | []]]; eexists; reflexivity.
Qed.


Lemma handleMouseDown_components (s : App.State.t) (button : Z)
  (x y : App.number) (id : Z) :
  App.State.components (App.handleMouseDown s button x y id)
  = App.State.components s
  /\ App.State.connections (App.handleMouseDown s button x y id)
     = App.State.connections s.
Proof.
  unfold App.handleMouseDown.
  destruct (negb (button =? 0)%Z); [split; reflexivity |].
  destruct (App.findPortAtPosition _ _ _) as [[info |] |];
    [destruct (App.Port.type _); split; reflexivity | | split; reflexivity].
  destruct (find _ _); split; reflexivity.
Qed.




End EditorDrag.

Section EditorUpdates.

Local Open Scope string_scope.
Local Open Scope list_scope.
Local Open Scope R_scope.

Lemma lookup_obj_set_same {A : Type} (key : string) (v : A)
  (obj : list (string * A)) :
  App.lookup key (App.obj_set key v obj) = Some v.
Proof.
  induction obj as [| [k w] rest IH]; simpl.
  - rewrite String.eqb_refl. reflexivity.
  - destruct (String.eqb k key) eqn:E; simpl; rewrite E; [reflexivity | exact IH].
Qed.

Lemma lookup_obj_set_other {A : Type} (key k : string) (v : A)
  (obj : list (string * A)) :
  k <> key -> App.lookup k (App.obj_set key v obj) = App.lookup k obj.
Proof.
  intro Hne. induction obj as [| [k0 w] rest IH]; simpl.
  - destruct (String.eqb key k) eqn:E; [| reflexivity].
    apply String.eqb_eq in E. congruence.
  - destruct (String.eqb k0 key) eqn:E; simpl.
    + apply String.eqb_eq in E. subst k0.
      destruct (String.eqb key k) eqn:E2; [| reflexivity].
      apply String.eqb_eq in E2. congruence.
    + rewrite IH. reflexivity.
Qed.

Lemma obj_set_safe (key : string) (v : App.scalar) (obj : App.properties_t) :
  jsonSafe v = true ->
  forallb (fun kv => jsonSafe (snd kv)) obj = true ->
  forallb (fun kv => jsonSafe (snd kv)) (App.obj_set key v obj) = true.
Proof.
  intros Hv. induction obj as [| [k w] rest IH]; simpl.
  - intros _. rewrite Hv. reflexivity.
  - rewrite andb_true_iff. intros [Hw Hrest].
    destruct (String.eqb k key); simpl.
    + rewrite Hv, Hrest. reflexivity.
    + rewrite Hw, (IH Hrest). reflexivity.
Qed.

Lemma or_zero_not_NaN (n : App.number) : App.or_zero n <> App.NaN.
Proof.
  destruct n as [r | | |]; simpl; try discriminate.
  destruct (App.sign r); discriminate.
Qed.

Lemma or_zero_safe (n : App.number) :
  notInfinite n -> jsonSafe (App.Num (App.or_zero n)) = true.
Proof.
  intros [Hp Hn]. destruct n as [r | | |]; simpl; try congruence.
  destruct (App.sign r); reflexivity.
Qed.

(** X7: [updateProperty] changes nothing but the property table of the
    components with the given id, and there only the named property: it
    reads back as the number stored, every other property reads as before.
    The number stored is never NaN (a cleared field gives 0), so unless
    [parseFloat] returned an infinity a component that JSON can carry stays
    one that JSON can carry.  The connections are untouched. *)
Theorem updateProperty_sets_one_property :
  forall (s : App.State.t) (id : Z) (property : string) (parsed : App.number),
    let s' := App.updateProperty s id property parsed in
    App.or_zero parsed <> App.NaN
    /\ (parsed = App.NaN -> App.or_zero parsed = App.Finite 0)
    /\ Forall2
         (fun c c' =>
            sameButProperties c c'
            /\ (App.Component.id c = id ->
                App.lookup property (App.Component.properties c')
                = Some (App.Num (App.or_zero parsed))
                /\ forall k, k <> property ->
                     App.lookup k (App.Component.properties c')
                     = App.lookup k (App.Component.properties c))
            /\ (App.Component.id c <> id -> c' = c)
            /\ (notInfinite parsed -> componentSafe c = true ->
                componentSafe c' = true))
         (App.State.components s) (App.State.components s')
    /\ App.State.connections s' = App.State.connections s.
Proof.
  intros s id property parsed s'.
  split; [apply or_zero_not_NaN |].
  split; [intros ->; reflexivity |].
  split; [| reflexivity].
  subst s'. unfold App.updateProperty. cbn [App.setComponents App.State.components].
  induction (App.State.components s) as [| c l IH]; simpl; constructor;
    [| exact IH].
  destruct (App.Component.id c =? id)%Z eqn:E.
  - apply Z.eqb_eq in E. cbn [App.Component.properties].
    split; [repeat split |].
    split.
    { intros _. split; [apply lookup_obj_set_same |].
      intros k Hk. apply lookup_obj_set_other. exact Hk. }
    split; [intro Hne; contradiction |].
    intros Hfin. unfold componentSafe. simpl.
    rewrite !andb_true_iff. intros [Hxya Hp].
    split; [exact Hxya |].
    apply obj_set_safe; [apply or_zero_safe; exact Hfin | exact Hp].
  - apply Z.eqb_neq in E.
    split; [repeat split |].
    split; [intro Heq; contradiction |].
    split; [reflexivity |].
    intros _ H. exact H.
Qed.

Lemma handleMouseMove_frame (s : App.State.t) (x y : App.number) :
  map App.Component.id (App.State.components (App.handleMouseMove s x y))
  = map App.Component.id (App.State.components s)
  /\ map App.Component.type (App.State.components (App.handleMouseMove s x y))
     = map App.Component.type (App.State.components s)
  /\ App.State.connections (App.handleMouseMove s x y) = App.State.connections s.
Proof.
  unfold App.handleMouseMove.
  destruct (App.findPortAtPosition _ _ _) as [portInfo |];
    [| repeat split; reflexivity].
  destruct (App.State.connecting s) as [k |]; [repeat split; reflexivity |].
  destruct (App.State.dragging s) as [d |]; [| repeat split; reflexivity].
  unfold App.updateComponent. cbn [App.setComponents App.setHoveredPort
    App.State.components App.State.connections].
  rewrite !map_map.
  repeat split; apply map_ext; intro c;
    destruct (App.Component.id c =? App.Dragging.id d)%Z; reflexivity.
Qed.

Lemma handleMouseUp_components (s : App.State.t) (x y : App.number) (now : Z) :
  App.State.components (App.handleMouseUp s x y now) = App.State.components s.
Proof.
  unfold App.handleMouseUp.
  destruct (App.State.connecting s) as [k |]; [| reflexivity].
  destruct (App.findPortAtPosition _ _ _) as [[info |] |]; try reflexivity.
  destruct (App.Port.type _); [| reflexivity].
  destruct (existsb _ _); reflexivity.
Qed.

Lemma handleMouseUp_connections (s : App.State.t) (x y : App.number) (now : Z) :
  App.State.connections (App.handleMouseUp s x y now) = App.State.connections s
  \/ exists k info,
       App.State.connecting s = Some k
       /\ App.findPortAtPosition (App.State.components s) x y = App.Ok (Some info)
       /\ App.Port.type (App.PortInfo.port info) = App.input
       /\ existsb (fun c =>
                     App.same_ends c
                       (App.Connection.mk now (App.Connecting.fromComp k)
                          (App.Connecting.fromPort k)
                          (App.Component.id (App.PortInfo.component info))
                          (App.Port.id (App.PortInfo.port info))))
                  (App.State.connections s) = false
       /\ App.State.connections (App.handleMouseUp s x y now)
          = App.State.connections s
            ++ [App.Connection.mk now (App.Connecting.fromComp k)
                  (App.Connecting.fromPort k)
                  (App.Component.id (App.PortInfo.component info))
                  (App.Port.id (App.PortInfo.port info))].
Proof.
  unfold App.handleMouseUp.
  destruct (App.State.connecting s) as [k |]; [| left; reflexivity].
  destruct (App.findPortAtPosition _ _ _) as [[info |] |] eqn:Hf;
    try (left; reflexivity).
  destruct (App.Port.type _) eqn:Hty; [| left; reflexivity].
  destruct (existsb _ _) eqn:Hex; [left; reflexivity |].
  right. exists k, info. repeat split; assumption || reflexivity.
Qed.

Lemma canvasMouseDown_components (s : App.State.t) (button : Z)
  (x y : App.number) :
  App.State.components (App.canvasMouseDown s button x y)
  = App.State.components s
  /\ App.State.connections (App.canvasMouseDown s button x y)
     = App.State.connections s.
Proof.
  unfold App.canvasMouseDown.
  destruct (find _ _); [apply handleMouseDown_components | split; reflexivity].
Qed.

(** X8: what the mouse handlers never do.  A press changes neither list;
    a move keeps every component's id and kind, in order, and the
    connections; a release keeps the components and either keeps the
    connections or appends exactly one, from the pending port to the input
    port under the pointer, with the given id; and unless it stopped at a
    TypeError, a release leaves nothing pending and nothing dragged. *)
Theorem mouse_handlers_keep_graph :
  forall (s : App.State.t) (button : Z) (x y : App.number) (id now : Z),
    (App.State.components (App.handleMouseDown s button x y id)
     = App.State.components s
     /\ App.State.connections (App.handleMouseDown s button x y id)
        = App.State.connections s)
    /\ (App.State.components (App.canvasMouseDown s button x y)
        = App.State.components s
        /\ App.State.connections (App.canvasMouseDown s button x y)
           = App.State.connections s)
    /\ (map App.Component.id (App.State.components (App.handleMouseMove s x y))
        = map App.Component.id (App.State.components s)
        /\ map App.Component.type (App.State.components (App.handleMouseMove s x y))
           = map App.Component.type (App.State.components s)
        /\ App.State.connections (App.handleMouseMove s x y)
           = App.State.connections s)
    /\ App.State.components (App.handleMouseUp s x y now) = App.State.components s
    /\ (App.State.connections (App.handleMouseUp s x y now)
        = App.State.connections s
        \/ exists k info,
             App.State.connecting s = Some k
             /\ App.findPortAtPosition (App.State.components s) x y
                = App.Ok (Some info)
             /\ App.Port.type (App.PortInfo.port info) = App.input
             /\ App.State.connections (App.handleMouseUp s x y now)
                = App.State.connections s
                  ++ [App.Connection.mk now (App.Connecting.fromComp k)
                        (App.Connecting.fromPort k)
                        (App.Component.id (App.PortInfo.component info))
                        (App.Port.id (App.PortInfo.port info))])
    /\ (App.findPortAtPosition (App.State.components s) x y <> App.TypeError
        \/ App.State.connecting s = None ->
        App.State.connecting (App.handleMouseUp s x y now) = None
        /\ App.State.dragging (App.handleMouseUp s x y now) = None).
Proof.
  intros s button x y id now.
  split; [apply handleMouseDown_components |].
  split; [apply canvasMouseDown_components |].
  split; [apply handleMouseMove_frame |].
  split; [apply handleMouseUp_components |].
  split.
  - destruct (handleMouseUp_connections s x y now)
      as [H | [k [info [Hk [Hf [Hty [_ Happ]]]]]]]; [left; exact H |].
    right. exists k, info. repeat split; assumption.
  - unfold App.handleMouseUp. intros H.
    destruct (App.State.connecting s) as [k |] eqn:Hk.
    + destruct (App.findPortAtPosition _ _ _) as [portInfo |].
      * split; reflexivity.
      * destruct H as [H | H]; [contradiction | discriminate].
    + split; [exact Hk | reflexivity].
Qed.

(** X9: the canvas starts a connection only near a component's centre.  A
    press that no component is within 30 pixels of clears the selection
    and starts nothing, even on an output port, where [handleMouseDown]
    itself would start a pending connection. *)
Theorem canvas_press_needs_component_near :
  forall (s : App.State.t) (x y : App.number) (info : App.PortInfo.t) (id : Z),
    noComponentNear (App.State.components s) x y ->
    App.findPortAtPosition (App.State.components s) x y = App.Ok (Some info) ->
    App.Port.type (App.PortInfo.port info) = App.output ->
    App.canvasMouseDown s 0 x y = App.setSelectedId s None
    /\ App.State.connecting (App.handleMouseDown s 0 x y id)
       = Some (App.Connecting.mk
                 (App.Component.id (App.PortInfo.component info))
                 (App.Port.id (App.PortInfo.port info))
                 (App.WorldPos.x (App.PortInfo.worldPos info))
                 (App.WorldPos.y (App.PortInfo.worldPos info)) x y).
Proof.
  intros s x y info id Hfar Hf Hty. split.
  - unfold App.canvasMouseDown.
    destruct (find _ _) as [c |] eqn:E; [| reflexivity].
    apply find_some in E. destruct E as [Hin Hlt].
    rewrite (Hfar c Hin) in Hlt. discriminate.
  - unfold App.handleMouseDown. cbn [Z.eqb negb]. rewrite Hf, Hty. reflexivity.
Qed.

Lemma canvas_press_needs_component_near_witness :
  App.State.connecting
    (App.canvasMouseDown laserAndDetector 0 (App.Finite 150) (App.Finite 120))
  = None
  /\ App.State.connecting
       (App.handleMouseDown laserAndDetector 0 (App.Finite 150) (App.Finite 120) 1)
     <> None.
Proof.
  assert (Hhit : App.findPortAtPosition (App.State.components laserAndDetector)
                   (App.Finite 150) (App.Finite 120)
                 = App.Ok (Some (App.PortInfo.mk (App.newComponent "laser" 1)
                                   (App.Port.mk "out" 30 0 App.output)
                                   (App.getPortWorldPosition
                                      (App.newComponent "laser" 1)
                                      (App.Port.mk "out" 30 0 App.output))))).
  { change (App.State.components laserAndDetector)
      with [App.newComponent "laser" 1; App.newComponent "photodetector" 2].
    cbn [App.findPortAtPosition].
    simpl (App.lookup _ _). cbn [App.ComponentType.ports].
    unfold App.newComponent at 1.
    rewrite findPortOf_hit by (simpl; lra).
    reflexivity. }
  assert (Hfar : noComponentNear (App.State.components laserAndDetector)
                   (App.Finite 150) (App.Finite 120)).
  { intros c [<- | [<- | []]]; cbn [App.newComponent App.Component.x
      App.Component.y App.ToNumber]; apply lt_distance_far; lra. }
  destruct (canvas_press_needs_component_near laserAndDetector _ _ _ 1
              Hfar Hhit eq_refl) as [Hc Hd].
  split; [rewrite Hc; reflexivity | rewrite Hd; discriminate].
Defined.

End EditorUpdates.

Section EditorConnectionList.

Local Open Scope string_scope.
Local Open Scope list_scope.

Lemma same_ends_iff (a b : App.Connection.t) :
  App.same_ends a b = true <-> ends a = ends b.
Proof.
  unfold App.same_ends, ends.
  rewrite !andb_true_iff, !Z.eqb_eq, !String.eqb_eq.
  split.
  - intros [[[H1 H2] H3] H4]. congruence.
  - intro H. injection H as H1 H2 H3 H4. repeat split; assumption.
Qed.

Lemma existsb_same_ends (conn : App.Connection.t) (l : list App.Connection.t) :
  existsb (fun c => App.same_ends c conn) l = false ->
  ~ In (ends conn) (map ends l).
Proof.
  intros Hex Hin. apply in_map_iff in Hin. destruct Hin as [c [Hc Hin]].
  assert (existsb (fun c => App.same_ends c conn) l = true) as Ht.
  { apply existsb_exists. exists c. split; [exact Hin |].
    apply same_ends_iff. exact Hc. }
  congruence.
Qed.

(** Dropping connections from a list keeps the remaining ends distinct. *)
Lemma distinct_ends_filter (keep : App.Connection.t -> bool)
  (conns : list App.Connection.t) :
  NoDup (map ends conns) -> NoDup (map ends (filter keep conns)).
Proof.
  induction conns as [| conn conns IH]; simpl; [intro H; exact H |].
  intro H. apply NoDup_cons_iff in H. destruct H as [Hnew Hrest].
  destruct (keep conn); simpl; [| apply IH; exact Hrest].
  apply NoDup_cons; [| apply IH; exact Hrest].
  intro Hin. apply Hnew.
  apply in_map_iff in Hin. destruct Hin as [other [Hends Hother]].
  apply filter_In in Hother.
  apply in_map_iff. exists other. split; [exact Hends | apply Hother].
Qed.

Lemma NoDup_snoc {A : Type} (l : list A) (a : A) :
  NoDup l -> ~ In a l -> NoDup (l ++ [a]).
Proof.
  induction l as [| b l IH]; simpl; intros Hl Hn.
  - constructor; [intros [] | constructor].
  - inversion Hl as [| ? ? Hb Hl']; subst.
    constructor.
    + intro Hin. apply in_app_or in Hin. destruct Hin as [Hin | [-> | []]].
      * contradiction.
      * apply Hn. left. reflexivity.
    + apply IH; [exact Hl' |]. intro Hin. apply Hn. right. exact Hin.
Qed.

Lemma distinctEnds_connections (s s' : App.State.t) :
  App.State.connections s' = App.State.connections s ->
  distinctEnds s -> distinctEnds s'.
Proof.
  unfold distinctEnds. intros ->. exact (fun H => H).
Qed.

Lemma distinctEnds_handleMouseUp (s : App.State.t) (x y : App.number) (now : Z) :
  distinctEnds s -> distinctEnds (App.handleMouseUp s x y now).
Proof.
  intro H.
  destruct (handleMouseUp_connections s x y now)
    as [E | [k [info [_ [_ [_ [Hex E]]]]]]].
  - exact (distinctEnds_connections _ _ E H).
  - unfold distinctEnds. rewrite E, map_app. simpl.
    apply NoDup_snoc; [exact H |].
    apply existsb_same_ends. exact Hex.
Qed.

Lemma distinctEnds_deleteComponent (s : App.State.t) (id : Z) :
  distinctEnds s -> distinctEnds (App.deleteComponent s id).
Proof.
  unfold distinctEnds. rewrite deleteComponent_connections.
  apply distinct_ends_filter.
Qed.

Lemma distinctEnds_pageStep (s s' : App.State.t) :
  pageStep s s' -> distinctEnds s -> distinctEnds s'.
Proof.
  intros Hstep H. destruct Hstep as [s s' Hedit | s id].
  - destruct Hedit.
    + exact H.
    + apply distinctEnds_deleteComponent. exact H.
    + exact H.
    + exact H.
    + unfold distinctEnds, App.deleteConnection. simpl.
      apply distinct_ends_filter. exact H.
    + apply (distinctEnds_connections s); [| exact H].
      apply handleMouseDown_components.
    + apply (distinctEnds_connections s); [| exact H].
      apply canvasMouseDown_components.
    + apply (distinctEnds_connections s); [| exact H].
      apply handleMouseMove_frame.
    + apply distinctEnds_handleMouseUp. exact H.
  - apply distinctEnds_deleteComponent. exact H.
Qed.

(** X10: the page never holds two connections between the same two ports.
    In every state reached from the empty editor by the handlers of the
    page (adding, updating and deleting components, deleting connections,
    the mouse handlers), no two connections of the list have the same
    from-component, from-port, to-component and to-port. *)
Theorem connections_have_distinct_ends :
  forall s : App.State.t, reachableBy pageStep s -> distinctEnds s.
Proof.
  intros s Hreach. induction Hreach as [| s s' _ IH Hstep].
  - constructor.
  - exact (distinctEnds_pageStep s s' Hstep IH).
Qed.

Lemma connections_have_distinct_ends_witness :
  distinctEnds
    (App.handleMouseUp
       (App.handleMouseUp pressedOnLaserOutput (App.Finite 105) (App.Finite 120) 3)
       (App.Finite 105) (App.Finite 120) 4).
Proof.
  apply connections_have_distinct_ends.
  eapply reach_step; [| apply page_edit, edit_handleMouseUp].
  eapply reach_step; [| apply page_edit, edit_handleMouseUp].
  eapply reach_step; [| apply page_edit, edit_canvasMouseDown].
  eapply reach_step; [| apply page_edit, edit_addComponent].
  eapply reach_step; [| apply page_edit, edit_addComponent].
  apply reach_initial.
Defined.

Lemma filter_all {A : Type} (p : A -> bool) (l : list A) :
  (forall a, In a l -> p a = true) -> filter p l = l.
Proof.
  induction l as [| a l IH]; simpl; intro H; [reflexivity |].
  rewrite (H a (or_introl eq_refl)). f_equal. apply IH.
  intros b Hb. apply H. right. exact Hb.
Qed.

(** X11: deleting the connection a release has just created undoes the
    release on the connection list, provided the id the release used
    (the clock's reading) is the id of no connection already there. *)
Theorem deleteConnection_undoes_release :
  forall (s : App.State.t) (x y : App.number) (now : Z),
    freshConnectionId s now ->
    App.State.connections
      (App.deleteConnection (App.handleMouseUp s x y now) now)
    = App.State.connections s.
Proof.
  intros s x y now Hfresh.
  assert (Hkeep : filter (fun c => negb (App.Connection.id c =? now)%Z)
                    (App.State.connections s) = App.State.connections s).
  { apply filter_all. intros c Hc. apply negb_true_iff, Z.eqb_neq.
    apply Hfresh. exact Hc. }
  unfold App.deleteConnection. cbn [App.setConnections App.State.connections].
  destruct (handleMouseUp_connections s x y now)
    as [E | [k [info [_ [_ [_ [_ E]]]]]]]; rewrite E.
  - exact Hkeep.
  - rewrite filter_app, Hkeep. simpl. rewrite Z.eqb_refl. simpl.
    apply app_nil_r.
Qed.

Lemma deleteConnection_undoes_release_witness :
  App.State.connections (App.deleteConnection releasedOnDetectorInput 3)
  = App.State.connections pressedOnLaserOutput.
Proof.
  apply (deleteConnection_undoes_release pressedOnLaserOutput
           (App.Finite 105) (App.Finite 120) 3).
  intros c Hc. unfold pressedOnLaserOutput in Hc.
  rewrite (proj2 (canvasMouseDown_components laserAndDetector 0
                    (App.Finite 145) (App.Finite 120))) in Hc.
  destruct Hc.
Defined.

(** X12: deleting a component just added undoes the addition: the
    component list and the connection list are as before, provided the new
    id (the clock's reading) is the id of no component already there and
    every connection joins components of the list. *)
Theorem deleteComponent_undoes_addComponent :
  forall (s : App.State.t) (type : string) (now : Z),
    freshComponentId s now ->
    referencesPresent s ->
    App.State.components (App.deleteComponent (App.addComponent s type now) now)
    = App.State.components s
    /\ App.State.connections
         (App.deleteComponent (App.addComponent s type now) now)
       = App.State.connections s.
Proof.
  intros s type now Hfresh Hrefs.
  rewrite deleteComponent_components, deleteComponent_connections.
  unfold App.addComponent. cbn [App.setComponents App.State.components
    App.State.connections].
  split.
  - rewrite filter_app. simpl. rewrite Z.eqb_refl. simpl. rewrite app_nil_r.
    apply filter_all. intros c Hc. apply negb_true_iff, Z.eqb_neq.
    apply Hfresh. exact Hc.
  - apply filter_all. intros conn Hconn. apply kept_connection.
    destruct (Hrefs conn Hconn) as [[c1 [Hc1 E1]] [c2 [Hc2 E2]]].
    split; [rewrite <- E1 | rewrite <- E2]; apply Hfresh; assumption.
Qed.

Lemma deleteComponent_undoes_addComponent_witness :
  App.State.components
    (App.deleteComponent (App.addComponent threeComponents "lens" 4) 4)
  = App.State.components threeComponents
  /\ App.State.connections
       (App.deleteComponent (App.addComponent threeComponents "lens" 4) 4)
     = App.State.connections threeComponents.
Proof.
  apply (deleteComponent_undoes_addComponent threeComponents "lens" 4).
  - intros c [<- | [<- | [<- | []]]]; simpl; lia.
  - intros conn [<- | [<- | []]]; split.
    + exists (App.newComponent "laser" 1). split; [left; reflexivity | reflexivity].
    + exists (App.newComponent "photodetector" 2).
      split; [right; left; reflexivity | reflexivity].
    + exists (App.newComponent "laser" 1). split; [left; reflexivity | reflexivity].
    + exists (App.newComponent "mirror" 3).
      split; [right; right; left; reflexivity | reflexivity].
Defined.

End EditorConnectionList.

Section EditorImport.

Local Open Scope string_scope.
Local Open Scope list_scope.
Local Open Scope R_scope.

Lemma importJSON_sameSession (s : App.State.t) (file : option App.file_content) :
  sameSession s (App.importJSON s file).
Proof.
  unfold sameSession.
  destruct file as [[| comps | setup] |]; cbn [App.importJSON];
    [repeat split | repeat split | | repeat split].
  destruct (App.Setup.connections setup), (App.Setup.simulation setup);
    repeat split.
Qed.

(** X13: what [importJSON] leaves alone.  With no file chosen the state is
    unchanged; a file that does not parse changes nothing but the error
    message; a file whose components are read and whose connections are
    not replaces the components, sets the error message and keeps the
    connections and the sweep configuration; a setup document read to the
    end never touches the error message, keeps the connections of the state
    when it has no [connections] member, and keeps the sweep configuration
    when it has no [simulation] member.  In every case the selection, the
    pending gestures, the rays and the simulation result stay as they are
    ([exportJSON] writes rays and results, the import does not read them
    back). *)
Theorem importJSON_leaves_alone :
  forall (s : App.State.t),
    App.importJSON s None = s
    /\ (forall file, sameSession s (App.importJSON s file))
    /\ (App.State.components (App.importJSON s (Some App.NotASetup))
        = App.State.components s
        /\ App.State.connections (App.importJSON s (Some App.NotASetup))
           = App.State.connections s
        /\ App.State.sweepConfig (App.importJSON s (Some App.NotASetup))
           = App.State.sweepConfig s
        /\ App.State.error (App.importJSON s (Some App.NotASetup))
           = Some "Invalid JSON file")
    /\ (forall comps : list App.SetupComponent.t,
          let s' := App.importJSON s (Some (App.BadConnections comps)) in
          map App.Component.id (App.State.components s')
          = map App.SetupComponent.id comps
          /\ App.State.connections s' = App.State.connections s
          /\ App.State.sweepConfig s' = App.State.sweepConfig s
          /\ App.State.error s' = Some "Invalid JSON file")
    /\ (forall setup : App.Setup.t,
          let s' := App.importJSON s (Some (App.Document setup)) in
          App.State.error s' = App.State.error s
          /\ map App.Component.id (App.State.components s')
             = map App.SetupComponent.id (App.Setup.components setup)
          /\ (App.Setup.connections setup = None ->
              App.State.connections s' = App.State.connections s)
          /\ (App.Setup.simulation setup = None ->
              App.State.sweepConfig s' = App.State.sweepConfig s)).
Proof.
  intro s. split; [reflexivity |].
  split; [apply importJSON_sameSession |].
  split; [repeat split |].
  split.
  - intros comps s'. subst s'. cbn. rewrite map_map. repeat split.
  - intros setup s'. subst s'. cbn [App.importJSON]. split; [| split; [| split]].
    + destruct (App.Setup.connections setup), (App.Setup.simulation setup);
        reflexivity.
    + destruct (App.Setup.connections setup), (App.Setup.simulation setup);
        cbn; rewrite map_map; reflexivity.
    + intros ->. destruct (App.Setup.simulation setup); reflexivity.
    + intros ->. destruct (App.Setup.connections setup); reflexivity.
Qed.

(** X14: a file without a [connections] member leaves the old connections
    attached to the new components.  If the state has a connection from a
    component whose id the file does not list, the imported state has a
    connection that joins no component of its list. *)
Theorem import_without_connections_dangles :
  forall (s : App.State.t) (setup : App.Setup.t) (conn : App.Connection.t),
    App.Setup.connections setup = None ->
    In conn (App.State.connections s) ->
    ~ In (App.Connection.fromComp conn)
         (map App.SetupComponent.id (App.Setup.components setup)) ->
    ~ referencesPresent (App.importJSON s (Some (App.Document setup))).
Proof.
  intros s setup conn Hnone Hin Hmiss Hrefs.
  assert (Hconns : App.State.connections
                     (App.importJSON s (Some (App.Document setup)))
                   = App.State.connections s).
  { cbn [App.importJSON]. rewrite Hnone.
    destruct (App.Setup.simulation setup); reflexivity. }
  assert (Hids : map App.Component.id
                   (App.State.components
                      (App.importJSON s (Some (App.Document setup))))
                 = map App.SetupComponent.id (App.Setup.components setup)).
  { cbn [App.importJSON]. rewrite Hnone.
    destruct (App.Setup.simulation setup); cbn; rewrite map_map; reflexivity. }
  destruct (Hrefs conn) as [[c [Hc E]] _]; [rewrite Hconns; exact Hin |].
  apply Hmiss. rewrite <- Hids, <- E. apply in_map. exact Hc.
Qed.

Lemma import_without_connections_dangles_witness :
  ~ referencesPresent
      (App.importJSON threeComponents (Some (App.Document mirrorOnlyDocument))).
Proof.
  apply (import_without_connections_dangles threeComponents mirrorOnlyDocument
           (App.Connection.mk 10 1 "out" 2 "in")).
  - reflexivity.
  - left. reflexivity.
  - simpl. intros [H | []]. discriminate.
Defined.

Lemma jsonSafe_json_number (v : App.scalar) : jsonSafe (App.json_number v) = true.
Proof. destruct v as [[r | | |] |]; reflexivity. Qed.

Lemma componentSafe_throughJSON (c : App.Component.t) :
  componentSafe (throughJSON c) = true.
Proof.
  unfold componentSafe, throughJSON. simpl.
  rewrite !jsonSafe_json_number. simpl.
  unfold App.json_properties.
  induction (App.Component.properties c) as [| [k v] l IH]; simpl;
    [reflexivity |].
  rewrite jsonSafe_json_number. exact IH.
Qed.

(** X15: one round trip through a file is all the loss there is.  After
    export and import every component holds only values JSON can carry,
    and a second export and import gives back the same component list and
    the same connection list, whatever states the two imports start from. *)
Theorem roundTrip_twice :
  forall (s s0 s1 : App.State.t) (t t' : string),
    let r := roundTrip s s0 t in
    Forall (fun c => componentSafe c = true) (App.State.components r)
    /\ App.State.components (roundTrip r s1 t') = App.State.components r
    /\ App.State.connections (roundTrip r s1 t') = App.State.connections r
    /\ App.State.connections r = App.State.connections s.
Proof.
  intros s s0 s1 t t' r.
  assert (Hsafe : Forall (fun c => componentSafe c = true)
                    (App.State.components r)).
  { subst r. rewrite roundTrip_components. apply Forall_forall.
    intros c Hc. apply in_map_iff in Hc. destruct Hc as [c0 [<- _]].
    apply componentSafe_throughJSON. }
  split; [exact Hsafe |].
  split; [| split; [apply roundTrip_connections | apply roundTrip_connections]].
  rewrite roundTrip_components. apply map_fixed.
  apply Forall_forall. intros c Hc. apply throughJSON_fixed.
  rewrite Forall_forall in Hsafe. apply Hsafe. exact Hc.
Qed.

Lemma handleMouseDown_selectedId (s : App.State.t) (button : Z)
  (x y : App.number) (id : Z) :
  App.State.selectedId (App.handleMouseDown s button x y id)
  = App.State.selectedId s
  \/ App.State.selectedId (App.handleMouseDown s button x y id) = Some id.
Proof.
  unfold App.handleMouseDown.
  destruct (negb (button =? 0)%Z); [left; reflexivity |].
  destruct (App.findPortAtPosition _ _ _) as [[info |] |];
    [destruct (App.Port.type _); left; reflexivity | | left; reflexivity].
  destruct (find _ _); right; reflexivity.
Qed.

Lemma selectionPresent_same (s s' : App.State.t) :
  App.State.selectedId s' = App.State.selectedId s ->
  map App.Component.id (App.State.components s')
  = map App.Component.id (App.State.components s) ->
  selectionPresent s -> selectionPresent s'.
Proof.
  unfold selectionPresent. intros -> ->. exact (fun H => H).
Qed.

Lemma handleMouseMove_selectedId (s : App.State.t) (x y : App.number) :
  App.State.selectedId (App.handleMouseMove s x y) = App.State.selectedId s.
Proof.
  unfold App.handleMouseMove.
  destruct (App.findPortAtPosition _ _ _) as [portInfo |]; [| reflexivity].
  destruct (App.State.connecting s); [reflexivity |].
  destruct (App.State.dragging s); reflexivity.
Qed.

Lemma handleMouseUp_selectedId (s : App.State.t) (x y : App.number) (now : Z) :
  App.State.selectedId (App.handleMouseUp s x y now) = App.State.selectedId s.
Proof.
  unfold App.handleMouseUp.
  destruct (App.State.connecting s) as [k |]; [| reflexivity].
  destruct (App.findPortAtPosition _ _ _) as [[info |] |]; try reflexivity.
  destruct (App.Port.type _); [| reflexivity].
  destruct (existsb _ _); reflexivity.
Qed.

Lemma selectionPresent_canvasStep (s s' : App.State.t) :
  canvasStep s s' -> selectionPresent s -> selectionPresent s'.
Proof.
  intros Hstep H. destruct Hstep.
  - unfold selectionPresent, App.addComponent in *. simpl.
    destruct (App.State.selectedId s) as [sel |]; [| exact I].
    rewrite map_app. apply in_or_app. left. exact H.
  - unfold selectionPresent in *. rewrite deleteComponent_components.
    unfold App.deleteComponent.
    destruct (App.State.selectedId s) as [sel |] eqn:Hsel; simpl.
    + destruct (sel =? id)%Z eqn:E; simpl; [exact I |].
      rewrite Hsel. apply in_map_iff in H. destruct H as [c [Hc Hin]].
      apply in_map_iff. exists c. split; [exact Hc |].
      apply kept_component; [exact Hin |].
      apply Z.eqb_neq in E. congruence.
    + rewrite Hsel. exact I.
  - apply (selectionPresent_same s); [reflexivity | | exact H].
    unfold App.updateComponent. simpl. rewrite map_map.
    apply map_ext. intro c. destruct (App.Component.id c =? id)%Z; reflexivity.
  - apply (selectionPresent_same s); [reflexivity | | exact H].
    unfold App.updateProperty. simpl. rewrite map_map.
    apply map_ext. intro c. destruct (App.Component.id c =? id)%Z; reflexivity.
  - exact H.
  - unfold App.canvasMouseDown.
    destruct (find _ _) as [clicked |] eqn:Hfind; [| exact I].
    apply find_some in Hfind. destruct Hfind as [Hin _].
    unfold selectionPresent.
    rewrite (proj1 (handleMouseDown_components s button x y
                      (App.Component.id clicked))).
    destruct (handleMouseDown_selectedId s button x y (App.Component.id clicked))
      as [E | E]; rewrite E.
    + exact H.
    + apply in_map. exact Hin.
  - apply (selectionPresent_same s);
      [apply handleMouseMove_selectedId | apply handleMouseMove_frame | exact H].
  - apply (selectionPresent_same s);
      [apply handleMouseUp_selectedId | | exact H].
    rewrite handleMouseUp_components. reflexivity.
Qed.

(** X16: the selection always names a component of the list.  In every
    state reached from the empty editor by the handlers as the page calls
    them (the toolbar, the properties panel, the canvas's press, move and
    release, the two delete buttons), the selected id is the id of a
    component of the list or there is no selection. *)
Theorem selection_is_listed :
  forall s : App.State.t, reachableBy canvasStep s -> selectionPresent s.
Proof.
  intros s Hreach. induction Hreach as [| s s' _ IH Hstep].
  - exact I.
  - exact (selectionPresent_canvasStep s s' Hstep IH).
Qed.

Lemma selection_is_listed_witness :
  selectionPresent
    (App.deleteComponent
       (App.canvasMouseDown laserAndDetector 0 (App.Finite 130) (App.Finite 125))
       2).
Proof.
  apply selection_is_listed.
  eapply reach_step; [| apply canvas_deleteComponent].
  eapply reach_step; [| apply canvas_canvasMouseDown].
  eapply reach_step; [| apply canvas_addComponent].
  eapply reach_step; [| apply canvas_addComponent].
  apply reach_initial.
Defined.

Lemma find_stacked {A : Type} (p : A -> bool) (l : list A) (a b r : A) :
  p a = p b -> find p (l ++ [a; b]) = Some r -> In r l \/ r = a.
Proof.
  intros Hp. induction l as [| c l IH]; simpl.
  - destruct (p a) eqn:Ea.
    + intro H. injection H as <-. right. reflexivity.
    + rewrite <- Hp. discriminate.
  - destruct (p c).
    + intro H. injection H as <-. left. left. reflexivity.
    + intro H. destruct (IH H) as [Hin | ->]; [left; right; exact Hin |].
      right. reflexivity.
Qed.

(** X17: a component added on top of another cannot be picked.
    [addComponent] places every component at (120, 120) and the canvas
    takes the first component of the list within 30 pixels of the press,
    so after two additions no press selects the second component (as long
    as its id is new). *)
Theorem stacked_component_not_selected :
  forall (s : App.State.t) (type1 type2 : string) (now1 now2 button : Z)
         (x y : App.number),
    now1 <> now2 ->
    freshComponentId s now2 ->
    App.State.selectedId s <> Some now2 ->
    App.State.selectedId
      (App.canvasMouseDown
         (App.addComponent (App.addComponent s type1 now1) type2 now2)
         button x y)
    <> Some now2.
Proof.
  intros s type1 type2 now1 now2 button x y Hne Hfresh Hsel.
  unfold App.canvasMouseDown.
  destruct (find _ _) as [clicked |] eqn:Hfind; [| discriminate].
  assert (Hcomps : App.State.components
                     (App.addComponent (App.addComponent s type1 now1) type2 now2)
                   = App.State.components s
                     ++ [App.newComponent type1 now1; App.newComponent type2 now2]).
  { unfold App.addComponent. simpl. rewrite <- app_assoc. reflexivity. }
  rewrite Hcomps in Hfind.
  apply find_stacked in Hfind; [| reflexivity].
  assert (Hid : App.Component.id clicked <> now2).
  { destruct Hfind as [Hin | ->]; [apply Hfresh; exact Hin | exact Hne]. }
  destruct (handleMouseDown_selectedId
              (App.addComponent (App.addComponent s type1 now1) type2 now2)
              button x y (App.Component.id clicked)) as [E | E]; rewrite E.
  - exact Hsel.
  - congruence.
Qed.

Lemma stacked_component_not_selected_witness :
  App.State.selectedId
    (App.canvasMouseDown laserAndDetector 0 (App.Finite 130) (App.Finite 125))
  <> Some 2%Z.
Proof.
  apply (stacked_component_not_selected App.initialState "laser" "photodetector"
           1 2 0 (App.Finite 130) (App.Finite 125)).
  - lia.
  - intros c [].
  - discriminate.
Defined.

End EditorImport.

Section EditorGesturePath.

Local Open Scope string_scope.
Local Open Scope list_scope.
Local Open Scope R_scope.

Lemma moveThrough_pending (s : App.State.t) (k : App.Connecting.t)
  (moves : list (App.number * App.number)) :
  App.State.connecting s = Some k ->
  App.State.components (moveThrough s moves) = App.State.components s
  /\ App.State.connections (moveThrough s moves) = App.State.connections s
  /\ exists k',
       App.State.connecting (moveThrough s moves) = Some k'
       /\ App.Connecting.fromComp k' = App.Connecting.fromComp k
       /\ App.Connecting.fromPort k' = App.Connecting.fromPort k.
Proof.
  revert s k. induction moves as [| [x y] moves IH]; intros s k Hk.
  - split; [reflexivity | split; [reflexivity |]].
    exists k. repeat split. exact Hk.
  - cbn [moveThrough fold_left fst snd]. fold (moveThrough (App.handleMouseMove s x y) moves).
    assert (Hstep : App.State.components (App.handleMouseMove s x y)
                    = App.State.components s
                    /\ App.State.connections (App.handleMouseMove s x y)
                       = App.State.connections s
                    /\ exists k1,
                         App.State.connecting (App.handleMouseMove s x y) = Some k1
                         /\ App.Connecting.fromComp k1 = App.Connecting.fromComp k
                         /\ App.Connecting.fromPort k1 = App.Connecting.fromPort k).
    { unfold App.handleMouseMove.
      destruct (App.findPortAtPosition _ _ _) as [portInfo |].
      - rewrite Hk. split; [reflexivity | split; [reflexivity |]].
        eexists. repeat split.
      - split; [reflexivity | split; [reflexivity |]].
        exists k. repeat split. exact Hk. }
    destruct Hstep as [Hc [Hn [k1 [Hk1 [Hfc Hfp]]]]].
    destruct (IH _ k1 Hk1) as [Hc' [Hn' [k' [Hk' [Hfc' Hfp']]]]].
    split; [congruence | split; [congruence |]].
    exists k'. repeat split; congruence.
Qed.

(** X18: the whole gesture that draws a connection.  A left press on an
    output port, within 30 pixels of some component, then any moves of the
    pointer, then a release on an input port: the components are as
    before, nothing is left pending or dragged, and the connection list
    gains exactly the connection from the pressed port to the released
    one, with the given id, unless a connection between these two ports is
    already there, in which case the list is unchanged.  (Nothing asks
    that the two ports be on different components.) *)
Theorem connect_gesture :
  forall (s : App.State.t) (x0 y0 x1 y1 : App.number)
         (moves : list (App.number * App.number)) (now : Z)
         (out inp : App.PortInfo.t),
    componentNear (App.State.components s) x0 y0 ->
    App.findPortAtPosition (App.State.components s) x0 y0 = App.Ok (Some out) ->
    App.Port.type (App.PortInfo.port out) = App.output ->
    App.findPortAtPosition (App.State.components s) x1 y1 = App.Ok (Some inp) ->
    App.Port.type (App.PortInfo.port inp) = App.input ->
    let s' :=
      App.handleMouseUp (moveThrough (App.canvasMouseDown s 0 x0 y0) moves)
        x1 y1 now in
    App.State.components s' = App.State.components s
    /\ App.State.connecting s' = None
    /\ App.State.dragging s' = None
    /\ App.State.connections s'
       = if existsb (fun c => App.same_ends c (joining now out inp))
                    (App.State.connections s)
         then App.State.connections s
         else App.State.connections s ++ [joining now out inp].
Proof.
  intros s x0 y0 x1 y1 moves now out inp [near [Hin Hnear]] Hout Hoty Hinp Hity s'.
  assert (Hpress : exists k,
             App.canvasMouseDown s 0 x0 y0 = App.setConnecting s (Some k)
             /\ App.Connecting.fromComp k
                = App.Component.id (App.PortInfo.component out)
             /\ App.Connecting.fromPort k = App.Port.id (App.PortInfo.port out)).
  { unfold App.canvasMouseDown.
    destruct (find _ _) as [clicked |] eqn:Hfind.
    - unfold App.handleMouseDown. cbn [Z.eqb negb]. rewrite Hout, Hoty.
      eexists. repeat split.
    - pose proof (find_none _ _ Hfind near Hin) as Hn. cbv beta in Hn.
      congruence. }
  destruct Hpress as [k [Hpress [Hfc Hfp]]].
  subst s'. rewrite Hpress.
  destruct (moveThrough_pending (App.setConnecting s (Some k)) k moves eq_refl)
    as [Hc [Hn [k' [Hk' [Hfc' Hfp']]]]].
  cbn [App.setConnecting App.State.components App.State.connections] in Hc, Hn.
  unfold App.handleMouseUp. rewrite Hk', Hc, Hinp, Hity, Hn.
  cbv zeta. rewrite Hfc', Hfp', Hfc, Hfp. fold (joining now out inp).
  destruct (existsb _ (App.State.connections s)) eqn:Hex;
    cbn [App.setDragging App.setConnecting App.setConnections
         App.State.components App.State.connections App.State.connecting
         App.State.dragging];
    repeat split; assumption.
Qed.

Lemma connect_gesture_witness :
  App.State.connections
    (App.handleMouseUp
       (moveThrough
          (App.canvasMouseDown loneMirror 0 (App.Finite 120) (App.Finite 100))
          [(App.Finite 110, App.Finite 105); (App.Finite 104, App.Finite 118)])
       (App.Finite 100) (App.Finite 120) 2)
  = [App.Connection.mk 2 1 "out" 1 "in"].
Proof.
  assert (Hout : App.findPortAtPosition (App.State.components loneMirror)
                   (App.Finite 120) (App.Finite 100)
                 = App.Ok (Some (App.PortInfo.mk (App.newComponent "mirror" 1)
                                   (App.Port.mk "out" 0 (-20) App.output)
                                   (App.getPortWorldPosition
                                      (App.newComponent "mirror" 1)
                                      (App.Port.mk "out" 0 (-20) App.output))))).
  { change (App.State.components loneMirror) with [App.newComponent "mirror" 1].
    cbn [App.findPortAtPosition].
    simpl (App.lookup _ _). cbn [App.ComponentType.ports].
    unfold App.newComponent at 1.
    rewrite findPortOf_miss by (simpl; lra).
    rewrite findPortOf_hit by (simpl; lra).
    reflexivity. }
  assert (Hinp : App.findPortAtPosition (App.State.components loneMirror)
                   (App.Finite 100) (App.Finite 120)
                 = App.Ok (Some (App.PortInfo.mk (App.newComponent "mirror" 1)
                                   (App.Port.mk "in" (-20) 0 App.input)
                                   (App.getPortWorldPosition
                                      (App.newComponent "mirror" 1)
                                      (App.Port.mk "in" (-20) 0 App.input))))).
  { change (App.State.components loneMirror) with [App.newComponent "mirror" 1].
    cbn [App.findPortAtPosition].
    simpl (App.lookup _ _). cbn [App.ComponentType.ports].
    unfold App.newComponent at 1.
    rewrite findPortOf_hit by (simpl; lra).
    reflexivity. }
  assert (Hnear : componentNear (App.State.components loneMirror)
                    (App.Finite 120) (App.Finite 100)).
  { exists (App.newComponent "mirror" 1). split; [left; reflexivity |].
    cbn [App.newComponent App.Component.x App.Component.y App.ToNumber].
    apply lt_distance_near; lra. }
  destruct (connect_gesture loneMirror _ _ _ _
              [(App.Finite 110, App.Finite 105); (App.Finite 104, App.Finite 118)]
              2 _ _ Hnear Hout eq_refl Hinp eq_refl) as [_ [_ [_ H]]].
  exact H.
Defined.

Lemma allRecognised_map (f : App.Component.t -> App.Component.t)
  (comps : list App.Component.t) :
  (forall c, App.Component.type (f c) = App.Component.type c) ->
  allRecognised comps -> allRecognised (map f comps).
Proof.
  intros Hf H c' Hc'. apply in_map_iff in Hc'. destruct Hc' as [c [<- Hc]].
  rewrite Hf. apply H. exact Hc.
Qed.

Lemma handleMouseMove_dragging (s : App.State.t) (d : App.Dragging.t)
  (x y : App.number) :
  App.State.connecting s = None ->
  App.State.dragging s = Some d ->
  allRecognised (App.State.components s) ->
  App.State.components (App.handleMouseMove s x y)
  = App.State.components (App.updateComponent s (App.Dragging.id d) (dragUpdate d x y))
  /\ App.State.connecting (App.handleMouseMove s x y) = None
  /\ App.State.dragging (App.handleMouseMove s x y) = Some d.
Proof.
  intros Hk Hd Hrec. unfold App.handleMouseMove.
  destruct (App.findPortAtPosition _ _ _) as [portInfo |] eqn:Hf.
  - rewrite Hk, Hd. repeat split; assumption.
  - exfalso. exact (findPortAtPosition_recognised _ _ _ Hrec Hf).
Qed.

Lemma update_absorbs (id : Z) (u1 u2 : App.Updates.t) (x2 y2 : App.scalar)
  (l : list App.Component.t) :
  App.Updates.angle u1 = None ->
  u2 = App.Updates.mk (Some x2) (Some y2) None ->
  map (fun c => if (App.Component.id c =? id)%Z then App.spread c u2 else c)
      (map (fun c => if (App.Component.id c =? id)%Z then App.spread c u1 else c) l)
  = map (fun c => if (App.Component.id c =? id)%Z then App.spread c u2 else c) l.
Proof.
  intros Ha ->. rewrite map_map. apply map_ext. intro c.
  destruct (App.Component.id c =? id)%Z eqn:E; [| rewrite E; reflexivity].
  cbn [App.spread App.Component.id]. rewrite E.
  unfold App.spread. cbn. rewrite Ha. reflexivity.
Qed.

Lemma moveThrough_dragging (s : App.State.t) (d : App.Dragging.t)
  (moves : list (App.number * App.number)) :
  App.State.connecting s = None ->
  App.State.dragging s = Some d ->
  allRecognised (App.State.components s) ->
  App.State.connecting (moveThrough s moves) = None
  /\ App.State.dragging (moveThrough s moves) = Some d
  /\ (App.State.components (moveThrough s moves) = App.State.components s
      \/ exists x y,
           App.State.components (moveThrough s moves)
           = App.State.components
               (App.updateComponent s (App.Dragging.id d) (dragUpdate d x y))).
Proof.
  intros Hk Hd Hrec.
  induction moves as [| [x y] moves IH] using rev_ind.
  - split; [exact Hk | split; [exact Hd | left; reflexivity]].
  - unfold moveThrough. rewrite fold_left_app. cbn [fold_left fst snd].
    fold (moveThrough s moves).
    destruct IH as [Hk' [Hd' Hc']].
    assert (Hrec' : allRecognised (App.State.components (moveThrough s moves))).
    { destruct Hc' as [-> | [x0 [y0 ->]]]; [exact Hrec |].
      unfold App.updateComponent. cbn [App.setComponents App.State.components].
      apply allRecognised_map; [| exact Hrec].
      intro c. destruct (App.Component.id c =? App.Dragging.id d)%Z; reflexivity. }
    destruct (handleMouseMove_dragging _ d x y Hk' Hd' Hrec') as [Hc [Hk2 Hd2]].
    split; [exact Hk2 | split; [exact Hd2 |]].
    right. exists x, y. rewrite Hc.
    unfold App.updateComponent. cbn [App.setComponents App.State.components].
    destruct Hc' as [-> | [x0 [y0 ->]]]; [reflexivity |].
    unfold App.updateComponent. cbn [App.setComponents App.State.components].
    apply (update_absorbs (App.Dragging.id d) (dragUpdate d x0 y0) (dragUpdate d x y) _ _ _ eq_refl eq_refl).
Qed.

(** X19: a drag has no memory.  With a component dragged, no connection
    pending and every component of a known kind, the component list after
    the pointer has moved through any positions and then to [(x, y)] is
    the list a single move to [(x, y)] gives: where the component ends
    depends on the last pointer position only. *)
Theorem drag_depends_on_last_position :
  forall (s : App.State.t) (d : App.Dragging.t)
         (moves : list (App.number * App.number)) (x y : App.number),
    App.State.connecting s = None ->
    App.State.dragging s = Some d ->
    allRecognised (App.State.components s) ->
    App.State.components (App.handleMouseMove (moveThrough s moves) x y)
    = App.State.components (App.handleMouseMove s x y).
Proof.
  intros s d moves x y Hk Hd Hrec.
  destruct (moveThrough_dragging s d (moves ++ [(x, y)]) Hk Hd Hrec)
    as [_ [_ Hc]].
  unfold moveThrough in Hc. rewrite fold_left_app in Hc.
  cbn [fold_left fst snd] in Hc. fold (moveThrough s moves) in Hc.
  destruct (moveThrough_dragging s d moves Hk Hd Hrec) as [Hk' [Hd' Hc']].
  assert (Hrec' : allRecognised (App.State.components (moveThrough s moves))).
  { destruct Hc' as [-> | [x0 [y0 ->]]]; [exact Hrec |].
    unfold App.updateComponent. cbn [App.setComponents App.State.components].
    apply allRecognised_map; [| exact Hrec].
    intro c. destruct (App.Component.id c =? App.Dragging.id d)%Z; reflexivity. }
  rewrite (proj1 (handleMouseMove_dragging _ d x y Hk' Hd' Hrec')).
  rewrite (proj1 (handleMouseMove_dragging s d x y Hk Hd Hrec)).
  unfold App.updateComponent. cbn [App.setComponents App.State.components].
  destruct Hc' as [-> | [x0 [y0 ->]]]; [reflexivity |].
  unfold App.updateComponent. cbn [App.setComponents App.State.components].
  apply (update_absorbs (App.Dragging.id d) (dragUpdate d x0 y0) (dragUpdate d x y) _ _ _ eq_refl eq_refl).
Qed.

Lemma drag_depends_on_last_position_witness :
  App.State.components
    (App.handleMouseMove
       (moveThrough
          (App.setDragging laserAndDetector
             (Some (App.Dragging.mk 1 (App.Finite 10) (App.Finite 5))))
          [(App.Finite 400, App.Finite 300); (App.NaN, App.Finite 0)])
       (App.Finite 200) (App.Finite 100))
  = App.State.components
      (App.handleMouseMove
         (App.setDragging laserAndDetector
            (Some (App.Dragging.mk 1 (App.Finite 10) (App.Finite 5))))
         (App.Finite 200) (App.Finite 100)).
Proof.
  apply (drag_depends_on_last_position
           (App.setDragging laserAndDetector
              (Some (App.Dragging.mk 1 (App.Finite 10) (App.Finite 5))))
           (App.Dragging.mk 1 (App.Finite 10) (App.Finite 5))).
  - reflexivity.
  - reflexivity.
  - exact laserAndDetector_recognised.
Defined.

End EditorGesturePath.

Section EditorStalePending.

Local Open Scope string_scope.
Local Open Scope list_scope.
Local Open Scope R_scope.

(** X20: a pending connection outlives its component.  [deleteComponent]
    does not clear the pending connection, so when the component a
    connection is being dragged from is deleted and the pointer is then
    released on an input port, the release appends a connection from the
    deleted component: the list then holds a connection that joins no
    component of the component list. *)
Theorem release_after_deletion_dangles :
  forall (s : App.State.t) (k : App.Connecting.t) (x y : App.number) (now : Z)
         (inp : App.PortInfo.t),
    App.State.connecting s = Some k ->
    App.findPortAtPosition
      (App.State.components (App.deleteComponent s (App.Connecting.fromComp k)))
      x y = App.Ok (Some inp) ->
    App.Port.type (App.PortInfo.port inp) = App.input ->
    let s' :=
      App.handleMouseUp (App.deleteComponent s (App.Connecting.fromComp k))
        x y now in
    In (App.Connection.mk now (App.Connecting.fromComp k)
          (App.Connecting.fromPort k)
          (App.Component.id (App.PortInfo.component inp))
          (App.Port.id (App.PortInfo.port inp)))
       (App.State.connections s')
    /\ ~ referencesPresent s'.
Proof.
  intros s k x y now inp Hk Hf Hty s'.
  assert (Hin : In (App.Connection.mk now (App.Connecting.fromComp k)
                      (App.Connecting.fromPort k)
                      (App.Component.id (App.PortInfo.component inp))
                      (App.Port.id (App.PortInfo.port inp)))
                   (App.State.connections s')).
  { subst s'. unfold App.handleMouseUp.
    rewrite deleteComponent_connecting, Hk, Hf, Hty. cbv zeta.
    destruct (existsb _ _) eqn:Hex.
    - exfalso. apply existsb_exists in Hex. destruct Hex as [c [Hc Hsame]].
      rewrite deleteComponent_connections in Hc. apply filter_In in Hc.
      destruct Hc as [_ Hkept]. apply kept_connection in Hkept.
      unfold App.same_ends in Hsame. cbn [App.Connection.fromComp] in Hsame.
      rewrite !andb_true_iff in Hsame. destruct Hsame as [[[Hfc _] _] _].
      apply Z.eqb_eq in Hfc. destruct Hkept as [Hne _]. contradiction.
    - cbn [App.setDragging App.setConnecting App.setConnections
           App.State.connections].
      apply in_or_app. right. left. reflexivity. }
  split; [exact Hin |].
  intro Hrefs. destruct (Hrefs _ Hin) as [[c [Hc Hid]] _].
  subst s'. rewrite handleMouseUp_components, deleteComponent_components in Hc.
  apply filter_In in Hc. destruct Hc as [_ Hneq].
  apply negb_true_iff, Z.eqb_neq in Hneq. contradiction.
Qed.

Lemma release_after_deletion_dangles_witness :
  ~ referencesPresent releasedAfterDeletion.
Proof.
  unfold releasedAfterDeletion, deletedWhilePending.
  rewrite pressedOnLaserOutput_eq.
  refine (proj2 (release_after_deletion_dangles
                   (App.setConnecting laserAndDetector
                      (Some (App.Connecting.mk 1 "out" _ _ _ _)))
                   _ (App.Finite 105) (App.Finite 120) 3
                   (App.PortInfo.mk (App.newComponent "photodetector" 2)
                      (App.Port.mk "in" (-20) 0 App.input)
                      (App.getPortWorldPosition
                         (App.newComponent "photodetector" 2)
                         (App.Port.mk "in" (-20) 0 App.input)))
                   eq_refl _ eq_refl)).
  rewrite deleteComponent_components.
  change (filter _ (App.State.components _))
    with [App.newComponent "photodetector" 2].
  exact release_finds_detector_alone.
Defined.

End EditorStalePending.

Section EditorClearedField.

Local Open Scope string_scope.
Local Open Scope list_scope.
Local Open Scope R_scope.

Lemma add_NaN_l (b : App.number) : App.add App.NaN b = App.NaN.
Proof. destruct b; reflexivity. Qed.

Lemma distance_NaN_px (x y py : App.number) :
  App.distance x y App.NaN py = App.NaN.
Proof.
  unfold App.distance, App.sqr, App.sub. simpl (App.neg App.NaN).
  rewrite (add_NaN_r x). simpl (App.mul App.NaN App.NaN).
  rewrite add_NaN_l. reflexivity.
Qed.

Lemma getPortWorldPosition_NaN_position (c : App.Component.t) (p : App.Port.t) :
  App.Component.x c = App.Num App.NaN \/ App.Component.y c = App.Num App.NaN ->
  App.WorldPos.x (App.getPortWorldPosition c p) = App.NaN
  \/ App.WorldPos.y (App.getPortWorldPosition c p) = App.NaN.
Proof.
  unfold App.getPortWorldPosition. cbn [App.WorldPos.x App.WorldPos.y].
  intros [H | H]; rewrite H; cbn [App.ToNumber]; [left | right].
  - unfold App.sub. rewrite !add_NaN_l. reflexivity.
  - rewrite !add_NaN_l. reflexivity.
Qed.

(** X21: a component whose X or Y field was cleared is out of the mouse's
    reach.  With NaN as [x] or [y] (the position fields store
    [parseFloat(e.target.value)] unguarded), [findPortAtPosition] hits none
    of the component's ports and the canvas never finds the component
    within 30 pixels of a press, wherever the pointer is. *)
Theorem cleared_position_unreachable :
  forall c : App.Component.t,
    App.Component.x c = App.Num App.NaN \/ App.Component.y c = App.Num App.NaN ->
    (forall ports px py, App.findPortOf c ports px py = None)
    /\ (forall px py,
          App.lt (App.distance px py (App.ToNumber (App.Component.x c))
                    (App.ToNumber (App.Component.y c)))
                 (App.Finite 30) = false).
Proof.
  intros c H. split.
  - intros ports px py. induction ports as [| p ports IH]; [reflexivity |].
    cbn [App.findPortOf].
    destruct (getPortWorldPosition_NaN_position c p H) as [E | E]; rewrite E.
    + rewrite distance_NaN_px. exact IH.
    + rewrite distance_NaN. exact IH.
  - intros px py. destruct H as [H | H]; rewrite H; cbn [App.ToNumber].
    + rewrite distance_NaN_px. reflexivity.
    + rewrite distance_NaN. reflexivity.
Qed.

Lemma cleared_position_unreachable_witness :
  App.canvasMouseDown laserWithoutX 0 (App.Finite 120) (App.Finite 120)
  = App.setSelectedId laserWithoutX None.
Proof.
  unfold App.canvasMouseDown.
  change (App.State.components laserWithoutX)
    with [App.spread (App.newComponent "laser" 1)
            (App.Updates.mk (Some (App.Num App.NaN)) None None)].
  cbn [find].
  rewrite (proj2 (cleared_position_unreachable
                    (App.spread (App.newComponent "laser" 1)
                       (App.Updates.mk (Some (App.Num App.NaN)) None None))
                    (or_introl eq_refl))).
  reflexivity.
Defined.

End EditorClearedField.
